(** * podcast_summarizer: the pipeline orchestrator and the speaker-segment
      consolidation, embedded from [Backend/diarization.py],
      [Backend/summarization.py] and [Backend/app.py], with the cutting code
      of [Backend/audio_processing.py], the downloader of
      [Backend/youtube_downloader.py] and the endpoints that call them.

    Layout.  The modules [Diarization], [Py], [Summarization], [App],
    [AudioProcessing], [YouTube] and [Endpoints] hold the embedding, function by function, with the source lines they follow.
    The modules [...Notions] hold the predicates and sample inputs used to
    state properties, and the modules [...Facts] the properties themselves.

    Conventions of the embedding.
    - Every time stamp the consolidation code handles has been passed through
      [round(_, 2)]; such a value is represented by the integer number of
      hundredths of a second it denotes ([Z]), and arithmetic on it is exact.
      Unrounded quantities (the collaborator's raw turn boundaries, the random
      jitter) are rationals ([Q]).
    - A Python [dict] of segment fields is a record; the result dictionary of
      the orchestrator is an association list in insertion order; a Python
      exception is an explicit result constructor.
    - Collaborators outside the repository (the models, the regular
      expression library, the file system) are parameters whose outcome
      (value, exception, timeout) is data, so that a property proved for
      every parameter holds whatever they do. *)

From Stdlib Require Import ZArith QArith Qminmax List String Ascii Bool Lia Lqa.
From Stdlib Require Import Sorting.Sorted Sorting.Permutation.
From Stdlib Require Import DecimalString DecimalNat FinFun.
Import ListNotations.
Open Scope Z_scope.

(** ** Backend/diarization.py *)
Module Diarization.

(** [round(x)] of Python on an exact value: nearest integer, ties to even. *)
Definition round_half_even (q : Q) : Z :=
  let n := Qnum q in
  let d := Zpos (Qden q) in
  let f := n / d in
  let r := n mod d in
  if 2 * r <? d then f
  else if d <? 2 * r then f + 1
  else if Z.even f then f else f + 1.

(** [round(x, 2)], in hundredths. *)
Definition round2 (q : Q) : Z := round_half_even (q * 100).

(** One track of the collaborator's annotation: [turn.start], [turn.end]
    (seconds) and the number [k] of its label [SPEAKER_k]. *)
Record Turn := mkTurn {
  turn_start : Q;
  turn_end : Q;
  label : nat
}.

(** A segment dictionary: keys ["start"], ["end"], ["speaker"], ["duration"]
    and, once scored, ["confidence"] (all numbers in hundredths). *)
Record Segment := mkSegment {
  start : Z;
  end_ : Z;
  speaker : string;
  duration : Z;
  confidence : option Z
}.

Definition str_of_nat (n : nat) : string :=
  NilEmpty.string_of_uint (Nat.to_uint n).

(** [f"Speaker {n}"] *)
Definition speaker_name (n : nat) : string :=
  ("Speaker " ++ str_of_nat n)%string.

(** The dictionary built for one track (lines 260-265). *)
Definition raw_segment (t : Turn) : Segment :=
  {| start := round2 (turn_start t);
     end_ := round2 (turn_end t);
     speaker := speaker_name (label t + 1);
     duration := round2 (turn_end t - turn_start t);
     confidence := None |}.

(** [sorted(_, key=lambda s: s["start"])]: a stable sort; an element is placed
    before the elements of equal key that followed it in the input. *)
Fixpoint insert_by_start (s : Segment) (l : list Segment) : list Segment :=
  match l with
  | [] => [s]
  | x :: r =>
      if start s <=? start x then s :: x :: r
      else x :: insert_by_start s r
  end.

Fixpoint sort_by_start (l : list Segment) : list Segment :=
  match l with
  | [] => []
  | s :: r => insert_by_start s (sort_by_start r)
  end.

(** [self.collar = 0.15] *)
Definition collar : Z := 15.

(** The test of lines 280-281. *)
Definition mergeable (current next : Segment) : bool :=
  String.eqb (speaker next) (speaker current)
  && (start next - end_ current <=? collar).

(** Lines 283-284: extend [current] to the end of [next]. *)
Definition extend (current next : Segment) : Segment :=
  {| start := start current;
     end_ := end_ next;
     speaker := speaker current;
     duration := end_ next - start current;
     confidence := confidence current |}.

(** The sweep of lines 278-291, with [current] the segment being grown. *)
Fixpoint merge_from (current : Segment) (rest : list Segment) : list Segment :=
  match rest with
  | [] => [current]
  | next :: rest' =>
      if mergeable current next
      then merge_from (extend current next) rest'
      else current :: merge_from next rest'
  end.

(** Lines 272-291. *)
Definition merge_segments (sorted_segments : list Segment) : list Segment :=
  match sorted_segments with
  | [] => []
  | first :: rest => merge_from first rest
  end.

(** The merge pass: sort by start, then sweep (lines 268-291). *)
Definition merge_pass (raw_segments : list Segment) : list Segment :=
  merge_segments (sort_by_start raw_segments).

(** Line 296: [min(0.9, max(0.6, segment["duration"] / 10))]. *)
Definition base_confidence (d : Z) : Q :=
  Qmin (9 # 10) (Qmax (6 # 10) ((inject_Z d / 100) / 10)).

(** Line 298, for a drawn jitter value. *)
Definition confidence_of (d : Z) (jitter : Q) : Z :=
  round2 (base_confidence d + jitter).

(** Lines 294-298; [jitter i] is the value drawn for the [i]-th segment. *)
Fixpoint score_from (i : nat) (jitter : nat -> Q) (l : list Segment)
  : list Segment :=
  match l with
  | [] => []
  | s :: r =>
      {| start := start s; end_ := end_ s; speaker := speaker s;
         duration := duration s;
         confidence := Some (confidence_of (duration s) (jitter i)) |}
      :: score_from (S i) jitter r
  end.

Definition _process_diarization_results (jitter : nat -> Q)
    (diarization : list Turn) : list Segment :=
  score_from 0 jitter (merge_pass (map raw_segment diarization)).

(** *** [_enforce_two_speakers] (lines 302-365) *)

(** [list(set(s["speaker"] for s in segments))], up to the order of a set. *)
Definition unique_speakers (segments : list Segment) : list string :=
  nodup string_dec (map speaker segments).

(** Lines 324-327: the dictionary of counts, in insertion order. *)
Fixpoint bump (sp : string) (counts : list (string * nat))
  : list (string * nat) :=
  match counts with
  | [] => [(sp, 1%nat)]
  | (k, n) :: r =>
      if String.eqb k sp then (k, S n) :: r else (k, n) :: bump sp r
  end.

Definition speaker_counts (segments : list Segment) : list (string * nat) :=
  fold_left (fun counts s => bump (speaker s) counts) segments [].

(** [sorted(_, key=lambda x: x[1], reverse=True)]: stable, descending. *)
Fixpoint insert_by_count (x : string * nat) (l : list (string * nat))
  : list (string * nat) :=
  match l with
  | [] => [x]
  | y :: r =>
      if (snd y <=? snd x)%nat then x :: y :: r
      else y :: insert_by_count x r
  end.

Fixpoint sort_by_count (l : list (string * nat)) : list (string * nat) :=
  match l with
  | [] => []
  | x :: r => insert_by_count x (sort_by_count r)
  end.

Definition top_speaker_ids (segments : list Segment) : list string :=
  map fst (firstn 2 (sort_by_count (speaker_counts segments))).

Definition set_speaker (s : Segment) (sp : string) : Segment :=
  {| start := start s; end_ := end_ s; speaker := sp;
     duration := duration s; confidence := confidence s |}.

Definition str_in (x : string) (l : list string) : bool :=
  existsb (String.eqb x) l.

(** Lines 334-337. *)
Definition collapse_to_top (top : list string) (segments : list Segment)
  : list Segment :=
  map (fun segment =>
         if str_in (speaker segment) top then segment
         else set_speaker segment (hd ""%string top))
      segments.

(** Lines 349-361: label the sorted segments, switching the current speaker
    after every gap above half a second. *)
Fixpoint alternate (speaker1 speaker2 current_speaker : string)
    (sorted_segments : list Segment) : list Segment :=
  match sorted_segments with
  | [] => []
  | s :: rest =>
      set_speaker s current_speaker ::
      alternate speaker1 speaker2
        (match rest with
         | [] => current_speaker
         | next :: _ =>
             if 50 <? start next - end_ s
             then (if String.eqb current_speaker speaker1
                   then speaker2 else speaker1)
             else current_speaker
         end) rest
  end.

Definition _enforce_two_speakers (segments : list Segment) : list Segment :=
  match segments with
  | [] => segments
  | _ =>
      let unique := unique_speakers segments in
      if (List.length unique =? 2)%nat then segments
      else if (2 <? List.length unique)%nat then
        collapse_to_top (top_speaker_ids segments) segments
      else if (List.length unique =? 1)%nat then
        let speaker1 := hd ""%string unique in
        let speaker2 :=
          if negb (String.eqb speaker1 "Speaker 2")
          then "Speaker 2"%string else "Speaker 1"%string in
        alternate speaker1 speaker2 speaker1 (sort_by_start segments)
      else segments
  end.

(** *** [_process_in_chunks] (lines 394-497) *)

(** [speaker_mapping]: chunk-local name to global name. *)
Definition Mapping := list (string * string).

Fixpoint lookup (k : string) (m : Mapping) : option string :=
  match m with
  | [] => None
  | (k', v) :: r => if String.eqb k' k then Some v else lookup k r
  end.

(** Lines 456-458. *)
Definition remember (original_speaker : string) (m : Mapping) : Mapping :=
  match lookup original_speaker m with
  | Some _ => m
  | None => m ++ [(original_speaker, speaker_name (List.length m + 1))]
  end.

(** Lines 452-460 for one segment; [offset] is [start_ms / 1000] in
    hundredths. *)
Definition adjust (offset : Z) (m : Mapping) (segment : Segment)
  : Segment * Mapping :=
  let m' := remember (speaker segment) m in
  ({| start := start segment + offset;
      end_ := end_ segment + offset;
      speaker := match lookup (speaker segment) m' with
                 | Some g => g
                 | None => speaker segment
                 end;
      duration := duration segment;
      confidence := confidence segment |}, m').

Fixpoint adjust_all (offset : Z) (m : Mapping) (chunk_segments : list Segment)
  : list Segment * Mapping :=
  match chunk_segments with
  | [] => ([], m)
  | s :: r =>
      let '(s', m1) := adjust offset m s in
      let '(r', m2) := adjust_all offset m1 r in
      (s' :: r', m2)
  end.

(** The collaborator on the chunks of one recording: [chunk_turns i] is what
    [self.pipeline] returns on the [i]-th chunk, [None] when it raises;
    [chunk_jitter i] is the jitter drawn while scoring that chunk. *)
Record ChunkRun := mkChunkRun {
  audio_len_ms : Z;
  chunk_turns : nat -> option (list Turn);
  chunk_jitter : nat -> nat -> Q
}.

(** The loop of lines 421-472 over the chunk indices still to visit. *)
Fixpoint chunk_loop (run : ChunkRun) (chunk_duration : Z)
    (indices : list nat) (all_segments : list Segment) (m : Mapping)
  : list Segment * Mapping :=
  match indices with
  | [] => (all_segments, m)
  | i :: later =>
      let start_ms := Z.of_nat i * chunk_duration * 1000 in
      if audio_len_ms run <=? start_ms then (all_segments, m)
      else
        match chunk_turns run i with
        | Some diarization =>
            let chunk_segments :=
              _process_diarization_results (chunk_jitter run i) diarization in
            let '(adjusted, m') :=
              adjust_all (start_ms / 1000 * 100) m chunk_segments in
            chunk_loop run chunk_duration later (all_segments ++ adjusted) m'
        | None => chunk_loop run chunk_duration later all_segments m
        end
  end.

(** [int(total_duration / chunk_duration) + 1] *)
Definition chunk_count (run : ChunkRun) (chunk_duration : Z) : nat :=
  Z.to_nat (audio_len_ms run / (chunk_duration * 1000) + 1).

(** Lines 474-497 repeat the sweep of lines 276-291 on the sorted list. *)
Definition _process_in_chunks (run : ChunkRun) (chunk_duration : Z)
  : list Segment :=
  let '(all_segments, _) :=
    chunk_loop run chunk_duration (seq 0 (chunk_count run chunk_duration))
      [] [] in
  merge_pass all_segments.

(** [generate_speaker_statistics], lines 587-590: [speaker_times[sp]], the
    sum of the durations of the segments of [sp]. *)
Fixpoint speaker_time (sp : string) (segments : list Segment) : Z :=
  match segments with
  | [] => 0
  | s :: r =>
      (if String.eqb (speaker s) sp then duration s else 0)
      + speaker_time sp r
  end.

(** *** [diarize] (lines 145-243) *)

(** What [diarize] returns: processed segments, or the single segment
    [SPEAKER_UNKNOWN] over [0.0 .. 100000.0] carrying an ["error"] text. *)
Inductive DiarizeResult :=
| Segments (segments : list Segment)
| SpeakerUnknown (error : string).

(** The surroundings of one [diarize] call: whether [self.pipeline] was
    built, the audio as [AudioSegment.from_file] reads it together with the
    collaborator on its chunks ([None] when reading raises), and the
    collaborator on the whole file (its exception text when it raises). *)
Record DiarizeRun := mkDiarizeRun {
  pipeline_ready : bool;
  audio : option ChunkRun;
  whole_turns : string + list Turn;
  whole_jitter : nat -> Q
}.

Definition diarize (run : DiarizeRun) (num_speakers_is_2 : bool)
    (is_youtube_shorts : bool) (max_duration : option Z) : DiarizeResult :=
  if negb (pipeline_ready run) then
    SpeakerUnknown
      "Diarization disabled or failed to initialize. Check HF_ACCESS_TOKEN."
  else
    let long_audio :=
      match max_duration, audio run with
      | Some d, Some a =>
          if (0 <? d) && (d * 1000 <? audio_len_ms a) then Some (a, d)
          else None
      | _, _ => None
      end in
    match long_audio with
    | Some (a, d) => Segments (_process_in_chunks a d)
    | None =>
        match whole_turns run with
        | inl e => SpeakerUnknown ("Diarization failed: " ++ e)
        | inr diarization =>
            let segments :=
              _process_diarization_results (whole_jitter run) diarization in
            Segments (if is_youtube_shorts && num_speakers_is_2
                      then _enforce_two_speakers segments else segments)
        end
    end.

End Diarization.

(** ** Python strings and exceptions shared by the other modules *)
Module Py.

(** [str.isspace] on one character of an ASCII string. *)
Definition is_space (c : ascii) : bool :=
  let n := nat_of_ascii c in
  ((9 <=? n) && (n <=? 13) || (28 <=? n) && (n <=? 32))%nat.

Fixpoint lstrip_chars (l : list ascii) : list ascii :=
  match l with
  | [] => []
  | c :: r => if is_space c then lstrip_chars r else l
  end.

(** [s.strip()] *)
Definition strip (s : string) : string :=
  string_of_list_ascii
    (rev (lstrip_chars (rev (lstrip_chars (list_ascii_of_string s))))).

(** [s.split()]: the maximal runs of non-blank characters; [word] is the run
    being read, reversed. *)
Fixpoint split_chars (word : list ascii) (l : list ascii) : list string :=
  match l with
  | [] =>
      match word with
      | [] => []
      | _ => [string_of_list_ascii (rev word)]
      end
  | c :: r =>
      if is_space c then
        match word with
        | [] => split_chars [] r
        | _ => string_of_list_ascii (rev word) :: split_chars [] r
        end
      else split_chars (c :: word) r
  end.

Definition split (s : string) : list string :=
  split_chars [] (list_ascii_of_string s).

(** [sep.join(l)] *)
Fixpoint join (sep : string) (l : list string) : string :=
  match l with
  | [] => ""
  | [x] => x
  | x :: r => (x ++ sep ++ join sep r)%string
  end.

(** [s.startswith(p)] *)
Definition startswith (s p : string) : bool := String.prefix p s.

(** [l[a:b]] for [0 <= a]. *)
Definition slice {A} (a b : nat) (l : list A) : list A :=
  firstn (b - a) (skipn a l).

(** [l[-n:]] *)
Definition last_n {A} (n : nat) (l : list A) : list A :=
  skipn (List.length l - n) l.

(** Exceptions, by the classes the handlers tell apart; each carries
    [str(e)]. *)
Inductive Exn :=
| LookupError (msg : string)
| TimeoutError (msg : string)
| Exception (msg : string).

Definition str_of_exn (e : Exn) : string :=
  match e with
  | LookupError m | TimeoutError m | Exception m => m
  end.

(** A computation that returns or raises. *)
Inductive Res (A : Type) :=
| Ok (a : A)
| Raise (e : Exn).
Arguments Ok {A} a.
Arguments Raise {A} e.

Definition bind {A B} (c : Res A) (k : A -> Res B) : Res B :=
  match c with
  | Ok a => k a
  | Raise e => Raise e
  end.

(** [try: body except Exception as e: handler(e)] *)
Definition try_except {A} (body : Res A) (handler : Exn -> Res A) : Res A :=
  match body with
  | Ok a => Ok a
  | Raise e => handler e
  end.

End Py.

Declare Scope py_scope.
Notation "x <- c ;; k" := (Py.bind c (fun x => k))
  (at level 61, c at next level, right associativity) : py_scope.

(** ** Backend/summarization.py *)
Module Summarization.
Import Py.
Local Open Scope py_scope.
Local Open Scope string_scope.

(** The value under a key of a returned dictionary. *)
Inductive Value :=
| Str (s : string)
| StrList (l : list string).

Definition Dict := list (string * Value).

Fixpoint get (d : Dict) (key : string) : option Value :=
  match d with
  | [] => None
  | (k, v) :: r => if String.eqb k key then Some v else get r key
  end.

(** The libraries the module calls: [re.sub] and [re.split], sumy's parser
    and TextRank (already mapped through [str]), and the T5 round trip
    [tokenizer.encode; model.generate; tokenizer.decode] for a given
    [max_length].  Each may raise. *)
Record Libraries := mkLibraries {
  Document : Type;
  SUMY_AVAILABLE : bool;
  re_sub : string -> string -> string -> Res string;
  re_split : string -> string -> Res (list string);
  PlaintextParser_from_string : string -> string -> Res Document;
  TextRankSummarizer : Document -> nat -> Res (list string);
  t5_generate : string -> nat -> Res string
}.

Section WithLibraries.
Variable L : Libraries.

(** Lines 46-62. *)
Definition clean_transcript (text : string) : Res string :=
  cleaned <- re_sub L "Speaker \d+\s+\[\d+:\d+\s+-\s+\d+:\d+\]:\s+" "" text ;;
  re_sub L "\[\d+:\d+(?::\d+)?\]" "" cleaned.

Definition sentence_boundary : string := "(?<=[.!?])\s+".

(** *** ExtractiveSummarizer *)

Definition language : string := "english".
Definition sentence_count : nat := 20.

(** Lines 156-160. *)
Definition stripped_points (sentences : list string) : list string :=
  map strip (filter (fun s => negb (String.eqb (strip s) "")) sentences).

(** [ExtractiveSummarizer._fallback_summarize], lines 136-170. *)
Definition ext_fallback_summarize (text : string) : Res Dict :=
  try_except
    (cleaned_text <- clean_transcript text ;;
     sentences <- re_split L sentence_boundary cleaned_text ;;
     let num_sentences :=
       Nat.max 3 (Nat.min 10 (List.length sentences / 5)) in
     let summary_points :=
       stripped_points
         (firstn (Nat.min num_sentences (List.length sentences)) sentences) in
     Ok [("summary",
          StrList (match summary_points with
                   | [] => ["No key points could be extracted."]
                   | _ => summary_points
                   end))])
    (fun _ =>
       Ok [("summary",
            StrList ["Could not generate summary for this content."])]).

(** [ExtractiveSummarizer.summarize], lines 85-134. *)
Definition ext_summarize (text : string) : Res Dict :=
  if negb (SUMY_AVAILABLE L) then ext_fallback_summarize text
  else
    try_except
      (cleaned_text <- clean_transcript text ;;
       match
         (parser <- PlaintextParser_from_string L cleaned_text language ;;
          summary <- TextRankSummarizer L parser sentence_count ;;
          let summary_text := join " " summary in
          if String.eqb (strip summary_text) "" then
            ext_fallback_summarize text
          else
            let summary_points := stripped_points summary in
            Ok [("summary",
                 StrList (match summary_points with
                          | [] => ["No key points could be extracted."]
                          | _ => summary_points
                          end))])
       with
       | Raise (LookupError _) => ext_fallback_summarize cleaned_text
       | r => r
       end)
      (fun _ => ext_fallback_summarize text).

(** *** AbstractiveSummarizer *)

Definition too_short : Dict :=
  [("summary", Str "The content is too short for a meaningful summary.")].

(** [AbstractiveSummarizer._fallback_summarize], lines 311-352. *)
Definition abs_fallback_summarize (text : string) : Res Dict :=
  try_except
    (cleaned_text <- clean_transcript text ;;
     if (List.length (split cleaned_text) <? 20)%nat then Ok too_short
     else
       sentences <- re_split L sentence_boundary cleaned_text ;;
       if (List.length sentences <=? 4)%nat then
         Ok [("summary", Str (join " " sentences))]
       else
         let first_sentences := join " " (firstn 3 sentences) in
         let mid_start := Nat.max 3 (List.length sentences / 2 - 1) in
         let mid_sentences :=
           join " " (slice mid_start (mid_start + 2) sentences) in
         let last_sentences := join " " (last_n 2 sentences) in
         Ok [("summary",
              Str (first_sentences ++ " [...] " ++ mid_sentences
                   ++ " [...] " ++ last_sentences))])
    (fun _ =>
       Ok [("summary", Str "Unable to generate summary for this content.")]).

(** [summary.strip()] is empty or shorter than 10 characters. *)
Definition too_small (summary : string) : bool :=
  String.eqb (strip summary) ""
  || (String.length (strip summary) <? 10)%nat.

(** [_summarize_chunk], lines 428-486. *)
Definition _summarize_chunk (chunk : string) : Res Dict :=
  try_except
    (if (List.length (split chunk) <? 30)%nat then Ok [("summary", Str chunk)]
     else
       summary <- t5_generate L ("summarize: " ++ chunk) 150 ;;
       if too_small summary then
         Ok [("summary", Str (String.substring 0 500 chunk ++ " [...]"))]
       else Ok [("summary", Str summary)])
    (fun _ =>
       sentences <- re_split L sentence_boundary chunk ;;
       if (List.length sentences <=? 4)%nat then Ok [("summary", Str chunk)]
       else
         Ok [("summary",
              Str (join " " (firstn 2 sentences) ++ " [...] "
                   ++ join " " (last_n 2 sentences)))]).

(** Lines 381-384: the non-blank joins of [chunk_size] sentences each;
    [fuel] bounds the number of chunks. *)
Fixpoint make_chunks (fuel chunk_size : nat) (sentences : list string)
  : list string :=
  match fuel, sentences with
  | O, _ | _, [] => []
  | S fuel', _ =>
      let chunk := join " " (firstn chunk_size sentences) in
      let later := make_chunks fuel' chunk_size (skipn chunk_size sentences) in
      if negb (String.eqb (strip chunk) "") then chunk :: later else later
  end.

(** The text a dictionary contributes at line 402; a list cannot occur
    there and is joined only to keep the function total. *)
Definition summary_text (d : Dict) : string :=
  match get d "summary" with
  | Some (Str s) => s
  | Some (StrList l) => join " " l
  | None => ""
  end.

(** Lines 398-410 for one chunk; the results are collected by index, so the
    order of completion does not show. *)
Definition chunk_summary (chunk : string) : Res string :=
  try_except
    (summary_dict <- _summarize_chunk chunk ;;
     Ok (summary_text summary_dict))
    (fun _ =>
       sentences <- re_split L sentence_boundary chunk ;;
       Ok (join " " (firstn 2 sentences) ++ " [...] "
           ++ join " " (last_n 2 sentences))).

Fixpoint chunk_summaries (chunks : list string) : Res (list string) :=
  match chunks with
  | [] => Ok []
  | c :: r =>
      s <- chunk_summary c ;;
      rest <- chunk_summaries r ;;
      Ok (s :: rest)
  end.

(** [_summarize_long_text], lines 354-426. *)
Definition _summarize_long_text (text : string) : Res Dict :=
  try_except
    (cleaned_text <- clean_transcript text ;;
     sentences <- re_split L sentence_boundary cleaned_text ;;
     if (List.length sentences <=? 10)%nat then _summarize_chunk cleaned_text
     else
       let chunks_target :=
         Nat.min 5 (Nat.max 3 (List.length sentences / 200)) in
       let chunk_size :=
         Nat.max 10 (List.length sentences / chunks_target) in
       let chunks :=
         make_chunks (List.length sentences) chunk_size sentences in
       summaries <- chunk_summaries chunks ;;
       let intermediate_summary := join " " summaries in
       if (500 <? List.length (split intermediate_summary))%nat
       then _summarize_chunk intermediate_summary
       else Ok [("summary", Str intermediate_summary)])
    (fun _ => abs_fallback_summarize text).

(** [AbstractiveSummarizer.summarize], lines 236-309, for an instance whose
    [_model_available] flag and [max_length] are given. *)
Definition abs_summarize (_model_available : bool) (max_length : nat)
    (text : string) (max_input_length : nat) : Res Dict :=
  if negb _model_available then abs_fallback_summarize text
  else
    try_except
      (cleaned_text <- clean_transcript text ;;
       let words := List.length (split cleaned_text) in
       if (words <? 20)%nat then Ok too_short
       else if (max_input_length <? words)%nat then
         _summarize_long_text cleaned_text
       else if (600 <? words)%nat then _summarize_long_text cleaned_text
       else
         summary <- t5_generate L ("summarize: " ++ cleaned_text) max_length ;;
         if too_small summary then abs_fallback_summarize text
         else Ok [("summary", Str summary)])
      (fun _ => abs_fallback_summarize text).

End WithLibraries.

End Summarization.

(** ** Backend/app.py: [process_audio_file] *)
Module App.
Import Py.
Local Open Scope py_scope.
Local Open Scope string_scope.

(** The Python values the orchestrator handles. *)
#[warnings="-register-all"]
Inductive pyval :=
| PNone
| PBool (b : bool)
| PNum (q : Q)
| PStr (s : string)
| PList (l : list pyval)
| PDict (d : list (string * pyval))
| PPath (p : string)
| PObj (type_name : string).

Definition dict := list (string * pyval).

(** [d.get(k)] *)
Fixpoint get (d : dict) (k : string) : option pyval :=
  match d with
  | [] => None
  | (k', v) :: r => if String.eqb k' k then Some v else get r k
  end.

(** [d[k] = v], keeping the position of an existing key. *)
Fixpoint set (d : dict) (k : string) (v : pyval) : dict :=
  match d with
  | [] => [(k, v)]
  | (k', v') :: r =>
      if String.eqb k' k then (k', v) :: r else (k', v') :: set r k v
  end.

(** [d.get(k, default)] *)
Definition get_default (d : dict) (k : string) (default : pyval) : pyval :=
  match get d k with
  | Some v => v
  | None => default
  end.

(** [d.update(other)] *)
Definition update (d other : dict) : dict :=
  fold_left (fun acc kv => set acc (fst kv) (snd kv)) other d.

(** Truth value of an object. *)
Definition truthy (v : pyval) : bool :=
  match v with
  | PNone => false
  | PBool b => b
  | PNum q => negb (Qeq_bool q 0)
  | PStr s => negb (String.eqb s "")
  | PList l => match l with [] => false | _ => true end
  | PDict d => match d with [] => false | _ => true end
  | PPath _ | PObj _ => true
  end.

(** Truth value of [d.get(k)]; an absent key gives [None]. *)
Definition truthy_get (d : dict) (k : string) : bool :=
  match get d k with
  | Some v => truthy v
  | None => false
  end.

Definition is_list (v : pyval) : bool :=
  match v with PList _ => true | _ => false end.

Definition is_dict (v : pyval) : bool :=
  match v with PDict _ => true | _ => false end.

(** [type(v).__name__] *)
Definition type_name_of (v : pyval) : string :=
  match v with
  | PNone => "NoneType"
  | PBool _ => "bool"
  | PNum _ => "float"
  | PStr _ => "str"
  | PList _ => "list"
  | PDict _ => "dict"
  | PPath _ => "PosixPath"
  | PObj n => n
  end.

(** [os.path.basename] on a POSIX path; [acc] is the component being read. *)
Fixpoint basename_from (acc : string) (p : string) : string :=
  match p with
  | EmptyString => acc
  | String c r =>
      if Ascii.eqb c "/"%char then basename_from "" r
      else basename_from (acc ++ String c "") r
  end.

Definition basename (p : string) : string := basename_from "" p.

(** [json.dump(_, f, default=make_serializable)] accepts the JSON types and
    [Path] (lines 180-184); anything else raises [TypeError]. *)
Fixpoint serializable (v : pyval) : bool :=
  match v with
  | PObj _ => false
  | PList l => forallb serializable l
  | PDict d => forallb (fun kv => serializable (snd kv)) d
  | _ => true
  end.

(** The result file of the job: missing, opened but not fully written, or
    holding a whole JSON object. *)
Inductive File :=
| Absent
| Partial
| Complete (content : dict).

(** The calls the orchestrator makes to its collaborators, as logged. *)
Inductive Call :=
| AudioProcessor_new
| AudioProcessor_extract_metadata
| WhisperTranscriber_new
| WhisperTranscriber_transcribe
| SpeakerDiarization_new
| SpeakerDiarization_diarize
| TopicDetector_new
| TopicDetector_detect_topics
| ExtractiveSummarizer_new
| ExtractiveSummarizer_summarize
| AbstractiveSummarizer_new
| AbstractiveSummarizer_summarize
| Write (content : dict).

(** What surrounds one run: the credential, what each collaborator does when
    called, whether a stage's timer has fired by the time its block ends
    (the check of line 168), and for the [n]-th [open(results_file, 'w')]
    the text of the error it raises, if any. *)
Record World := mkWorld {
  HF_ACCESS_TOKEN : option string;
  new_AudioProcessor : Res unit;
  extract_metadata : string -> Res pyval;
  new_WhisperTranscriber : Res bool;
  transcribe : string -> Res pyval;
  new_SpeakerDiarization : Res unit;
  diarize : string -> pyval -> Res pyval;
  diarization_timer_fired : bool;
  new_TopicDetector : Res unit;
  detect_topics : pyval -> Res pyval;
  topic_timer_fired : bool;
  new_ExtractiveSummarizer : Res unit;
  extractive_summarize : pyval -> Res pyval;
  new_AbstractiveSummarizer : Res unit;
  abstractive_summarize : pyval -> Res pyval;
  summarization_timer_fired : bool;
  open_error : nat -> option string
}.

(** The part of the machine a run changes: the result file, the number of
    [open] calls made so far and the log of calls, most recent last. *)
Record State := mkState {
  file : File;
  opens : nat;
  log : list Call
}.

Definition initial : State := {| file := Absent; opens := 0; log := [] |}.

Definition logged (c : list Call) (st : State) : State :=
  {| file := file st; opens := opens st; log := (log st ++ c)%list |}.

(** [with open(results_file, 'w') as f: json.dump(content, f, ...)] *)
Definition save (w : World) (content : dict) (st : State)
  : Res unit * State :=
  let st1 := {| file := file st; opens := S (opens st);
                log := (log st ++ [Write content])%list |} in
  match open_error w (opens st) with
  | Some msg => (Raise (Exception msg), st1)
  | None =>
      if serializable (PDict content) then
        (Ok tt, {| file := Complete content; opens := opens st1;
                   log := log st1 |})
      else
        (Raise (Exception "Object is not JSON serializable"),
         {| file := Partial; opens := opens st1; log := log st1 |})
  end.

Definition error_dict (msg : string) : pyval := PDict [("error", PStr msg)].

(** Lines 343-347. *)
Definition initial_results (job_id : string) : dict :=
  [("job_id", PStr job_id); ("status", PStr "completed"); ("error", PNone)].

(** Lines 350-378: the audio processor and the metadata. *)
Definition metadata_stage (w : World) (file_path : string)
    (metadata : option dict) (results : dict) : dict * list Call :=
  let results1 :=
    match new_AudioProcessor w with
    | Ok _ => results
    | Raise e =>
        set results "warning"
          (PStr ("Error initializing audio processor: " ++ str_of_exn e))
    end in
  let attempt : Res dict * list Call :=
    match new_AudioProcessor w with
    | Raise _ =>
        (Raise (Exception
           "cannot access local variable 'audio_processor' where it is not associated with a value"),
         [])
    | Ok _ =>
        (audio_metadata <- extract_metadata w file_path ;;
         match audio_metadata with
         | PDict d =>
             let d1 := match metadata with
                       | Some ((_ :: _) as m) => update d m
                       | _ => d
                       end in
             Ok (set (set d1 "file_path" (PStr file_path))
                     "audio_url" (PStr ("/api/audio/" ++ basename file_path)))
         | v =>
             Raise (Exception ("'" ++ type_name_of v
                               ++ "' object does not support item assignment"))
         end,
         [AudioProcessor_extract_metadata])
    end in
  (match fst attempt with
   | Ok d => set results1 "metadata" (PDict d)
   | Raise e =>
       set results1 "metadata"
         (PDict [("error",
                  PStr ("Failed to extract metadata: " ++ str_of_exn e));
                 ("file_path", PStr file_path);
                 ("audio_url", PStr ("/api/audio/" ++ basename file_path))])
   end,
   AudioProcessor_new :: snd attempt).

(** Lines 405-430: transcription, once the transcriber exists. *)
Definition transcription_stage (w : World) (file_path : string)
    (results : dict) : dict * list Call :=
  (match transcribe w file_path with
   | Ok (PDict d) =>
       set (set results "transcript" (get_default d "text" (PStr "")))
           "segments" (get_default d "segments" (PList []))
   | Ok (PStr s) =>
       set (set results "transcript" (PStr s)) "segments" (PList [])
   | Ok v =>
       set (set results "transcript"
              (PStr ("Error: Unexpected transcription result type: <class '"
                     ++ type_name_of v ++ "'>")))
           "segments" (PList [])
   | Raise e =>
       set (set results "transcript" (PStr ("Error: " ++ str_of_exn e)))
           "segments" (PList [])
   end,
   [WhisperTranscriber_transcribe]).

(** The test of line 433; a transcript that is neither empty nor a string
    has no [startswith]. *)
Definition no_valid_transcript (results : dict) : Res bool :=
  if negb (truthy_get results "transcript") then Ok true
  else
    match get results "transcript" with
    | Some (PStr s) => Ok (startswith s "Error:")
    | Some v =>
        Raise (Exception ("'" ++ type_name_of v
                          ++ "' object has no attribute 'startswith'"))
    | None => Ok true
    end.

(** Truth value of [HF_ACCESS_TOKEN]. *)
Definition token_set (w : World) : bool :=
  match HF_ACCESS_TOKEN w with
  | Some t => negb (String.eqb t "")
  | None => false
  end.

Definition Qltb (a b : Q) : bool := negb (Qle_bool b a).

(** A value that [max] and [<] compare with a number. *)
Definition as_number (v : pyval) : option Q :=
  match v with
  | PNum q => Some q
  | PBool b => Some (if b then 1%Q else 0%Q)
  | _ => None
  end.

(** Lines 448-451: the largest ["end"] among the segment dictionaries. *)
Fixpoint total_audio_duration (total : Q) (segments : list pyval) : Res Q :=
  match segments with
  | [] => Ok total
  | PDict d :: r =>
      match get d "end" with
      | Some v =>
          match as_number v with
          | Some q => total_audio_duration (if Qltb total q then q else total) r
          | None =>
              Raise (Exception ("'>' not supported between instances of '"
                                ++ type_name_of v ++ "' and 'int'"))
          end
      | None => total_audio_duration total r
      end
  | _ :: r => total_audio_duration total r
  end.

(** The handlers of lines 471-476. *)
Definition diarization_failure (e : Exn) : pyval :=
  match e with
  | TimeoutError _ => error_dict "Speaker diarization timed out"
  | _ => error_dict (str_of_exn e)
  end.

(** Lines 463-470: what the orchestrator does with the diarizer's answer. *)
Definition accept_diarization (results : dict) (diarization_result : pyval)
  : dict :=
  match diarization_result with
  | PDict d =>
      let results1 := set results "diarization" (PDict d) in
      if truthy_get d "segments"
         && match get d "segments" with Some v => is_list v | None => false end
      then set results1 "segments"
             (get_default d "segments" (get_default results "segments" PNone))
      else results1
  | _ =>
      set results "diarization"
        (error_dict "Invalid diarization result format")
  end.

(** Lines 445-483. *)
Definition diarization_stage (w : World) (file_path : string)
    (results : dict) : dict * list Call :=
  match token_set w, get results "segments" with
  | true, Some (PList ((_ :: _) as segments)) =>
      match total_audio_duration 0 segments with
      | Raise e => (set results "diarization" (diarization_failure e), [])
      | Ok total =>
          if Qltb total 10 || (List.length segments <? 5)%nat then
            (set results "diarization"
               (error_dict "Audio too short for speaker detection"), [])
          else
            match new_SpeakerDiarization w with
            | Raise e =>
                (set results "diarization" (diarization_failure e),
                 [SpeakerDiarization_new])
            | Ok _ =>
                let transcript_data := PDict [("segments", PList segments)] in
                match diarize w file_path transcript_data with
                | Raise e =>
                    (set results "diarization" (diarization_failure e),
                     [SpeakerDiarization_new; SpeakerDiarization_diarize])
                | Ok diarization_result =>
                    let results1 :=
                      accept_diarization results diarization_result in
                    (if diarization_timer_fired w
                     then set results1 "diarization"
                            (error_dict "Speaker diarization timed out")
                     else results1,
                     [SpeakerDiarization_new; SpeakerDiarization_diarize])
                end
            end
      end
  | false, _ =>
      (set results "diarization"
         (error_dict "Hugging Face access token not provided"), [])
  | true, _ =>
      (set results "diarization"
         (error_dict "No valid segments available for diarization"), [])
  end.

(** [results.get("transcript") and not ....startswith("Error:")] *)
Definition valid_transcript (results : dict) : Res bool :=
  b <- no_valid_transcript results ;; Ok (negb b).

(** [len(results["transcript"].split())] *)
Definition word_count (results : dict) : nat :=
  match get results "transcript" with
  | Some (PStr s) => List.length (split s)
  | _ => 0
  end.

Definition transcript_of (results : dict) : pyval :=
  get_default results "transcript" PNone.

(** Lines 486-513. *)
Definition topic_stage (w : World) (results : dict)
  : Res (dict * list Call) :=
  valid <- valid_transcript results ;;
  if valid then
    if (word_count results <? 30)%nat then
      Ok (set results "topics" (PList []), [])
    else
      match new_TopicDetector w with
      | Raise _ => Ok (set results "topics" (PList []), [TopicDetector_new])
      | Ok _ =>
          Ok (match detect_topics w (transcript_of results) with
              | Ok (PList l) =>
                  if topic_timer_fired w then set results "topics" (PList [])
                  else set results "topics" (PList l)
              | _ => set results "topics" (PList [])
              end,
              [TopicDetector_new; TopicDetector_detect_topics])
      end
  else Ok (set results "topics" (PList []), []).

(** Lines 528-540. *)
Definition extractive_part (w : World) (results : dict) : dict * list Call :=
  match new_ExtractiveSummarizer w with
  | Raise e =>
      (set results "extractive_summary"
         (PList [PStr ("Error: " ++ str_of_exn e)]),
       [ExtractiveSummarizer_new])
  | Ok _ =>
      (match extractive_summarize w (transcript_of results) with
       | Ok (PDict d) =>
           match get d "summary" with
           | Some v => set results "extractive_summary" v
           | None =>
               set results "extractive_summary"
                 (PList [PStr "Error generating extractive summary"])
           end
       | Ok _ =>
           set results "extractive_summary"
             (PList [PStr "Error generating extractive summary"])
       | Raise e =>
           set results "extractive_summary"
             (PList [PStr ("Error: " ++ str_of_exn e)])
       end,
       [ExtractiveSummarizer_new; ExtractiveSummarizer_summarize])
  end.

(** Lines 543-555. *)
Definition abstractive_part (w : World) (results : dict) : dict * list Call :=
  match new_AbstractiveSummarizer w with
  | Raise e =>
      (set results "abstractive_summary" (PStr ("Error: " ++ str_of_exn e)),
       [AbstractiveSummarizer_new])
  | Ok _ =>
      (match abstractive_summarize w (transcript_of results) with
       | Ok (PDict d) =>
           match get d "summary" with
           | Some v => set results "abstractive_summary" v
           | None =>
               set results "abstractive_summary"
                 (PStr "Error generating abstractive summary")
           end
       | Ok _ =>
           set results "abstractive_summary"
             (PStr "Error generating abstractive summary")
       | Raise e =>
           set results "abstractive_summary" (PStr ("Error: " ++ str_of_exn e))
       end,
       [AbstractiveSummarizer_new; AbstractiveSummarizer_summarize])
  end.

Definition timed_out_summaries (results : dict) : dict :=
  set (set results "abstractive_summary" (PStr "Summarization timed out"))
      "extractive_summary" (PList [PStr "Summarization timed out"]).

(** Lines 516-567. *)
Definition summarization_stage (w : World) (results : dict)
  : Res (dict * list Call) :=
  valid <- valid_transcript results ;;
  if valid then
    let '(results1, calls) :=
      if (word_count results <? 30)%nat then
        (set (set results "abstractive_summary"
                (PStr "The content is too short for a meaningful summary."))
             "extractive_summary"
             (PList [PStr "The content is too short for extracting key points."]),
         [])
      else
        let '(r1, c1) := extractive_part w results in
        let '(r2, c2) := abstractive_part w r1 in
        (r2, (c1 ++ c2)%list) in
    Ok (if summarization_timer_fired w then timed_out_summaries results1
        else results1, calls)
  else
    Ok (set (set results "abstractive_summary"
               (PStr "Summarization skipped - No valid transcript"))
            "extractive_summary"
            (PList [PStr "Summarization skipped - No valid transcript"]),
        []).

(** The record after the transcription stage (lines 343-430), for a
    transcriber that could be built; [mock_mode] is its [_mock_mode]. *)
Definition after_transcription (w : World) (file_path job_id : string)
    (metadata : option dict) (mock_mode : bool) : dict * list Call :=
  let '(results, calls) :=
    metadata_stage w file_path metadata (initial_results job_id) in
  let results1 :=
    if mock_mode
    then set results "warning"
           (PStr "Running in mock mode - Whisper not available. Results may be limited.")
    else results in
  let '(results2, calls2) := transcription_stage w file_path results1 in
  (results2, (calls ++ [WhisperTranscriber_new] ++ calls2)%list).

(** Lines 392-394. *)
Definition transcriber_failure (e : Exn) (results : dict) : dict :=
  set (set (set results "warning"
              (PStr ("Error initializing transcriber: " ++ str_of_exn e)))
           "transcript"
           (PStr "Error: Transcription failed due to initialization error."))
      "segments" (PList []).

(** Lines 340-574: the body of the outer [try]. *)
Definition body (w : World) (file_path job_id : string)
    (metadata : option dict) (st : State) : Res unit * State :=
  match new_WhisperTranscriber w with
  | Raise e =>
      let '(results, calls) :=
        metadata_stage w file_path metadata (initial_results job_id) in
      save w (transcriber_failure e results)
        (logged (calls ++ [WhisperTranscriber_new])%list st)
  | Ok mock_mode =>
      let '(results, calls) :=
        after_transcription w file_path job_id metadata mock_mode in
      let st1 := logged calls st in
      match no_valid_transcript results with
      | Raise e => (Raise e, st1)
      | Ok true => save w results st1
      | Ok false =>
          let '(results1, calls1) := diarization_stage w file_path results in
          let st2 := logged calls1 st1 in
          match topic_stage w results1 with
          | Raise e => (Raise e, st2)
          | Ok (results2, calls2) =>
              let st3 := logged calls2 st2 in
              match summarization_stage w results2 with
              | Raise e => (Raise e, st3)
              | Ok (results3, calls3) => save w results3 (logged calls3 st3)
              end
          end
      end
  end.

(** Lines 582-586. *)
Definition error_record (job_id : string) (e : Exn) : dict :=
  [("job_id", PStr job_id); ("status", PStr "error");
   ("error", PStr (str_of_exn e))].

(** [process_audio_file], lines 337-588: the body under the outer handler,
    whose own write is guarded once more. *)
Definition process_audio_file (w : World) (file_path job_id : string)
    (metadata : option dict) (st : State) : Res unit * State :=
  match body w file_path job_id metadata st with
  | (Ok _, st1) => (Ok tt, st1)
  | (Raise e, st1) =>
      match save w (error_record job_id e) st1 with
      | (Ok _, st2) => (Ok tt, st2)
      | (Raise _, st2) => (Ok tt, st2)
      end
  end.

End App.

(** ** Backend/audio_processing.py: cutting an audio file

    Numbers (seconds, padding) are rationals; milliseconds are integers.
    A path is the string [str(path)]. *)
Module AudioProcessing.
Import App.
Local Open Scope string_scope.

(** The exceptions of the cutting code and of the endpoints that call it:
    the ones the code raises itself, the two the interpreter raises on a
    value of the wrong type or on a division by zero, and [Failure] for an
    exception of a collaborator, with its text. *)
Inductive Error :=
| HTTPException (status_code : nat) (detail : string)
| ValueError (msg : string)
| FileNotFoundError (msg : string)
| TypeError
| ZeroDivisionError
| Failure (msg : string).

(** A computation that returns or raises. *)
Inductive Outcome (A : Type) :=
| Returns (a : A)
| Raises (e : Error).
Arguments Returns {A} a.
Arguments Raises {A} e.

Definition and_then {A B} (c : Outcome A) (k : A -> Outcome B) : Outcome B :=
  match c with
  | Returns a => k a
  | Raises e => Raises e
  end.

(** [max(a, b)] and [min(a, b)]: the first argument unless the second is
    strictly larger (smaller). *)
Definition py_max (a b : Q) : Q := if Qle_bool b a then a else b.
Definition py_min (a b : Q) : Q := if Qle_bool a b then a else b.

(** [int(x)]: truncation towards zero. *)
Definition py_int (x : Q) : Z := Z.quot (Qnum x) (Zpos (Qden x)).

(** A segment dictionary with its keys ["start"], ["end"] and ["text"]
    ([None] when the key ["text"] is absent). *)
Record Clip := mkClip {
  start : Q;
  end_ : Q;
  text : option pyval
}.

(** [segment.get('text', '')] *)
Definition text_of (segment : Clip) : pyval :=
  match text segment with
  | Some v => v
  | None => PStr ""
  end.

(** *** [merge_segments] (lines 344-386) *)

(** [sorted(segments, key=lambda x: x['start'])]: a stable sort. *)
Fixpoint insert_clip (s : Clip) (l : list Clip) : list Clip :=
  match l with
  | [] => [s]
  | x :: r =>
      if Qle_bool (start s) (start x) then s :: x :: r
      else x :: insert_clip s r
  end.

Fixpoint sorted_segments (l : list Clip) : list Clip :=
  match l with
  | [] => []
  | s :: r => insert_clip s (sorted_segments r)
  end.

(** Lines 364-368. *)
Definition padded (padding_seconds : Q) (segment : Clip) : Clip :=
  {| start := py_max 0 (start segment - padding_seconds);
     end_ := end_ segment + padding_seconds;
     text := Some (text_of segment) |}.

(** [current['text'] + ' ' + next_segment['text']] (line 378): defined on two
    strings; on any other pair of the values at hand [+] raises. *)
Definition add_text (current_text next_text : pyval) : Outcome pyval :=
  match current_text, next_text with
  | PStr a, PStr b => Returns (PStr (a ++ " " ++ b))
  | _, _ => Raises TypeError
  end.

(** Lines 374-384: the sweep over the padded segments. *)
Fixpoint merge_loop (current : Clip) (rest : list Clip)
  : Outcome (list Clip) :=
  match rest with
  | [] => Returns [current]
  | next_segment :: rest' =>
      if Qle_bool (start next_segment) (end_ current) then
        and_then (add_text (text_of current) (text_of next_segment))
          (fun joined =>
             merge_loop
               {| start := start current;
                  end_ := py_max (end_ current) (end_ next_segment);
                  text := Some joined |}
               rest')
      else
        and_then (merge_loop next_segment rest')
          (fun merged_segments => Returns (current :: merged_segments))
  end.

Definition merge_segments (segments : list Clip) (padding_seconds : Q)
  : Outcome (list Clip) :=
  match map (padded padding_seconds) (sorted_segments segments) with
  | [] => Returns []
  | current :: rest => merge_loop current rest
  end.

(** *** [trim], [trim_audio] and [trim_to_highlights] *)

(** What surrounds a cut: [os.path.exists]; the duration [ffmpeg.probe]
    reports; the [ffmpeg] run of [trim] on a range, and the output path
    [trim] has computed for it (lines 138-141); the length in milliseconds of
    the audio [AudioSegment.from_file] reads; the export of the
    concatenated pieces, and the output path computed for it (lines
    410-413). *)
Record Machine := mkMachine {
  exists_ : string -> bool;
  probe_duration : string -> Outcome Q;
  ffmpeg_run : string -> Q -> Q -> Outcome unit;
  trimmed_path : string -> string;
  audio_length : string -> Outcome Z;
  export : string -> list (Z * Z) -> Outcome unit;
  highlights_path : string -> string
}.

(** [trim], lines 120-157: the handler logs and raises again. *)
Definition trim (m : Machine) (file_path : string) (start_time end_time : Q)
  : Outcome string :=
  and_then (ffmpeg_run m file_path start_time end_time)
    (fun _ => Returns (trimmed_path m file_path)).

(** The inner [try] of [trim_audio] (lines 324-334): the end time it leaves
    behind and the exception its handler has logged, if any. *)
Definition checked_end (m : Machine) (file_path : string)
    (start_time end_time : Q) : Q * option Error :=
  match probe_duration m file_path with
  | Returns duration =>
      let end_time1 :=
        if Qltb duration end_time then duration else end_time in
      (end_time1,
       if Qle_bool end_time1 start_time
       then Some (ValueError "Start time must be less than end time")
       else None)
  | Raises e => (end_time, Some e)
  end.

(** [trim_audio], lines 301-342: the result, and what the inner handler
    logged. *)
Definition trim_audio (m : Machine) (file_path : string)
    (start_time end_time : Q) : Outcome string * option Error :=
  if negb (exists_ m file_path) then
    (Raises (FileNotFoundError ("File not found: " ++ file_path)), None)
  else
    let start_time1 := if Qltb start_time 0 then 0%Q else start_time in
    let '(end_time1, logged) :=
      checked_end m file_path start_time1 end_time in
    (trim m file_path start_time1 end_time1, logged).

(** Lines 426-435: the piece cut for one segment, unless it is skipped. *)
Definition piece (length : Z) (segment : Clip) : option (Z * Z) :=
  let start_ms := Z.max 0 (py_int (start segment * 1000)) in
  let end_ms := Z.min length (py_int (end_ segment * 1000)) in
  if (end_ms <=? start_ms)%Z then None else Some (start_ms, end_ms).

Fixpoint pieces (length : Z) (segments : list Clip) : list (Z * Z) :=
  match segments with
  | [] => []
  | segment :: rest =>
      match piece length segment with
      | Some p => p :: pieces length rest
      | None => pieces length rest
      end
  end.

(** [trim_to_highlights], lines 388-449. *)
Definition trim_to_highlights (m : Machine) (file_path : string)
    (segments : list Clip) : Outcome string :=
  match segments with
  | [] => Raises (ValueError "No segments provided for trimming")
  | first :: others =>
      if negb (exists_ m file_path) then
        Raises (FileNotFoundError ("File not found: " ++ file_path))
      else
        match others with
        | [] => fst (trim_audio m file_path (start first) (end_ first))
        | _ =>
            and_then (audio_length m file_path) (fun length =>
            and_then (export m file_path (pieces length segments)) (fun _ =>
            Returns (highlights_path m file_path)))
        end
  end.

End AudioProcessing.

(** ** Backend/youtube_downloader.py *)
Module YouTube.
Import App AudioProcessing.
Local Open Scope string_scope.

(** What [download] does on a URL (lines 92-164: validation, [yt_dlp], the
    search for the file), and [self.metadata] once it has returned ([[]]
    for [None] and for the empty dictionary, which read alike). *)
Record Tube := mkTube {
  download : string -> Outcome string;
  info : string -> dict
}.

(** [get_metadata], lines 193-219. *)
Definition get_metadata (metadata : dict) : dict :=
  match metadata with
  | [] =>
      [("title", PStr ""); ("channel", PStr ""); ("view_count", PNum 0);
       ("upload_date", PStr ""); ("duration", PNum 0);
       ("thumbnail", PStr ""); ("description", PStr "")]
  | _ =>
      [("title", get_default metadata "title" (PStr ""));
       ("channel", get_default metadata "uploader" (PStr ""));
       ("view_count", get_default metadata "view_count" (PNum 0));
       ("upload_date", get_default metadata "upload_date" (PStr ""));
       ("duration", get_default metadata "duration" (PNum 0));
       ("thumbnail", get_default metadata "thumbnail" (PStr ""));
       ("description", get_default metadata "description" (PStr ""))]
  end.

(** [download_audio], lines 221-254; [download_dir] tells whether
    [self.download_dir] is set, [str] is [str(e)]. *)
Definition download_audio (str : Error -> string) (y : Tube)
    (download_dir : bool) (url : string) : Outcome dict :=
  if negb download_dir then
    Raises (ValueError
      "No download directory specified. Either provide one during initialization or use the download method directly.")
  else
    match download y url with
    | Returns file_path =>
        let metadata := get_metadata (info y url) in
        Returns [("file_path", PStr file_path);
                 ("title", get_default metadata "title" (PStr ""));
                 ("uploader", get_default metadata "channel" (PStr ""));
                 ("duration", get_default metadata "duration" (PNum 0));
                 ("error", PNone)]
    | Raises e =>
        Returns [("error", PStr (str e)); ("file_path", PNone)]
    end.

End YouTube.

(** ** Backend/app.py: the endpoints *)
Module Endpoints.
Import App AudioProcessing.
Local Open Scope string_scope.

(** [json.load] of what [json.dump(_, default=make_serializable)] wrote: a
    [Path] comes back as its string. *)
Fixpoint loaded (v : pyval) : pyval :=
  match v with
  | PPath p => PStr p
  | PList l => PList (map loaded l)
  | PDict d => PDict (map (fun kv => (fst kv, loaded (snd kv))) d)
  | _ => v
  end.

Definition loaded_dict (d : dict) : dict :=
  map (fun kv => (fst kv, loaded (snd kv))) d.

(** [s.split(sep)] for a separator of one character; [acc] is the piece
    being read. *)
Fixpoint split_on (sep : ascii) (acc : string) (s : string) : list string :=
  match s with
  | EmptyString => [acc]
  | String c r =>
      if Ascii.eqb c sep then acc :: split_on sep "" r
      else split_on sep (acc ++ String c "") r
  end.

(** What [len] counts and [enumerate] yields on a value, [None] where they
    raise [TypeError]: the elements of a list, the keys of a dictionary, the
    characters of a string. *)
Definition items (v : pyval) : option (list pyval) :=
  match v with
  | PList l => Some l
  | PDict d => Some (map (fun kv => PStr (fst kv)) d)
  | PStr s => Some (map (fun c => PStr (String c "")) (list_ascii_of_string s))
  | _ => None
  end.

(** Lines 689-696: one segment per summary point, [segment_duration]
    apart. *)
Fixpoint spaced (segment_duration : Q) (i : nat) (points : list pyval)
  : list Clip :=
  match points with
  | [] => []
  | summary :: rest =>
      let start_time := (inject_Z (Z.of_nat i) * segment_duration)%Q in
      {| start := start_time;
         end_ := (start_time + py_min 20 segment_duration)%Q;
         text := Some summary |}
      :: spaced segment_duration (S i) rest
  end.

(** Lines 700-705: the segments of the handler. *)
Fixpoint spaced_by_30 (i : nat) (points : list pyval) : list Clip :=
  match points with
  | [] => []
  | summary :: rest =>
      {| start := inject_Z (Z.of_nat i * 30);
         end_ := inject_Z (Z.of_nat i * 30 + 15);
         text := Some summary |}
      :: spaced_by_30 (S i) rest
  end.

(** The segment dictionary as it is sent back. *)
Definition clip_dict (c : Clip) : pyval :=
  PDict [("start", PNum (start c)); ("end", PNum (end_ c));
         ("text", text_of c)].

(** A background task handed to [process_audio_file]. *)
Record Task := mkTask {
  task_file_path : string;
  task_job_id : string;
  task_metadata : option dict
}.

Section WithInterpreter.

(** [str(e)]; [UPLOAD_DIR / filename] as a string; [json.loads], [None]
    where it raises. *)
Variable str : Error -> string.
Variable in_uploads : string -> string.
Variable json_loads : string -> option pyval.

(** An endpoint answers a status code with a JSON object, or raises. *)
Definition Response := Outcome (nat * dict).

(** [get_results], lines 308-334, on the result file of the job;
    [decode_error] is what [json.load] raises on a file that holds no whole
    JSON value. *)
Definition get_results (st : State) (job_id : string) (decode_error : Error)
  : Response :=
  match file st with
  | Absent =>
      Returns (202%nat,
               [("job_id", PStr job_id); ("status", PStr "processing");
                ("message", PStr "Still processing. Please try again later.")])
  | Partial =>
      Raises (HTTPException 500
                ("Error retrieving results: " ++ str decode_error))
  | Complete content => Returns (200%nat, loaded_dict content)
  end.

(** Lines 615-618 and 658-661; [file_path.split("/")[-1]] is the text after
    the last slash. *)
Definition resolve (file_path : string) : string :=
  if Py.startswith file_path "/api/audio/"
  then in_uploads (basename file_path)
  else file_path.

(** [trim_audio], lines 604-644. *)
Definition trim_audio (m : Machine) (file_path : string)
    (start_time end_time : Q) : Response :=
  let file_path1 := resolve file_path in
  let body : Response :=
    if negb (exists_ m file_path1) then
      Raises (HTTPException 404 "File not found")
    else
      and_then
        (fst (AudioProcessing.trim_audio m file_path1 start_time end_time))
        (fun trimmed_file =>
           Returns (200%nat,
                    [("trimmed_file_url",
                      PStr ("/api/audio/" ++ basename trimmed_file));
                     ("start_time", PNum start_time);
                     ("end_time", PNum end_time)])) in
  match body with
  | Returns r => Returns r
  | Raises e =>
      Raises (HTTPException 500 ("Error trimming audio: " ++ str e))
  end.

(** Lines 670-675. *)
Definition parse_points (summary_points : string) : pyval :=
  match json_loads summary_points with
  | Some v => v
  | None => PList (map PStr (split_on "," "" summary_points))
  end.

(** Lines 679-705: the [try] raises before its loop starts or not at all,
    so the handler starts from an empty list. *)
Definition dummy_segments (m : Machine) (file_path : string)
    (summary_points_list : pyval) : Outcome (list Clip) :=
  let attempt : Outcome (list Clip) :=
    and_then (probe_duration m file_path) (fun duration =>
      match items summary_points_list with
      | None => Raises TypeError
      | Some [] => Raises ZeroDivisionError
      | Some points =>
          Returns
            (spaced (duration / inject_Z (Z.of_nat (List.length points)))
                    0 points)
      end) in
  match attempt with
  | Returns segments => Returns segments
  | Raises _ =>
      match items summary_points_list with
      | Some points => Returns (spaced_by_30 0 points)
      | None => Raises TypeError
      end
  end.

(** [trim_by_summary], lines 647-726. *)
Definition trim_by_summary (m : Machine) (file_path summary_points : string)
    (padding_seconds : Q) : Response :=
  let file_path1 := resolve file_path in
  let body : Response :=
    if negb (exists_ m file_path1) then
      Raises (HTTPException 404 "File not found")
    else
      and_then (dummy_segments m file_path1 (parse_points summary_points))
        (fun segments =>
      and_then (merge_segments segments padding_seconds)
        (fun merged_segments =>
      and_then (trim_to_highlights m file_path1 merged_segments)
        (fun trimmed_file =>
           Returns (200%nat,
                    [("trimmed_file_url",
                      PStr ("/api/audio/" ++ basename trimmed_file));
                     ("segments",
                      PList (map clip_dict merged_segments))])))) in
  match body with
  | Returns r => Returns r
  | Raises e =>
      Raises (HTTPException 500 ("Error trimming by summary: " ++ str e))
  end.

(** [process_youtube], lines 255-305: the answer and the task scheduled, if
    any.  [job_id] is the fresh identifier, [makedirs] what creating the
    download directory does, [background_tasks] whether the task list was
    supplied. *)
Definition process_youtube (y : YouTube.Tube) (exists_ : string -> bool)
    (makedirs : Outcome unit) (job_id url : string) (background_tasks : bool)
  : Response * option Task :=
  if String.eqb url "" then
    (Raises (HTTPException 400 "No YouTube URL provided"), None)
  else
    let body : Response * option Task :=
      match makedirs with
      | Raises e => (Raises e, None)
      | Returns _ =>
          match YouTube.download_audio str y true url with
          | Raises e => (Raises e, None)
          | Returns download_result =>
              if truthy_get download_result "error" then
                (Raises (HTTPException 400
                   (match get download_result "error" with
                    | Some (PStr detail) => detail
                    | _ => ""
                    end)), None)
              else
                match get download_result "file_path" with
                | Some (PStr file_path) =>
                    if String.eqb file_path "" || negb (exists_ file_path)
                    then
                      (Raises (HTTPException 500
                                 "Failed to download YouTube audio"), None)
                    else
                      (Returns (200%nat,
                                [("job_id", PStr job_id);
                                 ("status", PStr "processing");
                                 ("file_name", PStr (basename file_path))]),
                       if background_tasks then
                         Some {| task_file_path := file_path;
                                 task_job_id := job_id;
                                 task_metadata := Some
                                   [("source", PStr "youtube");
                                    ("url", PStr url);
                                    ("video_title",
                                     get_default download_result "title"
                                       (PStr ""));
                                    ("video_author",
                                     get_default download_result "uploader"
                                       (PStr ""));
                                    ("duration",
                                     get_default download_result "duration"
                                       (PNum 0))] |}
                       else None)
                | _ =>
                    (Raises (HTTPException 500
                               "Failed to download YouTube audio"), None)
                end
          end
      end in
    match body with
    | (Returns r, task) => (Returns r, task)
    | (Raises e, task) =>
        (Raises (HTTPException 500
                   ("Error processing YouTube URL: " ++ str e)), task)
    end.

End WithInterpreter.

End Endpoints.

(** ** Backend/diarization.py: the reports on a list of segments *)
Module DiarizationReports.
Import Diarization.

(** *** [get_speaker_timeline] (lines 367-392) *)

(** The dictionary returned, in insertion order: speaker, then the list of
    its [[start, end]] pairs. *)
Definition Timeline := list (string * list (Z * Z)).

(** Lines 387-390. *)
Fixpoint record_span (sp : string) (span : Z * Z) (speaker_timeline : Timeline)
  : Timeline :=
  match speaker_timeline with
  | [] => [(sp, [span])]
  | (k, spans) :: r =>
      if String.eqb k sp then (k, spans ++ [span]) :: r
      else (k, spans) :: record_span sp span r
  end.

Definition get_speaker_timeline (segments : list Segment) (duration : Q)
  : Timeline :=
  fold_left
    (fun speaker_timeline segment =>
       record_span (speaker segment) (start segment, end_ segment)
         speaker_timeline)
    segments [].

(** [speaker_timeline.get(sp)] *)
Fixpoint spans_of (sp : string) (speaker_timeline : Timeline)
  : option (list (Z * Z)) :=
  match speaker_timeline with
  | [] => None
  | (k, spans) :: r => if String.eqb k sp then Some spans else spans_of sp r
  end.

(** *** [generate_speaker_statistics] (lines 569-646) *)

(** [sorted(_)] on distinct strings. *)
Fixpoint insert_name (sp : string) (l : list string) : list string :=
  match l with
  | [] => [sp]
  | x :: r => if String.leb sp x then sp :: x :: r else x :: insert_name sp r
  end.

Definition sorted_names (l : list string) : list string :=
  fold_right insert_name [] l.

(** [sorted(speakers, key=lambda s: speaker_times[s], reverse=True)]: a
    stable sort, equal times keep the order of [speakers]. *)
Fixpoint insert_by_time (time : string -> Z) (sp : string) (l : list string)
  : list string :=
  match l with
  | [] => [sp]
  | x :: r =>
      if time x <=? time sp then sp :: x :: r
      else x :: insert_by_time time sp r
  end.

Definition sort_by_time (time : string -> Z) (l : list string) : list string :=
  fold_right (insert_by_time time) [] l.

(** Line 597. *)
Definition segment_count_of (sp : string) (segments : list Segment) : nat :=
  List.length (filter (fun s => String.eqb (speaker s) sp) segments).

(** Lines 616-619. *)
Fixpoint transitions_from (previous : string) (segments : list Segment)
  : nat :=
  match segments with
  | [] => 0
  | s :: r =>
      ((if String.eqb (speaker s) previous then 0 else 1)
       + transitions_from (speaker s) r)%nat
  end.

Definition count_transitions (segments : list Segment) : nat :=
  match segments with
  | [] => 0%nat
  | s :: r => transitions_from (speaker s) r
  end.

(** [round(x, 1)], in tenths. *)
Definition round1 (q : Q) : Z := round_half_even (q * 10).

(** [self.speaker_colors] *)
Definition speaker_colors : list string :=
  ["#4285F4"; "#EA4335"; "#FBBC05"; "#34A853"; "#FF6D01"; "#46BDC6";
   "#9900FF"; "#795548"; "#9E9E9E"; "#607D8B"; "#1DE9B6"; "#6200EA"]%string.

(** Lines 622-623, [to_hex] being matplotlib's. *)
Definition color_table (to_hex : string -> string) (speakers : list string)
  : list (string * string) :=
  combine speakers
    (map (fun i => to_hex (nth (i mod List.length speaker_colors)
                               speaker_colors ""%string))
         (seq 0 (List.length speakers))).

Fixpoint color_of (table : list (string * string)) (sp : string) : string :=
  match table with
  | [] => "#CCCCCC"%string
  | (k, c) :: r => if String.eqb k sp then c else color_of r sp
  end.

(** One entry of ["speakers"]; times in hundredths of a second, the
    percentage in tenths of a percent. *)
Record SpeakerEntry := mkSpeakerEntry {
  id : string;
  speaking_time : Z;
  percentage : Z;
  segments_spoken : nat;
  avg_segment_duration : Z;
  color : string;
  is_primary : bool
}.

Record Report := mkReport {
  total_duration : Z;
  total_speech_time : Z;
  silence_time : Z;
  silence_percentage : Z;
  speaker_count : nat;
  primary_speaker : option string;
  segment_count : nat;
  speaker_transitions : nat;
  speakers : list SpeakerEntry
}.

(** What the method does: it returns [{}], raises [ZeroDivisionError] at
    line 593, or returns the statistics. *)
Inductive StatisticsResult :=
| NoStatistics
| ZeroDivision
| Statistics (statistics : Report).

Definition generate_speaker_statistics (to_hex : string -> string)
    (segments : list Segment) (duration : Q) : StatisticsResult :=
  match segments with
  | [] => NoStatistics
  | _ =>
      if Qeq_bool duration 0 then ZeroDivision
      else
        let speakers := sorted_names (unique_speakers segments) in
        let speaker_times := fun sp => speaker_time sp segments in
        let seconds := fun t : Z => (inject_Z t / 100)%Q in
        let total_speech_time :=
          fold_right Z.add 0 (map speaker_times speakers) in
        let silence_time :=
          let rest := (duration - seconds total_speech_time)%Q in
          if Qle_bool rest 0 then 0%Q else rest in
        let sorted_speakers := sort_by_time speaker_times speakers in
        let primary_speaker := hd_error sorted_speakers in
        let table := color_table to_hex speakers in
        Statistics
          {| total_duration := round2 duration;
             total_speech_time := round2 (seconds total_speech_time);
             silence_time := round2 silence_time;
             silence_percentage :=
               if Qle_bool duration 0 then 0
               else round1 (silence_time / duration * 100);
             speaker_count := List.length speakers;
             primary_speaker := primary_speaker;
             segment_count := List.length segments;
             speaker_transitions := count_transitions segments;
             speakers :=
               map (fun sp =>
                      {| id := sp;
                         speaking_time := round2 (seconds (speaker_times sp));
                         percentage :=
                           round1 (seconds (speaker_times sp) / duration * 100);
                         segments_spoken := segment_count_of sp segments;
                         avg_segment_duration :=
                           if (0 <? segment_count_of sp segments)%nat
                           then round2 (seconds (speaker_times sp)
                                        / inject_Z (Z.of_nat
                                            (segment_count_of sp segments)))
                           else 0;
                         color := color_of table sp;
                         is_primary :=
                           match primary_speaker with
                           | Some p => String.eqb sp p
                           | None => false
                           end |})
                   sorted_speakers |}
  end.

End DiarizationReports.

(** ** Notions used to state the properties of the consolidation *)
Module DiarizationNotions.
Import Diarization.

Definition by_start (a b : Segment) : Prop := start a <= start b.

(** Two neighbours the sweep does not merge. *)
Definition apart (a b : Segment) : Prop :=
  speaker b = speaker a -> end_ a + collar < start b.

(** A segment without its confidence. *)
Definition erase (s : Segment) : Segment :=
  {| start := start s; end_ := end_ s; speaker := speaker s;
     duration := duration s; confidence := None |}.

(** A segment moved by [k] hundredths. *)
Definition shift (k : Z) (s : Segment) : Segment :=
  {| start := start s + k; end_ := end_ s + k; speaker := speaker s;
     duration := duration s; confidence := confidence s |}.

(** The global name a mapping gives a chunk-local name. *)
Definition global_name (m : Mapping) (sp : string) : string :=
  match lookup sp m with
  | Some g => g
  | None => sp
  end.

Definition rename (m : Mapping) (s : Segment) : Segment :=
  set_speaker s (global_name m (speaker s)).

(** Moved, renamed and stripped of its confidence. *)
Definition relocate (m : Mapping) (k : Z) (s : Segment) : Segment :=
  erase (rename m (shift k s)).

(** The chunk indices the loop of [_process_in_chunks] reaches. *)
Fixpoint visited (len chunk_duration : Z) (indices : list nat) : list nat :=
  match indices with
  | [] => []
  | i :: later =>
      if len <=? Z.of_nat i * chunk_duration * 1000 then []
      else i :: visited len chunk_duration later
  end.

Definition visited_chunks (run : ChunkRun) (chunk_duration : Z) : list nat :=
  visited (audio_len_ms run) chunk_duration
    (seq 0 (chunk_count run chunk_duration)).

Definition turns_of (run : ChunkRun) (i : nat) : list Turn :=
  match chunk_turns run i with
  | Some diarization => diarization
  | None => []
  end.

(** [speaker_mapping] when the loop ends. *)
Definition speaker_mapping (run : ChunkRun) (chunk_duration : Z) : Mapping :=
  snd (chunk_loop run chunk_duration
         (seq 0 (chunk_count run chunk_duration)) [] []).

(** The rounded tracks of a whole recording whose chunks carry the tracks
    [chunk_turns], each chunk at its place. *)
Definition assembled (run : ChunkRun) (chunk_duration : Z) : list Segment :=
  List.concat
    (map (fun i =>
            map (shift (Z.of_nat i * chunk_duration * 100))
                (map raw_segment (turns_of run i)))
         (visited_chunks run chunk_duration)).

(** Every track of every visited chunk starts inside the chunk. *)
Definition starts_inside (run : ChunkRun) (chunk_duration : Z) : Prop :=
  forall i, In i (visited_chunks run chunk_duration) ->
    exists diarization,
      chunk_turns run i = Some diarization /\
      Forall (fun t => 0 <= start (raw_segment t) <= chunk_duration * 100)
             diarization.

Definition extends (m M : Mapping) : Prop :=
  forall k v, lookup k m = Some v -> lookup k M = Some v.

(** The values of a mapping are [Speaker 1], [Speaker 2], ... in order. *)
Definition numbered (m : Mapping) : Prop :=
  map snd m = map speaker_name (seq 1 (List.length m)).

(** The segments of chunk [i] as [_process_diarization_results] returns
    them. *)
Definition scored (run : ChunkRun) (i : nat) : list Segment :=
  _process_diarization_results (chunk_jitter run i) (turns_of run i).

Definition in_window (D : Z) (i : nat) (s : Segment) : Prop :=
  Z.of_nat i * D * 100 <= start s <= Z.of_nat i * D * 100 + D * 100.

Definition known (M : Mapping) (s : Segment) : Prop :=
  exists g, lookup (speaker s) M = Some g.

(** [f] moves a segment by [k], renames it through [M] and drops its
    confidence. *)
Definition moves (M : Mapping) (k : Z) (f : Segment -> Segment) : Prop :=
  forall s,
    start (f s) = start s + k /\ end_ (f s) = end_ s + k /\
    speaker (f s) = global_name M (speaker s) /\
    duration (f s) = duration s /\ confidence (f s) = None.

(** A recording of 15 seconds cut at 10 seconds: [SPEAKER_01] talks first,
    [SPEAKER_00] after the cut. *)
Definition two_chunk_run : ChunkRun :=
  {| audio_len_ms := 15000;
     chunk_turns := fun i =>
       match i with
       | O => Some [mkTurn 0 10 1]
       | S O => Some [mkTurn 0 5 0]
       | _ => Some []
       end;
     chunk_jitter := fun _ _ => 0%Q |}.

Definition two_chunk_whole : list Turn := [mkTurn 0 10 1; mkTurn 10 15 0].

(** The run in which every chunk the collaborator fails on is a chunk
    without any track. *)
Definition silenced (run : ChunkRun) : ChunkRun :=
  {| audio_len_ms := audio_len_ms run;
     chunk_turns := fun i =>
       match chunk_turns run i with
       | Some diarization => Some diarization
       | None => Some []
       end;
     chunk_jitter := chunk_jitter run |}.

End DiarizationNotions.

(** ** Notions used to state the properties of the orchestrator *)
Module AppNotions.
Import Py App.
Local Open Scope string_scope.

(** A call that belongs to diarization, topic detection or summarization. *)
Definition later_stage (c : Call) : bool :=
  match c with
  | SpeakerDiarization_new | SpeakerDiarization_diarize
  | TopicDetector_new | TopicDetector_detect_topics
  | ExtractiveSummarizer_new | ExtractiveSummarizer_summarize
  | AbstractiveSummarizer_new | AbstractiveSummarizer_summarize => true
  | _ => false
  end.

(** A call to the diarizer. *)
Definition diarizer_call (c : Call) : bool :=
  match c with
  | SpeakerDiarization_new | SpeakerDiarization_diarize => true
  | _ => false
  end.

(** An error marker: a string that starts with ["Error:"]. *)
Definition error_marker (v : pyval) : Prop :=
  exists s, v = PStr s /\ startswith s "Error:" = true.

(** The three gates of the diarization stage, in the words of the
    specification: a credential is configured, there are at least 5
    transcript segments, and the largest end time is at least 10 seconds. *)
Definition gates_pass (w : World) (results : dict) : bool :=
  token_set w
  && match get results "segments" with
     | Some (PList segments) =>
         (5 <=? List.length segments)%nat
         && match total_audio_duration 0 segments with
            | Ok total => Qle_bool 10 total
            | Raise _ => false
            end
     | _ => false
     end.

(** The numeric ["end"] values of the segment dictionaries of a list. *)
Fixpoint ends (segments : list pyval) : list Q :=
  match segments with
  | [] => []
  | PDict d :: r =>
      match get d "end" with
      | Some v =>
          match as_number v with
          | Some q => q :: ends r
          | None => ends r
          end
      | None => ends r
      end
  | _ :: r => ends r
  end.

(** A segment of the diarizer as the dictionary it is in Python. *)
Definition segment_dict (s : Diarization.Segment) : pyval :=
  PDict
    ([("start", PNum (Diarization.start s # 100));
      ("end", PNum (Diarization.end_ s # 100));
      ("speaker", PStr (Diarization.speaker s));
      ("duration", PNum (Diarization.duration s # 100))]
     ++ match Diarization.confidence s with
        | Some c => [("confidence", PNum (c # 100))]
        | None => []
        end).

(** The single segment of lines 170-176 and 237-243 of diarization.py. *)
Definition unknown_speaker (error : string) : pyval :=
  PList [PDict [("start", PNum 0); ("end", PNum 100000);
                ("speaker", PStr "SPEAKER_UNKNOWN"); ("text", PStr "");
                ("error", PStr error)]].

(** What [SpeakerDiarization.diarize] hands to its caller. *)
Definition diarize_output (r : Diarization.DiarizeResult) : pyval :=
  match r with
  | Diarization.Segments l => PList (map segment_dict l)
  | Diarization.SpeakerUnknown e => unknown_speaker e
  end.

Definition is_write (c : Call) : bool :=
  match c with Write _ => true | _ => false end.

(** A call of the early stages: audio processor, metadata, transcriber. *)
Definition early_call (c : Call) : bool :=
  negb (later_stage c) && negb (is_write c).

(** The dictionary the diarizer is called with (line 460). *)
Definition transcript_data (results : dict) : pyval :=
  PDict [("segments", get_default results "segments" PNone)].

(** The state before any write. *)
Definition untouched (st : State) : Prop := opens st = 0%nat /\ file st = Absent.

(** How a run of the body can leave the file: written whole by one write,
    or not written whole, by no write or by one that failed. *)
Definition body_left (w : World) (r : Res unit * State) : Prop :=
  match fst r with
  | Ok _ =>
      opens (snd r) = 1%nat /\ open_error w 0 = None /\
      exists c, file (snd r) = Complete c
  | Raise _ =>
      untouched (snd r) \/
      opens (snd r) = 1%nat /\
      (file (snd r) = Absent /\ open_error w 0 <> None \/
       file (snd r) = Partial /\ open_error w 0 = None)
  end.

Definition quiet (calls : list Call) : Prop :=
  forallb (fun c => negb (is_write c)) calls = true.

(** The end of a run: a write, and the outer handler if it raises. *)
Definition finish (w : World) (job_id : string) (r : Res unit * State)
  : Res unit * State :=
  match r with
  | (Ok _, st1) => (Ok tt, st1)
  | (Raise e, st1) =>
      match save w (error_record job_id e) st1 with
      | (Ok _, st2) => (Ok tt, st2)
      | (Raise _, st2) => (Ok tt, st2)
      end
  end.

Definition talk : string :=
  "today we talk about the garden and the long summer that dried the soil so much that the old apple trees gave less fruit than in any year we can remember since we moved here".

Definition transcript_segment (a b : Q) (text : string) : pyval :=
  PDict [("start", PNum a); ("end", PNum b); ("text", PStr text)].

Definition five_segments : pyval :=
  PList [transcript_segment 0 (25 # 10) "today we talk about the garden";
         transcript_segment (25 # 10) 5 "and the long summer";
         transcript_segment 5 (75 # 10) "that dried the soil";
         transcript_segment (75 # 10) 10 "so much that the old apple trees";
         transcript_segment 10 (125 # 10) "gave less fruit"].

(** Every collaborator answers; the diarizer could not load its pipeline
    and answers with its [SPEAKER_UNKNOWN] segment. *)
Definition studio : World :=
  {| HF_ACCESS_TOKEN := Some "hf_token";
     new_AudioProcessor := Ok tt;
     extract_metadata := fun _ => Ok (PDict [("duration", PNum (125 # 10))]);
     new_WhisperTranscriber := Ok false;
     transcribe := fun _ =>
       Ok (PDict [("text", PStr talk); ("segments", five_segments)]);
     new_SpeakerDiarization := Ok tt;
     diarize := fun _ _ =>
       Ok (unknown_speaker
             "Diarization disabled or failed to initialize. Check HF_ACCESS_TOKEN.");
     diarization_timer_fired := false;
     new_TopicDetector := Ok tt;
     detect_topics := fun _ => Ok (PList [PDict [("name", PStr "garden")]]);
     topic_timer_fired := false;
     new_ExtractiveSummarizer := Ok tt;
     extractive_summarize := fun _ =>
       Ok (PDict [("summary", PList [PStr "The apple trees gave less fruit."])]);
     new_AbstractiveSummarizer := Ok tt;
     abstractive_summarize := fun _ =>
       Ok (PDict [("summary", PStr "A dry summer hurt the garden.")]);
     summarization_timer_fired := false;
     open_error := fun _ => None |}.

(** The studio, where the recording is silent: the transcript is empty. *)
Definition silent_studio : World :=
  {| HF_ACCESS_TOKEN := HF_ACCESS_TOKEN studio;
     new_AudioProcessor := new_AudioProcessor studio;
     extract_metadata := extract_metadata studio;
     new_WhisperTranscriber := new_WhisperTranscriber studio;
     transcribe := fun _ => Ok (PDict [("text", PStr ""); ("segments", PList [])]);
     new_SpeakerDiarization := new_SpeakerDiarization studio;
     diarize := diarize studio;
     diarization_timer_fired := false;
     new_TopicDetector := new_TopicDetector studio;
     detect_topics := detect_topics studio;
     topic_timer_fired := false;
     new_ExtractiveSummarizer := new_ExtractiveSummarizer studio;
     extractive_summarize := extractive_summarize studio;
     new_AbstractiveSummarizer := new_AbstractiveSummarizer studio;
     abstractive_summarize := abstractive_summarize studio;
     summarization_timer_fired := false;
     open_error := fun _ => None |}.

(** The studio, where the upload directory is gone: no file can be opened. *)
Definition studio_without_uploads : World :=
  {| HF_ACCESS_TOKEN := HF_ACCESS_TOKEN studio;
     new_AudioProcessor := new_AudioProcessor studio;
     extract_metadata := extract_metadata studio;
     new_WhisperTranscriber := new_WhisperTranscriber studio;
     transcribe := transcribe studio;
     new_SpeakerDiarization := new_SpeakerDiarization studio;
     diarize := diarize studio;
     diarization_timer_fired := false;
     new_TopicDetector := new_TopicDetector studio;
     detect_topics := detect_topics studio;
     topic_timer_fired := false;
     new_ExtractiveSummarizer := new_ExtractiveSummarizer studio;
     extractive_summarize := extractive_summarize studio;
     new_AbstractiveSummarizer := new_AbstractiveSummarizer studio;
     abstractive_summarize := abstractive_summarize studio;
     summarization_timer_fired := false;
     open_error := fun _ =>
       Some "[Errno 2] No such file or directory: 'uploads/job_results.json'" |}.

Definition studio_run : Res unit * State :=
  process_audio_file studio "uploads/talk.wav" "job" None initial.

Definition silent_run : Res unit * State :=
  process_audio_file silent_studio "uploads/talk.wav" "job" None initial.

Definition lost_run : Res unit * State :=
  process_audio_file studio_without_uploads "uploads/talk.wav" "job" None
    initial.

End AppNotions.

(** ** Notions used to state the properties of the summarizers *)
Module SummarizationNotions.
Import Py Summarization.
Local Open Scope string_scope.

(** A dictionary [{"summary": [...]}] with at least one point. *)
Definition points_dict (d : Dict) : Prop :=
  exists l, d = [("summary", StrList l)] /\ l <> [].

(** A dictionary [{"summary": "..."}]. *)
Definition text_dict (d : Dict) : Prop :=
  exists s, d = [("summary", Str s)].

(** Whatever the computation returns satisfies [P]. *)
Definition shaped (P : Dict -> Prop) (r : Res Dict) : Prop :=
  forall d, r = Ok d -> P d.

(** The computation returns, and what it returns satisfies [P]. *)
Definition returns (P : Dict -> Prop) (r : Res Dict) : Prop :=
  exists d, r = Ok d /\ P d.

End SummarizationNotions.

(** ** Notions and sample inputs for the cutting code *)
Module CuttingNotions.
Import App AudioProcessing.
Local Open Scope string_scope.

(** The text of a segment is a string. *)
Definition spoken (s : Clip) : Prop := exists t, text_of s = PStr t.

(** The value is a string. *)
Definition is_str (v : pyval) : Prop := exists t, v = PStr t.

(** Orders on segments: by start; the first ends before the second starts;
    the first spans the second. *)
Definition clip_by_start (a b : Clip) : Prop := (start a <= start b)%Q.
Definition clear_of (a b : Clip) : Prop := (end_ a < start b)%Q.
Definition covers (o s : Clip) : Prop :=
  (start o <= start s)%Q /\ (end_ s <= end_ o)%Q.

(** Three requested highlights, out of order, the first two closer than
    twice the padding. *)
Definition three_highlights : list Clip :=
  [ {| start := 40; end_ := 50; text := Some (PStr "c") |};
    {| start := 1; end_ := 5; text := Some (PStr "a") |};
    {| start := 8; end_ := 12; text := None |} ].

(** A file of 60 seconds at [/uploads/talk.mp3], on a machine where every
    tool works. *)
Definition desk : Machine :=
  {| exists_ := fun p => String.eqb p "/uploads/talk.mp3";
     probe_duration := fun _ => Returns 60%Q;
     ffmpeg_run := fun _ _ _ => Returns tt;
     trimmed_path := fun _ => "/uploads/talk_trimmed_20240101_120000.mp3";
     audio_length := fun _ => Returns 60000%Z;
     export := fun _ _ => Returns tt;
     highlights_path :=
       fun _ => "/uploads/talk_highlights_20240101_120000.mp3" |}.

(** A sample [str] on the exceptions, the uploads directory at [/uploads],
    and a reader of summary points that takes no text for JSON. *)
Definition say (e : Error) : string :=
  match e with
  | HTTPException _ detail => detail
  | ValueError msg | FileNotFoundError msg | Failure msg => msg
  | TypeError => "unsupported operand"
  | ZeroDivisionError => "float division by zero"
  end.

Definition uploads (filename : string) : string := "/uploads/" ++ filename.

Definition no_json (text : string) : option pyval := None.

End CuttingNotions.

(** ** Notions and sample inputs for the orchestrator's other paths and for
    the endpoints *)
Module RunNotions.
Import Py App.
Local Open Scope string_scope.

(** The keys no stage writes. *)
Definition kept_key (k : string) : Prop :=
  k = "job_id" \/ k = "status" \/ k = "error".

(** A call to the topic detector or to a summarizer. *)
Definition text_model_call (c : Call) : bool :=
  match c with
  | TopicDetector_new | TopicDetector_detect_topics
  | ExtractiveSummarizer_new | ExtractiveSummarizer_summarize
  | AbstractiveSummarizer_new | AbstractiveSummarizer_summarize => true
  | _ => false
  end.

(** The studio, where the transcriber cannot be built. *)
Definition studio_without_whisper : World :=
  {| HF_ACCESS_TOKEN := HF_ACCESS_TOKEN AppNotions.studio;
     new_AudioProcessor := new_AudioProcessor AppNotions.studio;
     extract_metadata := extract_metadata AppNotions.studio;
     new_WhisperTranscriber := Raise (Exception "No module named 'whisper'");
     transcribe := transcribe AppNotions.studio;
     new_SpeakerDiarization := new_SpeakerDiarization AppNotions.studio;
     diarize := diarize AppNotions.studio;
     diarization_timer_fired := false;
     new_TopicDetector := new_TopicDetector AppNotions.studio;
     detect_topics := detect_topics AppNotions.studio;
     topic_timer_fired := false;
     new_ExtractiveSummarizer := new_ExtractiveSummarizer AppNotions.studio;
     extractive_summarize := extractive_summarize AppNotions.studio;
     new_AbstractiveSummarizer := new_AbstractiveSummarizer AppNotions.studio;
     abstractive_summarize := abstractive_summarize AppNotions.studio;
     summarization_timer_fired := false;
     open_error := fun _ => None |}.

(** The studio, where the recording holds four words. *)
Definition brief_studio : World :=
  {| HF_ACCESS_TOKEN := HF_ACCESS_TOKEN AppNotions.studio;
     new_AudioProcessor := new_AudioProcessor AppNotions.studio;
     extract_metadata := extract_metadata AppNotions.studio;
     new_WhisperTranscriber := new_WhisperTranscriber AppNotions.studio;
     transcribe := fun _ =>
       Ok (PDict [("text", PStr "good morning to all"); ("segments", PList [])]);
     new_SpeakerDiarization := new_SpeakerDiarization AppNotions.studio;
     diarize := diarize AppNotions.studio;
     diarization_timer_fired := false;
     new_TopicDetector := new_TopicDetector AppNotions.studio;
     detect_topics := detect_topics AppNotions.studio;
     topic_timer_fired := false;
     new_ExtractiveSummarizer := new_ExtractiveSummarizer AppNotions.studio;
     extractive_summarize := extractive_summarize AppNotions.studio;
     new_AbstractiveSummarizer := new_AbstractiveSummarizer AppNotions.studio;
     abstractive_summarize := abstractive_summarize AppNotions.studio;
     summarization_timer_fired := false;
     open_error := fun _ => None |}.

End RunNotions.

Module TubeNotions.
Import App AudioProcessing YouTube.
Local Open Scope string_scope.

(** A downloader that fetches one known video and refuses the rest. *)
Definition tube : Tube :=
  {| download := fun url =>
       if String.eqb url "https://youtu.be/abcdefghijk"
       then Returns "/uploads/podcast_abcdefghijk.mp3"
       else Raises (ValueError "Invalid YouTube URL: Invalid URL format");
     info := fun _ => [("title", PStr "Garden talk"); ("duration", PNum 754)] |}.

End TubeNotions.

(** ** Notions and sample inputs for the reports *)
Module ReportNotions.
Import Diarization DiarizationReports.

(** The [[start, end]] pairs of the segments of one speaker, in order. *)
Definition spans (sp : string) (segments : list Segment) : list (Z * Z) :=
  map (fun s => (start s, end_ s))
      (filter (fun s => String.eqb (speaker s) sp) segments).

Definition sum_Z (l : list Z) : Z := fold_right Z.add 0 l.
Definition sum_nat (l : list nat) : nat := fold_right Nat.add 0%nat l.

(** A conversation of three turns between two speakers. *)
Definition three_turns : list Segment :=
  [ mkSegment 0 400 "Speaker 2" 400 (Some 60);
    mkSegment 450 700 "Speaker 1" 250 (Some 60);
    mkSegment 800 1500 "Speaker 2" 700 (Some 70) ].

End ReportNotions.

(** ** Sample libraries for the summarizers *)
Module SummaryNotions.
Import Py Summarization.
Local Open Scope string_scope.

(** Libraries without sumy and without a model: the patterns of
    [clean_transcript] match nothing and the text is one sentence. *)
Definition plain : Libraries :=
  {| Document := unit;
     SUMY_AVAILABLE := false;
     re_sub := fun _ _ text => Ok text;
     re_split := fun _ text => Ok [text];
     PlaintextParser_from_string := fun _ _ => Raise (Exception "no sumy");
     TextRankSummarizer := fun _ _ => Raise (Exception "no sumy");
     t5_generate := fun _ _ => Raise (Exception "no model") |}.

(** Twelve sentences. *)
Definition twelve_sentences : list string := repeat "It rained." 12.

End SummaryNotions.

(** * Properties of the consolidation ([Backend/diarization.py]) *)
Module DiarizationFacts.
Import Diarization DiarizationNotions.

(** ** The definitions at work *)

Example round2_ties_to_even :
  map round2 [(5 # 1000)%Q; (15 # 1000)%Q; (25 # 1000)%Q; (- (5 # 1000))%Q;
              (1234 # 1000)%Q]
  = [0; 2; 2; 0; 123].
Proof. reflexivity. Qed.

Example speaker_name_of_label :
  speaker (raw_segment (mkTurn 0 1 11)) = "Speaker 12"%string.
Proof. reflexivity. Qed.

(** Sorting comes first; a nested turn of the same speaker pulls the end
    back (line 283 assigns the end of [next]); a gap of 0.16s is kept. *)
Example merge_pass_sweep :
  let seg a b sp := mkSegment a b sp (b - a) None in
  merge_pass [seg 300 400 "B"; seg 0 100 "A"; seg 110 200 "A";
              seg 216 250 "A"; seg 50 60 "A"]%string
  = [seg 0 60 "A"; seg 110 200 "A"; seg 216 250 "A"; seg 300 400 "B"]%string.
Proof. reflexivity. Qed.

Example merge_pass_within_collar :
  let seg a b sp := mkSegment a b sp (b - a) None in
  merge_pass [seg 0 100 "A"; seg 115 200 "A"; seg 200 260 "B"]%string
  = [seg 0 200 "A"; seg 200 260 "B"]%string.
Proof. reflexivity. Qed.

(** Four speakers: the two most frequent stay, the others become the most
    frequent one. *)
Example enforce_collapses_to_top_two :
  let seg a b sp := mkSegment a b sp (b - a) None in
  map speaker
    (_enforce_two_speakers
       [seg 0 100 "A"; seg 100 200 "B"; seg 200 300 "C"; seg 300 400 "C";
        seg 400 500 "B"; seg 500 600 "D"]%string)
  = ["B"; "B"; "C"; "C"; "B"; "B"]%string.
Proof. reflexivity. Qed.

(** One speaker: the name flips after the gaps of 1s and 0.51s, not after
    the gap of 0s. *)
Example enforce_splits_at_gaps :
  let seg a b := mkSegment a b "Speaker 2" (b - a) None in
  map speaker
    (_enforce_two_speakers
       [seg 200 300; seg 0 100; seg 351 400; seg 400 500])
  = ["Speaker 2"; "Speaker 1"; "Speaker 2"; "Speaker 2"]%string.
Proof. reflexivity. Qed.

(** ** Rounding *)

Lemma round_half_even_between (q : Q) (a b : Z) :
  (inject_Z a <= q)%Q -> (q <= inject_Z b)%Q ->
  a <= round_half_even q <= b.
Proof.
  destruct q as [n d]. unfold Qle, round_half_even, inject_Z.
  cbn [Qnum Qden]. rewrite !Z.mul_1_r. intros Ha Hb.
  assert (Hd : 0 < Z.pos d) by lia.
  pose proof (Z.mod_pos_bound n (Z.pos d) Hd) as Hr.
  pose proof (Z.div_mod n (Z.pos d) ltac:(lia)) as Hn.
  assert (Hfa : a <= n / Z.pos d) by (apply Z.div_le_lower_bound; lia).
  assert (Hfb : n / Z.pos d <= b) by (apply Z.div_le_upper_bound; lia).
  assert (Htop : n / Z.pos d = b -> n mod Z.pos d = 0)
    by (intros E; rewrite E in Hn; lia).
  destruct (2 * (n mod Z.pos d) <? Z.pos d) eqn:E1; [lia|].
  apply Z.ltb_ge in E1.
  assert (n / Z.pos d < b) by lia.
  destruct (Z.pos d <? 2 * (n mod Z.pos d)); [lia|].
  destruct (Z.even (n / Z.pos d)); lia.
Qed.

Lemma round2_between (q : Q) (a b : Z) :
  (inject_Z a / 100 <= q)%Q -> (q <= inject_Z b / 100)%Q ->
  a <= round2 q <= b.
Proof.
  intros Ha Hb. unfold round2. apply round_half_even_between.
  - setoid_replace (inject_Z a) with (inject_Z a / 100 * 100)%Q by field.
    apply Qmult_le_compat_r; [assumption | discriminate].
  - setoid_replace (inject_Z b) with (inject_Z b / 100 * 100)%Q by field.
    apply Qmult_le_compat_r; [assumption | discriminate].
Qed.

(** ** Confidence *)

Lemma base_confidence_bounds (d : Z) :
  (6 # 10 <= base_confidence d)%Q /\ (base_confidence d <= 9 # 10)%Q.
Proof.
  unfold base_confidence. split.
  - apply Q.min_glb; [discriminate | apply Q.le_max_l].
  - apply Q.le_min_l.
Qed.

Lemma confidence_of_bounds (d : Z) (jitter : Q) :
  (- (1 # 10) <= jitter)%Q -> (jitter <= 1 # 10)%Q ->
  50 <= confidence_of d jitter <= 100.
Proof.
  intros Hlo Hhi. destruct (base_confidence_bounds d) as [Hb1 Hb2].
  unfold confidence_of. apply round2_between.
  - apply Qle_trans with ((6 # 10) + - (1 # 10))%Q; [discriminate|].
    apply Qplus_le_compat; assumption.
  - apply Qle_trans with ((9 # 10) + (1 # 10))%Q; [|discriminate].
    apply Qplus_le_compat; assumption.
Qed.

Lemma score_from_spec (jitter : nat -> Q) (l : list Segment) (i : nat) :
  Forall (fun s =>
            exists j, (i <= j)%nat /\
              confidence s = Some (confidence_of (duration s) (jitter j)))
         (score_from i jitter l).
Proof.
  revert i. induction l as [|s r IH]; intros i; simpl; constructor.
  - exists i. split; [lia | reflexivity].
  - eapply Forall_impl; [|apply (IH (S i))].
    intros a [j [Hj Ha]]. exists j. split; [lia | assumption].
Qed.



(** ** The merge pass *)

Lemma insert_by_start_sorted (s : Segment) (l : list Segment) :
  Sorted by_start l -> Sorted by_start (insert_by_start s l).
Proof.
  induction l as [|x r IH]; intros Hs; simpl.
  - repeat constructor.
  - destruct (start s <=? start x) eqn:E.
    + apply Z.leb_le in E. constructor; [assumption|]. constructor. exact E.
    + apply Z.leb_gt in E. inversion Hs as [|? ? Hr Hhd]; subst.
      constructor; [apply IH; assumption|].
      destruct r as [|y r']; simpl.
      * constructor. unfold by_start. lia.
      * destruct (start s <=? start y); constructor.
        -- unfold by_start. lia.
        -- inversion Hhd; assumption.
Qed.

Lemma sort_by_start_sorted (l : list Segment) :
  Sorted by_start (sort_by_start l).
Proof.
  induction l as [|s r IH]; simpl.
  - constructor.
  - apply insert_by_start_sorted. exact IH.
Qed.

(** A stable sort leaves a sorted list alone. *)
Lemma sort_by_start_fixed (l : list Segment) :
  Sorted by_start l -> sort_by_start l = l.
Proof.
  induction l as [|s r IH]; intros Hs; simpl; [reflexivity|].
  inversion Hs as [|? ? Hr Hhd]; subst. rewrite (IH Hr).
  destruct r as [|x r']; simpl; [reflexivity|].
  inversion Hhd as [|? ? Hle]; subst. unfold by_start in Hle.
  apply Z.leb_le in Hle. rewrite Hle. reflexivity.
Qed.

Lemma mergeable_true (c n : Segment) :
  mergeable c n = true <->
  speaker n = speaker c /\ start n - end_ c <= collar.
Proof.
  unfold mergeable. rewrite andb_true_iff, String.eqb_eq, Z.leb_le.
  reflexivity.
Qed.

Lemma mergeable_false (c n : Segment) :
  mergeable c n = false -> apart c n.
Proof.
  intros H Hsp. destruct (Z_le_gt_dec (start n - end_ c) collar) as [Hle|Hgt].
  - assert (mergeable c n = true) by (apply mergeable_true; auto).
    congruence.
  - lia.
Qed.

(** The first segment the sweep emits keeps the start and the speaker of
    the segment it set out with. *)
Lemma merge_from_head (rest : list Segment) (current : Segment) :
  exists h t, merge_from current rest = h :: t
              /\ start h = start current /\ speaker h = speaker current.
Proof.
  revert current. induction rest as [|n r IH]; intros c; simpl.
  - exists c, []. auto.
  - destruct (mergeable c n).
    + destruct (IH (extend c n)) as [h [t [E [H1 H2]]]].
      exists h, t. auto.
    + exists c, (merge_from n r). auto.
Qed.

Lemma merge_from_sorted (rest : list Segment) (current : Segment) :
  Sorted by_start (current :: rest) ->
  Sorted by_start (merge_from current rest).
Proof.
  revert current. induction rest as [|n r IH]; intros c Hs; simpl.
  - repeat constructor.
  - inversion Hs as [|? ? Hr Hhd]; subst.
    inversion Hhd as [|? ? Hcn]; subst. unfold by_start in Hcn.
    destruct (mergeable c n).
    + apply IH. inversion Hr as [|? ? Hr' Hhd']; subst.
      constructor; [assumption|].
      destruct r as [|y r']; constructor.
      inversion Hhd'; subst. unfold by_start in *. simpl. lia.
    + constructor; [apply IH; assumption|].
      destruct (merge_from_head r n) as [h [t [E [H1 _]]]]. rewrite E.
      constructor. unfold by_start. lia.
Qed.

Lemma merge_from_apart (rest : list Segment) (current : Segment) :
  Sorted apart (merge_from current rest).
Proof.
  revert current. induction rest as [|n r IH]; intros c; simpl.
  - repeat constructor.
  - destruct (mergeable c n) eqn:E.
    + apply IH.
    + constructor; [apply IH|].
      destruct (merge_from_head r n) as [h [t [Eh [H1 H2]]]]. rewrite Eh.
      constructor. apply mergeable_false in E. unfold apart in *.
      rewrite H1, H2. exact E.
Qed.

(** The sweep leaves alone a list in which no neighbours can be merged. *)
Lemma merge_from_fixed (rest : list Segment) (current : Segment) :
  Sorted apart (current :: rest) -> merge_from current rest = current :: rest.
Proof.
  revert current. induction rest as [|n r IH]; intros c Hs; simpl.
  - reflexivity.
  - inversion Hs as [|? ? Hr Hhd]; subst.
    inversion Hhd as [|? ? Hcn]; subst.
    destruct (mergeable c n) eqn:E.
    + apply mergeable_true in E. destruct E as [E1 E2].
      specialize (Hcn E1). lia.
    + rewrite (IH n Hr). reflexivity.
Qed.

Lemma merge_pass_sorted (l : list Segment) : Sorted by_start (merge_pass l).
Proof.
  unfold merge_pass, merge_segments.
  pose proof (sort_by_start_sorted l) as Hs.
  destruct (sort_by_start l) as [|s r]; [constructor|].
  apply merge_from_sorted. exact Hs.
Qed.

Lemma merge_pass_apart (l : list Segment) : Sorted apart (merge_pass l).
Proof.
  unfold merge_pass, merge_segments.
  destruct (sort_by_start l) as [|s r]; [constructor|].
  apply merge_from_apart.
Qed.

(** Scoring changes the confidence only. *)
Lemma score_from_sorted (R : Segment -> Segment -> Prop) jitter l i :
  (forall a b a' b',
      start a' = start a -> end_ a' = end_ a -> speaker a' = speaker a ->
      start b' = start b -> end_ b' = end_ b -> speaker b' = speaker b ->
      R a b -> R a' b') ->
  Sorted R l -> Sorted R (score_from i jitter l).
Proof.
  intros HR. revert i. induction l as [|s r IH]; intros i Hs; simpl.
  - constructor.
  - inversion Hs as [|? ? Hr Hhd]; subst. constructor; [apply IH; exact Hr|].
    destruct r as [|x r']; simpl; constructor.
    inversion Hhd as [|? ? Hsx]; subst.
    eapply HR; [| | | | | | exact Hsx]; reflexivity.
Qed.




(** ** Chunked processing against processing in one piece *)

Lemma insert_by_start_Forall (P : Segment -> Prop) s l :
  P s -> Forall P l -> Forall P (insert_by_start s l).
Proof.
  intros Hs Hl. induction Hl as [|x r Hx Hr IH]; simpl.
  - auto.
  - destruct (start s <=? start x); auto.
Qed.

Lemma sort_by_start_Forall (P : Segment -> Prop) l :
  Forall P l -> Forall P (sort_by_start l).
Proof.
  induction 1; simpl; [constructor | apply insert_by_start_Forall; assumption].
Qed.

Lemma insert_by_start_app s (X Y : list Segment) :
  Forall (fun y => start s <= start y) Y ->
  insert_by_start s (X ++ Y) = insert_by_start s X ++ Y.
Proof.
  intros HY. induction X as [|x X IH]; simpl.
  - destruct HY as [|y Y Hy HY]; simpl; [reflexivity|].
    apply Z.leb_le in Hy. rewrite Hy. reflexivity.
  - destruct (start s <=? start x); [reflexivity|]. rewrite IH. reflexivity.
Qed.

(** Sorting a list whose first part starts no later than its second part
    sorts the two parts separately. *)
Lemma sort_by_start_app (l1 l2 : list Segment) (bound : Z) :
  Forall (fun a => start a <= bound) l1 ->
  Forall (fun b => bound <= start b) l2 ->
  sort_by_start (l1 ++ l2) = sort_by_start l1 ++ sort_by_start l2.
Proof.
  intros H1 H2. induction H1 as [|a l1 Ha H1 IH]; simpl; [reflexivity|].
  rewrite IH. apply insert_by_start_app.
  apply sort_by_start_Forall. eapply Forall_impl; [|exact H2].
  simpl. intros b Hb. lia.
Qed.

Lemma insert_by_start_map (f : Segment -> Segment) s l :
  (forall a b, (start (f a) <=? start (f b)) = (start a <=? start b)) ->
  insert_by_start (f s) (map f l) = map f (insert_by_start s l).
Proof.
  intros Hf. induction l as [|x r IH]; simpl; [reflexivity|].
  rewrite Hf. destruct (start s <=? start x); simpl; [reflexivity|].
  rewrite IH. reflexivity.
Qed.

Lemma sort_by_start_map (f : Segment -> Segment) l :
  (forall a b, (start (f a) <=? start (f b)) = (start a <=? start b)) ->
  sort_by_start (map f l) = map f (sort_by_start l).
Proof.
  intros Hf. induction l as [|s r IH]; simpl; [reflexivity|].
  rewrite IH. apply insert_by_start_map. exact Hf.
Qed.

Lemma insert_by_start_In x s l :
  In x (insert_by_start s l) <-> x = s \/ In x l.
Proof.
  induction l as [|y r IH]; simpl.
  - intuition.
  - destruct (start s <=? start y); simpl; rewrite ?IH; intuition.
Qed.

Lemma sort_by_start_In x l : In x (sort_by_start l) <-> In x l.
Proof.
  induction l as [|s r IH]; simpl; [reflexivity|].
  rewrite insert_by_start_In, IH. intuition.
Qed.

(** *** The sweep over a list that was swept in parts *)

Lemma mergeable_same (c n h : Segment) :
  start h = start n -> speaker h = speaker n ->
  mergeable c h = mergeable c n.
Proof. intros H1 H2. unfold mergeable. rewrite H1, H2. reflexivity. Qed.

(** Sweeping the output of a sweep together with what precedes it. *)
Lemma merge_from_swept_tail (B : list Segment) :
  forall c n, merge_from c (merge_from n B) = merge_from c (n :: B).
Proof.
  induction B as [|b B IH]; intros c n; [reflexivity|].
  cbn [merge_from]. destruct (mergeable n b) eqn:Enb.
  - rewrite IH. cbn [merge_from].
    rewrite (mergeable_same c n (extend n b)) by reflexivity.
    destruct (mergeable c n) eqn:Ecn; [|reflexivity].
    apply mergeable_true in Ecn. destruct Ecn as [Es _].
    assert (Em : mergeable (extend c n) b = true).
    { apply mergeable_true in Enb. apply mergeable_true. simpl.
      destruct Enb. split; [congruence | assumption]. }
    rewrite Em. reflexivity.
  - cbn [merge_from].
    destruct (mergeable c n); rewrite IH; cbn [merge_from]; rewrite ?Enb;
      reflexivity.
Qed.

Lemma merge_from_app_swept (A : list Segment) :
  forall c n B,
    merge_from c (A ++ merge_from n B) = merge_from c (A ++ n :: B).
Proof.
  induction A as [|a A IH]; intros c n B; simpl.
  - apply merge_from_swept_tail.
  - destruct (mergeable c a); rewrite IH; reflexivity.
Qed.

Lemma merge_segments_app_swept (A B : list Segment) :
  merge_segments (A ++ merge_segments B) = merge_segments (A ++ B).
Proof.
  destruct B as [|n B]; [reflexivity|]. simpl.
  destruct A as [|a A]; simpl.
  - destruct (merge_from_head B n) as [h [t [E _]]]. rewrite E.
    rewrite <- E. pose proof (merge_from_apart B n) as Ha. rewrite E in *.
    apply merge_from_fixed. exact Ha.
  - apply merge_from_app_swept.
Qed.

Lemma merge_from_swept_front (A : list Segment) :
  forall c B,
    merge_segments (merge_from c A ++ B) = merge_from c (A ++ B).
Proof.
  induction A as [|a A IH]; intros c B; [reflexivity|].
  cbn [merge_from app]. destruct (mergeable c a) eqn:E.
  - apply IH.
  - cbn [merge_segments app].
    destruct (merge_from_head A a) as [h [t [Eh [H1 H2]]]].
    rewrite Eh. cbn [merge_from app].
    rewrite (mergeable_same c a h H1 H2), E.
    f_equal. rewrite <- (IH a B), Eh. reflexivity.
Qed.

Lemma merge_segments_swept_front (A B : list Segment) :
  merge_segments (merge_segments A ++ B) = merge_segments (A ++ B).
Proof.
  destruct A as [|a A]; [reflexivity|]. apply merge_from_swept_front.
Qed.

(** Sweeping the concatenation of swept lists is sweeping the
    concatenation of the lists. *)
Lemma merge_segments_concat_swept (Ls : list (list Segment)) :
  merge_segments (List.concat (map merge_segments Ls))
  = merge_segments (List.concat Ls).
Proof.
  induction Ls as [|L Ls IH]; [reflexivity|]. simpl.
  rewrite <- merge_segments_app_swept, IH, merge_segments_app_swept.
  apply merge_segments_swept_front.
Qed.

(** *** The sweep under a change of the segments *)

Lemma merge_from_commute (f : Segment -> Segment) (P : Segment -> Prop) :
  (forall c n, P c -> P n -> mergeable (f c) (f n) = mergeable c n) ->
  (forall c n, P c -> P n -> f (extend c n) = extend (f c) (f n)) ->
  (forall c n, P c -> P n -> P (extend c n)) ->
  forall l c, P c -> Forall P l ->
    map f (merge_from c l) = merge_from (f c) (map f l).
Proof.
  intros Hm He Hp l. induction l as [|n r IH]; intros c Hc Hl; simpl.
  - reflexivity.
  - inversion Hl as [|? ? Hn Hr]; subst. rewrite (Hm c n Hc Hn).
    destruct (mergeable c n).
    + rewrite (IH (extend c n)); auto. rewrite He; auto.
    + simpl. rewrite IH; auto.
Qed.

Lemma merge_segments_commute (f : Segment -> Segment) (P : Segment -> Prop) :
  (forall c n, P c -> P n -> mergeable (f c) (f n) = mergeable c n) ->
  (forall c n, P c -> P n -> f (extend c n) = extend (f c) (f n)) ->
  (forall c n, P c -> P n -> P (extend c n)) ->
  forall l, Forall P l ->
    map f (merge_segments l) = merge_segments (map f l).
Proof.
  intros Hm He Hp [|c l] Hl; [reflexivity|]. simpl.
  inversion Hl; subst. apply (merge_from_commute f P); assumption.
Qed.

Lemma merge_from_Forall (P : Segment -> Prop) :
  (forall c n, P c -> P n -> P (extend c n)) ->
  forall l c, P c -> Forall P l -> Forall P (merge_from c l).
Proof.
  intros Hp l. induction l as [|n r IH]; intros c Hc Hl; simpl.
  - auto.
  - inversion Hl; subst. destruct (mergeable c n); auto.
Qed.

Lemma merge_pass_Forall (P : Segment -> Prop) l :
  (forall c n, P c -> P n -> P (extend c n)) ->
  Forall P l -> Forall P (merge_pass l).
Proof.
  intros Hp Hl. unfold merge_pass, merge_segments.
  pose proof (sort_by_start_Forall P l Hl) as Hs.
  destruct (sort_by_start l); [constructor|].
  inversion Hs; subst. apply merge_from_Forall; assumption.
Qed.

(** Every speaker of the input of the sweep is a speaker of its output. *)
Lemma merge_from_speakers l :
  forall c s, In s (c :: l) ->
    exists s', In s' (merge_from c l) /\ speaker s' = speaker s.
Proof.
  induction l as [|n r IH]; intros c s Hin.
  - simpl in *. destruct Hin as [<-|[]]. eauto.
  - cbn [merge_from]. destruct (mergeable c n) eqn:E.
    + apply mergeable_true in E. destruct E as [E _].
      destruct Hin as [<-|[<-|Hin]].
      * apply (IH (extend c n) (extend c n)). left. reflexivity.
      * destruct (IH (extend c n) (extend c n)) as [s' [H1 H2]];
          [left; reflexivity|].
        exists s'. split; [assumption|]. rewrite H2. simpl. congruence.
      * apply (IH (extend c n) s). right. assumption.
    + destruct Hin as [<-|Hin].
      * exists c. split; [left|]; reflexivity.
      * destruct (IH n s Hin) as [s' [H1 H2]].
        exists s'. split; [right|]; assumption.
Qed.

Lemma merge_pass_speakers l s :
  In s l -> exists s', In s' (merge_pass l) /\ speaker s' = speaker s.
Proof.
  intros Hin. apply sort_by_start_In in Hin. unfold merge_pass, merge_segments.
  destruct (sort_by_start l) as [|c r]; [destruct Hin|].
  apply merge_from_speakers. exact Hin.
Qed.

Lemma score_from_erase jitter l : forall i,
  map erase (score_from i jitter l) = map erase l.
Proof.
  induction l as [|s r IH]; intros i; simpl; [reflexivity|].
  rewrite IH. reflexivity.
Qed.

Lemma score_from_map (f : Segment -> Segment) jitter l :
  (forall a b, start a = start b -> end_ a = end_ b ->
               speaker a = speaker b -> duration a = duration b ->
               f a = f b) ->
  forall i, map f (score_from i jitter l) = map f l.
Proof.
  intros Hf. induction l as [|s r IH]; intros i; simpl; [reflexivity|].
  rewrite IH. f_equal. apply Hf; reflexivity.
Qed.

Lemma score_from_speakers jitter l : forall i,
  map speaker (score_from i jitter l) = map speaker l.
Proof.
  induction l as [|s r IH]; intros i; simpl; [reflexivity|].
  rewrite IH. reflexivity.
Qed.

(** *** The speaker mapping *)

Lemma lookup_app k (m m' : Mapping) :
  lookup k (m ++ m') =
  match lookup k m with Some v => Some v | None => lookup k m' end.
Proof.
  induction m as [|[k' v] m IH]; simpl; [reflexivity|].
  destruct (String.eqb k' k); [reflexivity | exact IH].
Qed.

Lemma lookup_In k v (m : Mapping) : lookup k m = Some v -> In (k, v) m.
Proof.
  induction m as [|[k' v'] m IH]; simpl; [discriminate|].
  destruct (String.eqb k' k) eqn:E.
  - apply String.eqb_eq in E. intros [= <-]. left. congruence.
  - intros H. right. auto.
Qed.

Lemma remember_extends sp m : extends m (remember sp m).
Proof.
  unfold remember, extends. intros k v H.
  destruct (lookup sp m); [assumption|].
  rewrite lookup_app, H. reflexivity.
Qed.

Lemma remember_lookup sp m : exists g, lookup sp (remember sp m) = Some g.
Proof.
  unfold remember. destruct (lookup sp m) eqn:E; [eauto|].
  rewrite lookup_app, E. simpl. rewrite String.eqb_refl. eauto.
Qed.

Lemma remember_numbered sp m : numbered m -> numbered (remember sp m).
Proof.
  unfold remember, numbered. intros H. destruct (lookup sp m); [assumption|].
  rewrite map_app, length_app, H. simpl.
  rewrite Nat.add_1_r at 2. rewrite seq_S, map_app. simpl.
  rewrite Nat.add_1_r. reflexivity.
Qed.

Lemma str_of_nat_inj n n' : str_of_nat n = str_of_nat n' -> n = n'.
Proof.
  unfold str_of_nat. intros H.
  assert (E : NilEmpty.uint_of_string (NilEmpty.string_of_uint (Nat.to_uint n))
              = NilEmpty.uint_of_string
                  (NilEmpty.string_of_uint (Nat.to_uint n')))
    by (rewrite H; reflexivity).
  rewrite !NilEmpty.usu in E. injection E as E.
  apply (f_equal Nat.of_uint) in E.
  rewrite !DecimalNat.Unsigned.of_to in E. exact E.
Qed.

Lemma speaker_name_inj n n' : speaker_name n = speaker_name n' -> n = n'.
Proof.
  unfold speaker_name. simpl. intros H. injection H as H.
  apply str_of_nat_inj. exact H.
Qed.

Lemma numbered_NoDup m : numbered m -> NoDup (map snd m).
Proof.
  unfold numbered. intros ->.
  apply Injective_map_NoDup; [|apply seq_NoDup].
  intros a b. apply speaker_name_inj.
Qed.

Lemma NoDup_snd_inj (m : Mapping) k k' v :
  NoDup (map snd m) -> In (k, v) m -> In (k', v) m -> k = k'.
Proof.
  induction m as [|[a b] m IH]; simpl; [intros _ []|].
  intros Hnd H1 H2. inversion Hnd as [|? ? Hn Hnd']; subst.
  destruct H1 as [H1|H1], H2 as [H2|H2].
  - congruence.
  - injection H1 as -> ->. exfalso. apply Hn.
    apply (in_map snd) in H2. exact H2.
  - injection H2 as -> ->. exfalso. apply Hn.
    apply (in_map snd) in H1. exact H1.
  - auto.
Qed.

(** Two chunk-local names with the same global name are the same name. *)
Lemma numbered_inj m k k' v :
  numbered m -> lookup k m = Some v -> lookup k' m = Some v -> k = k'.
Proof.
  intros Hn H1 H2. apply (NoDup_snd_inj m k k' v).
  - apply numbered_NoDup. exact Hn.
  - apply lookup_In. exact H1.
  - apply lookup_In. exact H2.
Qed.

Lemma extends_refl m : extends m m.
Proof. intros k v H. exact H. Qed.

Lemma extends_trans m1 m2 m3 : extends m1 m2 -> extends m2 m3 -> extends m1 m3.
Proof. intros H1 H2 k v H. auto. Qed.

(** What lines 450-460 do to the segments of one chunk, told with the
    mapping as it stands at any later time. *)
Lemma adjust_all_spec k l : forall m,
  extends m (snd (adjust_all k m l)) /\
  (numbered m -> numbered (snd (adjust_all k m l))) /\
  (forall s, In s l ->
     exists g, lookup (speaker s) (snd (adjust_all k m l)) = Some g) /\
  (forall M, extends (snd (adjust_all k m l)) M ->
     fst (adjust_all k m l) = map (fun s => rename M (shift k s)) l).
Proof.
  induction l as [|s r IH]; intros m.
  - simpl. repeat split; auto using extends_refl. intros s [].
  - cbn [adjust_all adjust].
    specialize (IH (remember (speaker s) m)).
    destruct (adjust_all k (remember (speaker s) m) r) as [r' m2] eqn:E.
    cbn [fst snd] in *. destruct IH as [IH1 [IH2 [IH3 IH4]]].
    pose proof (remember_extends (speaker s) m) as Hext.
    destruct (remember_lookup (speaker s) m) as [g Hg].
    repeat split.
    + eapply extends_trans; eassumption.
    + intros Hn. apply IH2. apply remember_numbered. exact Hn.
    + intros x [<-|Hx]; [exists g; apply IH1; exact Hg | apply IH3; exact Hx].
    + intros M HM. simpl. rewrite (IH4 M HM). f_equal.
      unfold rename, shift, set_speaker, global_name. cbn [speaker].
      rewrite Hg, (HM _ _ (IH1 _ _ Hg)). reflexivity.
Qed.

Lemma chunk_loop_spec run D : forall indices acc m,
  (forall i, In i (visited (audio_len_ms run) D indices) ->
     chunk_turns run i <> None) ->
  extends m (snd (chunk_loop run D indices acc m)) /\
  (numbered m -> numbered (snd (chunk_loop run D indices acc m))) /\
  (forall i s, In i (visited (audio_len_ms run) D indices) ->
     In s (scored run i) ->
     exists g,
       lookup (speaker s) (snd (chunk_loop run D indices acc m)) = Some g) /\
  (forall M, extends (snd (chunk_loop run D indices acc m)) M ->
     fst (chunk_loop run D indices acc m)
     = acc ++ List.concat
         (map (fun i => map (fun s => rename M (shift (Z.of_nat i * D * 100) s))
                            (scored run i))
              (visited (audio_len_ms run) D indices))).
Proof.
  induction indices as [|i later IH]; intros acc m Hok.
  - simpl. rewrite app_nil_r.
    repeat split; auto using extends_refl. intros i s [].
  - cbn [chunk_loop visited] in *.
    destruct (audio_len_ms run <=? Z.of_nat i * D * 1000).
    + simpl. rewrite app_nil_r.
      repeat split; auto using extends_refl. intros j s [].
    + assert (Hi : chunk_turns run i <> None) by (apply Hok; left; reflexivity).
      assert (Hs : scored run i
                   = _process_diarization_results (chunk_jitter run i)
                       (match chunk_turns run i with
                        | Some t => t | None => [] end)) by reflexivity.
      destruct (chunk_turns run i) as [t|] eqn:Et; [|congruence].
      rewrite Z.div_mul by lia.
      pose proof (adjust_all_spec (Z.of_nat i * D * 100)
                    (_process_diarization_results (chunk_jitter run i) t) m)
        as [A1 [A2 [A3 A4]]].
      destruct (adjust_all (Z.of_nat i * D * 100) m
                  (_process_diarization_results (chunk_jitter run i) t))
        as [adjusted m'] eqn:Ea.
      cbn [fst snd] in *.
      specialize (IH (acc ++ adjusted) m'
                     (fun j Hj => Hok j (or_intror Hj))).
      destruct IH as [I1 [I2 [I3 I4]]].
      repeat split.
      * eapply extends_trans; eassumption.
      * auto.
      * intros j s [<-|Hj] Hin.
        -- rewrite Hs in Hin. destruct (A3 s Hin) as [g Hg].
           exists g. apply I1. exact Hg.
        -- exact (I3 j s Hj Hin).
      * intros M HM. rewrite (I4 M HM), <- app_assoc. f_equal.
        cbn [map List.concat]. f_equal.
        rewrite Hs. apply A4. eapply extends_trans; eassumption.
Qed.

(** *** Chunks in their windows *)

Lemma seq_StronglySorted n : forall a, StronglySorted lt (seq a n).
Proof.
  induction n as [|n IH]; intros a; simpl; constructor.
  - apply IH.
  - apply Forall_forall. intros x Hx. apply in_seq in Hx. lia.
Qed.

Lemma visited_In len D indices i :
  In i (visited len D indices) -> In i indices.
Proof.
  induction indices as [|j r IH]; simpl; [auto|].
  destruct (len <=? Z.of_nat j * D * 1000); simpl; [intros []|].
  intros [H|H]; auto.
Qed.

Lemma visited_StronglySorted len D indices :
  StronglySorted lt indices -> StronglySorted lt (visited len D indices).
Proof.
  induction 1 as [|j r Hr IH Hj]; simpl; [constructor|].
  destruct (len <=? Z.of_nat j * D * 1000); constructor; [exact IH|].
  apply Forall_forall. intros x Hx. apply visited_In in Hx.
  rewrite Forall_forall in Hj. auto.
Qed.

Lemma sort_concat_windows (D : Z) (Q : nat -> list Segment) indices :
  0 <= D -> StronglySorted lt indices ->
  (forall i, In i indices -> Forall (in_window D i) (Q i)) ->
  sort_by_start (List.concat (map Q indices))
  = List.concat (map (fun i => sort_by_start (Q i)) indices).
Proof.
  intros HD Hs. induction Hs as [|i r Hr IH Hi]; intros HQ;
    [reflexivity|]. cbn [map List.concat].
  rewrite (sort_by_start_app _ _ (Z.of_nat i * D * 100 + D * 100)).
  - rewrite IH; [reflexivity|]. intros j Hj. apply HQ. right. exact Hj.
  - eapply Forall_impl; [|apply (HQ i); left; reflexivity].
    unfold in_window. intros s Hsw. lia.
  - apply Forall_concat. apply Forall_forall. intros L HL.
    apply in_map_iff in HL. destruct HL as [j [<- Hj]].
    rewrite Forall_forall in Hi. specialize (Hi j Hj).
    eapply Forall_impl; [|apply (HQ j); right; exact Hj].
    unfold in_window. intros s Hsw. nia.
Qed.

(** *** Moving and renaming commute with the merge pass *)

Lemma segment_eq (a b : Segment) :
  start a = start b -> end_ a = end_ b -> speaker a = speaker b ->
  duration a = duration b -> confidence a = confidence b -> a = b.
Proof. destruct a, b; simpl; congruence. Qed.

Lemma relocate_moves M k : moves M k (relocate M k).
Proof. intros s. repeat split. Qed.

Lemma rename_moves M : moves M 0 (fun s => erase (rename M s)).
Proof. intros s. simpl. repeat split; lia. Qed.

Lemma global_name_inj M a b :
  numbered M ->
  (exists g, lookup a M = Some g) -> (exists g, lookup b M = Some g) ->
  global_name M a = global_name M b -> a = b.
Proof.
  unfold global_name. intros Hn [ga Ha] [gb Hb]. rewrite Ha, Hb.
  intros <-. apply (numbered_inj M a b ga); assumption.
Qed.

Lemma merge_pass_moves M k f l :
  moves M k f -> numbered M -> Forall (known M) l ->
  map f (merge_pass l) = merge_pass (map f l).
Proof.
  intros Hf Hn Hl. unfold merge_pass.
  rewrite (sort_by_start_map f).
  - apply (merge_segments_commute f (known M)).
    + intros c n Hc Hk. unfold mergeable.
      destruct (Hf c) as [c1 [c2 [c3 _]]]. destruct (Hf n) as [n1 [n2 [n3 _]]].
      rewrite c2, c3, n1, n3.
      replace (start n + k - (end_ c + k)) with (start n - end_ c) by lia.
      f_equal. destruct (String.eqb (speaker n) (speaker c)) eqn:E.
      * apply String.eqb_eq in E. rewrite E. apply String.eqb_refl.
      * apply String.eqb_neq. intros H. apply String.eqb_neq in E. apply E.
        apply (global_name_inj M); assumption.
    + intros c n Hc Hk.
      destruct (Hf c) as [c1 [c2 [c3 [c4 c5]]]].
      destruct (Hf n) as [n1 [n2 [n3 [n4 n5]]]].
      destruct (Hf (extend c n)) as [e1 [e2 [e3 [e4 e5]]]].
      apply segment_eq; simpl in *; try congruence; lia.
    + intros c n Hc Hk. exact Hc.
    + apply sort_by_start_Forall. exact Hl.
  - intros a b. destruct (Hf a) as [-> _]. destruct (Hf b) as [-> _].
    destruct (start a <=? start b) eqn:E.
    + apply Z.leb_le in E. apply Z.leb_le. lia.
    + apply Z.leb_gt in E. apply Z.leb_gt. lia.
Qed.

Lemma merge_pass_erase l : map erase (merge_pass l) = merge_pass (map erase l).
Proof.
  unfold merge_pass. rewrite (sort_by_start_map erase) by reflexivity.
  apply (merge_segments_commute erase (fun _ => True)); auto.
  apply Forall_forall. auto.
Qed.

(** *** Speaking time *)

Lemma speaker_time_erase sp l : speaker_time sp (map erase l) = speaker_time sp l.
Proof. induction l as [|s r IH]; simpl; [reflexivity | rewrite IH; reflexivity]. Qed.

Lemma speaker_time_renamed M f k sp l :
  moves M k f -> numbered M ->
  (exists g, lookup sp M = Some g) -> Forall (known M) l ->
  speaker_time (global_name M sp) (map f l) = speaker_time sp l.
Proof.
  intros Hf Hn Hsp Hl. induction Hl as [|s r Hs Hr IH]; [reflexivity|].
  simpl. rewrite IH. f_equal.
  destruct (Hf s) as [_ [_ [-> [-> _]]]].
  destruct (String.eqb (speaker s) sp) eqn:E.
  - apply String.eqb_eq in E. rewrite E, String.eqb_refl. reflexivity.
  - apply String.eqb_neq in E.
    destruct (String.eqb (global_name M (speaker s)) (global_name M sp)) eqn:E';
      [|reflexivity].
    apply String.eqb_eq in E'. exfalso. apply E.
    apply (global_name_inj M); assumption.
Qed.

(** *** Chunked against unchunked *)

Lemma in_window_extend D i c n :
  in_window D i c -> in_window D i n -> in_window D i (extend c n).
Proof. unfold in_window. simpl. auto. Qed.

(** Merging chunk by chunk and then across the chunks is merging the whole,
    when every chunk's segments start inside the chunk. *)
Lemma merge_pass_by_chunks (D : Z) (Q : nat -> list Segment) indices :
  0 <= D -> StronglySorted lt indices ->
  (forall i, In i indices -> Forall (in_window D i) (Q i)) ->
  merge_pass (List.concat (map (fun i => merge_pass (Q i)) indices))
  = merge_pass (List.concat (map Q indices)).
Proof.
  intros HD Hs HQ. unfold merge_pass at 1.
  rewrite (sort_concat_windows D (fun i => merge_pass (Q i))); try assumption.
  - rewrite (map_ext_in _ (fun i => merge_segments (sort_by_start (Q i)))).
    + rewrite <- (map_map (fun i => sort_by_start (Q i)) merge_segments).
      rewrite merge_segments_concat_swept.
      unfold merge_pass. rewrite (sort_concat_windows D Q); auto.
    + intros i _. apply sort_by_start_fixed. apply merge_pass_sorted.
  - intros i Hi. apply merge_pass_Forall.
    + apply in_window_extend.
    + apply HQ. exact Hi.
Qed.

Lemma process_in_chunks_unfold run D :
  _process_in_chunks run D
  = merge_pass (fst (chunk_loop run D (seq 0 (chunk_count run D)) [] [])).
Proof.
  unfold _process_in_chunks.
  destruct (chunk_loop run D (seq 0 (chunk_count run D)) [] []).
  reflexivity.
Qed.

Section ChunkedRun.
Variable run : ChunkRun.
Variable D : Z.
Hypothesis D_pos : 0 < D.
Hypothesis inside : starts_inside run D.

Let m := speaker_mapping run D.
Let vis := visited_chunks run D.
Let R (i : nat) : list Segment := map raw_segment (turns_of run i).
Let k (i : nat) : Z := Z.of_nat i * D * 100.

Lemma visited_ok i : In i vis -> chunk_turns run i <> None.
Proof.
  intros Hi. destruct (inside i Hi) as [t [Ht _]]. congruence.
Qed.

Lemma mapping_numbered : numbered m.
Proof.
  destruct (chunk_loop_spec run D (seq 0 (chunk_count run D)) [] []
              visited_ok) as [_ [S2 _]].
  apply S2. reflexivity.
Qed.

Lemma raw_known i : In i vis -> Forall (known m) (R i).
Proof.
  intros Hi. apply Forall_forall. intros s Hs.
  destruct (chunk_loop_spec run D (seq 0 (chunk_count run D)) [] []
              visited_ok) as [_ [_ [S3 _]]].
  destruct (merge_pass_speakers (R i) s Hs) as [s' [Hs' E]].
  assert (Hin : In (speaker s') (map speaker (scored run i))).
  { unfold scored, _process_diarization_results.
    rewrite score_from_speakers. apply in_map. exact Hs'. }
  apply in_map_iff in Hin. destruct Hin as [s'' [E' Hs'']].
  destruct (S3 i s'' Hi Hs'') as [g Hg].
  exists g. unfold m, speaker_mapping. rewrite <- E, <- E'. exact Hg.
Qed.

Lemma raw_in_window i : In i vis -> Forall (in_window D i) (map (relocate m (k i)) (R i)).
Proof.
  intros Hi. destruct (inside i Hi) as [t [Ht Hb]].
  unfold R, turns_of. rewrite Ht. rewrite !Forall_map.
  eapply Forall_impl; [|exact Hb]. intros a Ha.
  unfold in_window, k. simpl in *. lia.
Qed.

Lemma chunked_erased :
  map erase (_process_in_chunks run D)
  = merge_pass (List.concat (map (fun i => map (relocate m (k i)) (R i)) vis)).
Proof.
  rewrite process_in_chunks_unfold, merge_pass_erase.
  destruct (chunk_loop_spec run D (seq 0 (chunk_count run D)) [] []
              visited_ok) as [_ [_ [_ S4]]].
  rewrite (S4 m (extends_refl _)). cbn [app].
  rewrite concat_map, map_map.
  rewrite <- (merge_pass_by_chunks D
                (fun i => map (relocate m (k i)) (R i)) vis).
  - f_equal. f_equal. apply map_ext_in. intros i Hi.
    unfold scored, _process_diarization_results.
    rewrite map_map.
    change (fun x => erase (rename m (shift (Z.of_nat i * D * 100) x)))
      with (relocate m (k i)).
    rewrite (score_from_map (relocate m (k i))) by
      (intros a b H1 H2 H3 H4; apply segment_eq; simpl; congruence).
    apply (merge_pass_moves m (k i)).
    + apply relocate_moves.
    + apply mapping_numbered.
    + apply raw_known. exact Hi.
  - lia.
  - apply visited_StronglySorted. apply seq_StronglySorted.
  - apply raw_in_window.
Qed.

Lemma unchunked_renamed jitter whole :
  map raw_segment whole = assembled run D ->
  map (fun s => erase (rename m s)) (_process_diarization_results jitter whole)
  = merge_pass (List.concat (map (fun i => map (relocate m (k i)) (R i)) vis))
  /\ Forall (known m) (_process_diarization_results jitter whole).
Proof.
  intros Hw.
  assert (Hk : Forall (known m) (map raw_segment whole)).
  { rewrite Hw. unfold assembled. apply Forall_concat.
    apply Forall_forall. intros L HL. apply in_map_iff in HL.
    destruct HL as [i [<- Hi]]. rewrite Forall_map.
    eapply Forall_impl; [|apply (raw_known i Hi)]. auto. }
  unfold _process_diarization_results. split.
  - rewrite (score_from_map (fun s => erase (rename m s))) by
      (intros a b H1 H2 H3 H4; apply segment_eq; simpl; congruence).
    rewrite (merge_pass_moves m 0 _ _ (rename_moves m) mapping_numbered Hk).
    rewrite Hw. unfold assembled. rewrite concat_map, map_map.
    f_equal. f_equal. apply map_ext. intros i. rewrite map_map. reflexivity.
  - apply Forall_forall. intros s Hs.
    assert (Hin : In (speaker s)
                     (map speaker (merge_pass (map raw_segment whole)))).
    { rewrite <- (score_from_speakers jitter _ 0). apply in_map. exact Hs. }
    apply in_map_iff in Hin. destruct Hin as [s' [E Hs']].
    pose proof (merge_pass_Forall (known m) _ (fun c n Hc _ => Hc) Hk) as Hf.
    rewrite Forall_forall in Hf. specialize (Hf s' Hs').
    unfold known in *. rewrite <- E. exact Hf.
Qed.

End ChunkedRun.


Lemma two_chunk_run_inside : starts_inside two_chunk_run 10.
Proof.
  intros i Hi. vm_compute in Hi.
  destruct Hi as [<-|[<-|[]]]; eexists; (split; [reflexivity|]);
    repeat constructor; vm_compute; discriminate.
Defined.



(** ** [_enforce_two_speakers] *)

(** In the single-speaker branch the label changes exactly at the gaps
    above half a second. *)
Lemma alternate_flips (speaker1 speaker2 : string) (l : list Segment) :
  speaker1 <> speaker2 ->
  forall current,
    current = speaker1 \/ current = speaker2 ->
    Sorted (fun a b =>
              if 50 <? start b - end_ a
              then speaker b <> speaker a else speaker b = speaker a)
           (alternate speaker1 speaker2 current l).
Proof.
  intros Hne. induction l as [|s r IH]; intros current Hc; simpl.
  - constructor.
  - constructor.
    + apply IH. destruct r as [|n r']; [exact Hc|].
      destruct (50 <? start n - end_ s); [|exact Hc].
      destruct (String.eqb current speaker1); auto.
    + destruct r as [|n r']; simpl; constructor. simpl.
      destruct (50 <? start n - end_ s); [|reflexivity].
      destruct (String.eqb current speaker1) eqn:E.
      * apply String.eqb_eq in E. congruence.
      * apply String.eqb_neq in E. destruct Hc; congruence.
Qed.

Lemma bump_keys_In sp counts k :
  In k (map fst (bump sp counts)) <-> k = sp \/ In k (map fst counts).
Proof.
  induction counts as [|[a n] r IH]; simpl.
  - intuition.
  - destruct (String.eqb a sp) eqn:E; simpl.
    + apply String.eqb_eq in E. subst a. intuition.
    + rewrite IH. intuition.
Qed.

Lemma bump_keys_NoDup sp counts :
  NoDup (map fst counts) -> NoDup (map fst (bump sp counts)).
Proof.
  induction counts as [|[a n] r IH]; simpl; intros H.
  - repeat constructor. intros [].
  - inversion H as [|? ? Hn Hr]; subst.
    destruct (String.eqb a sp) eqn:E; simpl.
    + constructor; assumption.
    + constructor; [|auto]. rewrite bump_keys_In. intros [->|Hin].
      * rewrite String.eqb_refl in E. discriminate.
      * contradiction.
Qed.

Lemma speaker_counts_keys segments : forall counts,
  NoDup (map fst counts) ->
  NoDup (map fst (fold_left (fun c s => bump (speaker s) c) segments counts))
  /\ forall k,
       In k (map fst (fold_left (fun c s => bump (speaker s) c)
                        segments counts))
       <-> In k (map fst counts) \/ In k (map speaker segments).
Proof.
  induction segments as [|s r IH]; intros counts H; simpl.
  - split; [exact H | intuition].
  - destruct (IH (bump (speaker s) counts) (bump_keys_NoDup _ _ H))
      as [H1 H2].
    split; [exact H1|]. intros k. rewrite H2, bump_keys_In. intuition.
Qed.

Lemma insert_by_count_perm x l : Permutation (insert_by_count x l) (x :: l).
Proof.
  induction l as [|y r IH]; simpl; [reflexivity|].
  destruct (snd y <=? snd x)%nat; [reflexivity|].
  rewrite IH. apply perm_swap.
Qed.

Lemma sort_by_count_perm l : Permutation (sort_by_count l) l.
Proof.
  induction l as [|x r IH]; simpl; [reflexivity|].
  rewrite insert_by_count_perm. constructor. exact IH.
Qed.

(** The sorted counts list every speaker once. *)
Lemma sorted_counts_keys segments :
  NoDup (map fst (sort_by_count (speaker_counts segments))) /\
  (forall k, In k (map fst (sort_by_count (speaker_counts segments)))
             <-> In k (map speaker segments)) /\
  List.length (sort_by_count (speaker_counts segments))
  = List.length (unique_speakers segments).
Proof.
  destruct (speaker_counts_keys segments [] (NoDup_nil _)) as [H1 H2].
  fold (speaker_counts segments) in H1, H2.
  pose proof (Permutation_map fst (sort_by_count_perm (speaker_counts segments)))
    as Hp.
  assert (Hnd : NoDup (map fst (sort_by_count (speaker_counts segments))))
    by (eapply Permutation_NoDup; [symmetry; exact Hp | exact H1]).
  assert (Hin : forall k,
             In k (map fst (sort_by_count (speaker_counts segments)))
             <-> In k (map speaker segments)).
  { intros k. split.
    - intros Hk. apply (Permutation_in _ Hp) in Hk. apply H2 in Hk.
      destruct Hk as [[]|Hk]. exact Hk.
    - intros Hk. apply (Permutation_in _ (Permutation_sym Hp)).
      apply H2. right. exact Hk. }
  split; [exact Hnd|]. split; [exact Hin|].
  rewrite <- (length_map fst). apply Permutation_length.
  apply NoDup_Permutation; [exact Hnd | apply NoDup_nodup|].
  intros k. unfold unique_speakers. rewrite nodup_In. apply Hin.
Qed.

Lemma two_names (names : list string) (a b : string) :
  a <> b -> (forall x, In x names <-> x = a \/ x = b) ->
  List.length (nodup string_dec names) = 2%nat.
Proof.
  intros Hab Hin.
  change 2%nat with (List.length [a; b]). apply Permutation_length.
  apply NoDup_Permutation.
  - apply NoDup_nodup.
  - constructor; [intros [H|[]]; congruence|]. constructor; [intros []|].
    constructor.
  - intros x. rewrite nodup_In, Hin. simpl. intuition.
Qed.

Lemma str_in_In x l : str_in x l = true <-> In x l.
Proof.
  unfold str_in. rewrite existsb_exists. split.
  - intros [y [Hy E]]. apply String.eqb_eq in E. subst. exact Hy.
  - intros H. exists x. split; [exact H | apply String.eqb_refl].
Qed.

(** More than two speakers are brought down to the two most frequent. *)
Lemma collapse_gives_two segments :
  (2 < List.length (unique_speakers segments))%nat ->
  List.length
    (unique_speakers (collapse_to_top (top_speaker_ids segments) segments))
  = 2%nat.
Proof.
  intros Hlen. destruct (sorted_counts_keys segments) as [Hnd [Hin Hl]].
  unfold top_speaker_ids.
  destruct (sort_by_count (speaker_counts segments))
    as [|[k1 n1] [|[k2 n2] rest]]; simpl in Hl; try lia.
  cbn [firstn map fst] in *.
  inversion Hnd as [|? ? Hn1 Hnd']; subst.
  assert (Hne : k1 <> k2) by (intros ->; apply Hn1; left; reflexivity).
  unfold unique_speakers. apply (two_names _ k1 k2 Hne).
  intros x. unfold collapse_to_top. rewrite map_map, in_map_iff. split.
  - intros [s [<- Hs]].
    destruct (str_in (speaker s) [k1; k2]) eqn:E.
    + apply str_in_In in E. simpl in E. intuition.
    + left. reflexivity.
  - assert (Hk : forall k, k = k1 \/ k = k2 ->
                  exists s, In s segments /\ speaker s = k).
    { intros k Hk.
      assert (Hm : In k (map speaker segments))
        by (apply Hin; simpl; intuition).
      apply in_map_iff in Hm. destruct Hm as [s [E Hs]]. eauto. }
    intros Hx. destruct (Hk x Hx) as [s [Hs E]]. exists s.
    split; [|exact Hs].
    assert (Et : str_in (speaker s) [k1; k2] = true)
      by (apply str_in_In; rewrite E; simpl; intuition).
    rewrite Et. exact E.
Qed.

Lemma alternate_cons speaker1 speaker2 current s n r :
  alternate speaker1 speaker2 current (s :: n :: r)
  = set_speaker s current
    :: alternate speaker1 speaker2
         (if 50 <? start n - end_ s
          then (if String.eqb current speaker1 then speaker2 else speaker1)
          else current)
         (n :: r).
Proof. reflexivity. Qed.

(** In the single-speaker branch only the two names are used, and both are
    as soon as some gap exceeds half a second. *)
Lemma alternate_names_both (speaker1 speaker2 : string) (l : list Segment) :
  speaker1 <> speaker2 ->
  forall current,
    current = speaker1 \/ current = speaker2 ->
    (forall s, In s (alternate speaker1 speaker2 current l) ->
               speaker s = speaker1 \/ speaker s = speaker2) /\
    (~ Sorted (fun a b => start b - end_ a <= 50) l ->
     forall name, name = speaker1 \/ name = speaker2 ->
       exists s, In s (alternate speaker1 speaker2 current l)
                 /\ speaker s = name).
Proof.
  intros Hne. induction l as [|s r IH]; intros current Hc.
  - split; [intros s []|]. intros H. exfalso. apply H. constructor.
  - destruct r as [|n r'].
    + split.
      * intros x [<-|[]]. exact Hc.
      * intros H. exfalso. apply H. repeat constructor.
    + rewrite alternate_cons. destruct (50 <? start n - end_ s) eqn:E.
      * set (next := if String.eqb current speaker1
                     then speaker2 else speaker1).
        assert (Hnext : next = speaker1 \/ next = speaker2)
          by (unfold next; destruct (String.eqb current speaker1); auto).
        assert (Hflip : forall name, name = speaker1 \/ name = speaker2 ->
                                     name = current \/ name = next).
        { unfold next. intros name Hname.
          destruct (String.eqb current speaker1) eqn:E1.
          - apply String.eqb_eq in E1. subst current. exact Hname.
          - apply String.eqb_neq in E1.
            destruct Hc as [->| ->]; [congruence|]. intuition. }
        destruct (IH next Hnext) as [IH1 _]. split.
        -- intros x [<-|Hx]; [exact Hc | apply IH1; exact Hx].
        -- intros _ name Hname. destruct (Hflip name Hname) as [->| ->].
           ++ exists (set_speaker s current). split; [left|]; reflexivity.
           ++ exists (set_speaker n next). split; [|reflexivity].
              right. destruct r'; left; reflexivity.
      * destruct (IH current Hc) as [IH1 IH2]. split.
        -- intros x [<-|Hx]; [exact Hc | apply IH1; exact Hx].
        -- intros Hgap name Hname. apply Z.ltb_ge in E.
           assert (Hr : ~ Sorted (fun a b => start b - end_ a <= 50)
                          (n :: r')).
           { intros Hs. apply Hgap. constructor; [exact Hs|].
             constructor. exact E. }
           destruct (IH2 Hr name Hname) as [x [Hx Ex]].
           exists x. split; [right|]; assumption.
Qed.

(** X3. What [_enforce_two_speakers] does achieve: exactly two speakers
    come out whenever at least two go in, or one goes in with a gap of more
    than half a second somewhere between its segments (sorted by start). *)
Lemma enforce_two_speakers_when_possible (segments : list Segment) :
  (2 <= List.length (unique_speakers segments))%nat \/
  (List.length (unique_speakers segments) = 1%nat /\
   ~ Sorted (fun a b => start b - end_ a <= 50) (sort_by_start segments)) ->
  List.length (unique_speakers (_enforce_two_speakers segments)) = 2%nat.
Proof.
  intros H. unfold _enforce_two_speakers.
  destruct segments as [|s0 r0] eqn:Es;
    [simpl in H; destruct H as [H|[H _]]; [lia | discriminate]|].
  rewrite <- Es in *. clear Es s0 r0.
  destruct (List.length (unique_speakers segments) =? 2)%nat eqn:E2.
  - apply Nat.eqb_eq in E2. exact E2.
  - apply Nat.eqb_neq in E2.
    destruct (2 <? List.length (unique_speakers segments))%nat eqn:E3.
    + apply Nat.ltb_lt in E3. apply collapse_gives_two. exact E3.
    + apply Nat.ltb_ge in E3. destruct H as [H|[H1 Hgap]]; [lia|].
      rewrite H1. cbn [Nat.eqb].
      set (speaker1 := hd ""%string (unique_speakers segments)).
      set (speaker2 := if negb (String.eqb speaker1 "Speaker 2")
                       then "Speaker 2"%string else "Speaker 1"%string).
      assert (Hne : speaker1 <> speaker2).
      { unfold speaker2. destruct (String.eqb speaker1 "Speaker 2") eqn:E.
        - apply String.eqb_eq in E. rewrite E. discriminate.
        - apply String.eqb_neq in E. exact E. }
      destruct (alternate_names_both speaker1 speaker2
                  (sort_by_start segments) Hne speaker1 (or_introl eq_refl))
        as [Hall Hboth].
      unfold unique_speakers at 1. apply (two_names _ speaker1 speaker2 Hne).
      intros x. rewrite in_map_iff. split.
      * intros [s [<- Hs]]. apply Hall. exact Hs.
      * intros Hx. destruct (Hboth Hgap x Hx) as [s [Hs E]]. eauto.
Qed.

(** C4, at an input on which the code misses it.  A single segment of one
    speaker is a non-empty input; [_enforce_two_speakers] finds no gap to
    split at and returns it unchanged, with one speaker instead of the two
    its docstring promises. *)
Theorem enforce_two_speakers_single_segment :
  let segments :=
    [{| start := 0; end_ := 6000; speaker := "Speaker 1";
        duration := 6000; confidence := Some 90 |}] in
  segments <> [] /\
  _enforce_two_speakers segments = segments /\
  List.length (unique_speakers (_enforce_two_speakers segments)) = 1%nat.
Proof.
  intros segments. split; [discriminate|]. split; reflexivity.
Qed.

(** ** Further properties of the consolidation *)

Lemma enforce_two_speakers_when_possible_witness :
  let segments :=
    [mkSegment 0 100 "Speaker 1" 100 None;
     mkSegment 180 300 "Speaker 1" 120 None] in
  List.length (unique_speakers (_enforce_two_speakers segments)) = 2%nat.
Proof.
  intros segments. apply enforce_two_speakers_when_possible.
  right. split; [reflexivity|].
  intros H. inversion H as [|? ? _ Hhd]; subst.
  inversion Hhd as [|? ? Hle]; subst. simpl in Hle. lia.
Defined.

(** Every segment the sweep emits starts where, and belongs to whom, some
    segment of its input does. *)
Lemma merge_from_origin l : forall c o,
  In o (merge_from c l) ->
  exists s, In s (c :: l) /\ speaker o = speaker s /\ start o = start s.
Proof.
  induction l as [|n r IH]; intros c o Ho.
  - simpl in Ho. destruct Ho as [<-|[]]. exists c. simpl. auto.
  - cbn [merge_from] in Ho. destruct (mergeable c n).
    + destruct (IH (extend c n) o Ho) as [s [[<-|Hs] [E1 E2]]].
      * exists c. simpl. auto.
      * exists s. simpl. auto.
    + destruct Ho as [<-|Ho].
      * exists c. simpl. auto.
      * destruct (IH n o Ho) as [s [Hs E]]. exists s. simpl. auto.
Qed.

Lemma merge_from_length l : forall c,
  (1 <= List.length (merge_from c l) <= S (List.length l))%nat.
Proof.
  induction l as [|n r IH]; intros c; simpl; [lia|].
  destruct (mergeable c n); simpl.
  - specialize (IH (extend c n)). lia.
  - specialize (IH n). lia.
Qed.

Lemma insert_by_start_length s l :
  List.length (insert_by_start s l) = S (List.length l).
Proof.
  induction l as [|x r IH]; simpl; [reflexivity|].
  destruct (start s <=? start x); simpl; [reflexivity | rewrite IH; reflexivity].
Qed.

Lemma sort_by_start_length l :
  List.length (sort_by_start l) = List.length l.
Proof.
  induction l as [|s r IH]; simpl; [reflexivity|].
  rewrite insert_by_start_length, IH. reflexivity.
Qed.

Lemma score_from_starts jitter l : forall i,
  map start (score_from i jitter l) = map start l.
Proof.
  induction l as [|s r IH]; intros i; simpl; [reflexivity|].
  rewrite IH. reflexivity.
Qed.

(** X1. Whatever the collaborator's annotation and the jitter, the result of
    [_process_diarization_results] has exactly the speakers of the
    annotation (as [Speaker k+1]), every segment of it starts where a track
    of the annotation starts, it is never longer than the annotation, and it
    is empty exactly when the annotation is. *)
Theorem consolidation_keeps_the_speakers
    (jitter : nat -> Q) (turns : list Turn) :
  let out := _process_diarization_results jitter turns in
  (forall sp, In sp (map speaker out)
              <-> In sp (map (fun t => speaker_name (label t + 1)) turns)) /\
  (forall o, In o out ->
             exists t, In t turns /\ start o = round2 (turn_start t)) /\
  (List.length out <= List.length turns)%nat /\
  (out = [] <-> turns = []).
Proof.
  cbv zeta. unfold _process_diarization_results.
  set (raw := map raw_segment turns).
  assert (Hlen : (List.length (merge_pass raw) <= List.length raw)%nat
                 /\ (merge_pass raw = [] <-> raw = [])).
  { unfold merge_pass, merge_segments.
    pose proof (sort_by_start_length raw) as Hl.
    destruct (sort_by_start raw) as [|c r] eqn:E.
    - simpl in Hl. destruct raw; [|discriminate]. split; [lia | tauto].
    - pose proof (merge_from_length r c) as Hm. simpl in Hl. split; [lia|].
      split.
      + intros H. rewrite H in Hm. simpl in Hm. lia.
      + intros H. rewrite H in E. discriminate. }
  assert (Hscore : forall l i, List.length (score_from i jitter l)
                               = List.length l).
  { induction l as [|s r IH]; intros i; simpl; [|rewrite IH]; reflexivity. }
  split; [|split; [|split]].
  - intros sp. rewrite score_from_speakers.
    replace (map (fun t => speaker_name (label t + 1)) turns)
      with (map speaker raw) by (unfold raw; rewrite map_map; reflexivity).
    split.
    + intros H. apply in_map_iff in H. destruct H as [o [<- Ho]].
      unfold merge_pass, merge_segments in Ho.
      destruct (sort_by_start raw) as [|c r] eqn:E; [destruct Ho|].
      destruct (merge_from_origin r c o Ho) as [s [Hs [E1 _]]].
      rewrite E1. apply in_map. apply sort_by_start_In. rewrite E. exact Hs.
    + intros H. apply in_map_iff in H. destruct H as [s [<- Hs]].
      destruct (merge_pass_speakers raw s Hs) as [s' [Hs' <-]].
      apply in_map. exact Hs'.
  - intros o Ho.
    assert (Hin : In (start o) (map start (merge_pass raw))).
    { rewrite <- (score_from_starts jitter (merge_pass raw) 0).
      apply in_map. exact Ho. }
    apply in_map_iff in Hin. destruct Hin as [o' [E Ho']].
    unfold merge_pass, merge_segments in Ho'.
    destruct (sort_by_start raw) as [|c r] eqn:Es; [destruct Ho'|].
    destruct (merge_from_origin r c o' Ho') as [s [Hs [_ E2]]].
    assert (Hraw : In s raw) by (apply sort_by_start_In; rewrite Es; exact Hs).
    unfold raw in Hraw. apply in_map_iff in Hraw.
    destruct Hraw as [t [<- Ht]]. exists t. split; [exact Ht|].
    rewrite <- E, E2. reflexivity.
  - rewrite Hscore. unfold raw in Hlen. rewrite length_map in Hlen.
    apply Hlen.
  - destruct Hlen as [_ He]. split.
    + intros H. assert (Hm : merge_pass raw = []).
      { destruct (merge_pass raw); [reflexivity | discriminate H]. }
      apply He in Hm. unfold raw in Hm.
      destruct turns; [reflexivity | discriminate Hm].
    + intros ->. reflexivity.
Qed.

(** X2. The sweep of lines 276-291 absorbs earlier sweeps: sweeping a list
    put together from pieces that were swept already gives what sweeping
    the pieces put together gives.  This is what lets [_process_in_chunks]
    run the sweep per chunk and once more over all chunks. *)
Theorem sweep_absorbs_earlier_sweeps (pieces : list (list Segment)) :
  merge_segments (List.concat (map merge_segments pieces))
  = merge_segments (List.concat pieces).
Proof. exact (merge_segments_concat_swept pieces). Qed.

(** *** The speaker mapping of any run *)

Lemma lookup_None k (m : Mapping) :
  lookup k m = None <-> ~ In k (map fst m).
Proof.
  induction m as [|[a b] m IH]; simpl; [tauto|].
  destruct (String.eqb a k) eqn:E.
  - apply String.eqb_eq in E. split; [discriminate | intros H; exfalso; auto].
  - apply String.eqb_neq in E. rewrite IH. tauto.
Qed.

Lemma remember_keys sp m :
  NoDup (map fst m) -> NoDup (map fst (remember sp m)).
Proof.
  unfold remember. intros H. destruct (lookup sp m) eqn:E; [exact H|].
  apply lookup_None in E. rewrite map_app. simpl.
  apply NoDup_app_remove_l with (l := []). simpl.
  apply Permutation_NoDup with (l := sp :: map fst m).
  - apply Permutation_cons_append.
  - constructor; assumption.
Qed.

Lemma adjust_all_keys k l : forall m,
  NoDup (map fst m) -> NoDup (map fst (snd (adjust_all k m l))).
Proof.
  induction l as [|s r IH]; intros m H; [exact H|].
  cbn [adjust_all adjust].
  specialize (IH (remember (speaker s) m) (remember_keys _ _ H)).
  destruct (adjust_all k (remember (speaker s) m) r). exact IH.
Qed.

Lemma chunk_loop_mapping run D : forall indices acc m,
  numbered m -> NoDup (map fst m) ->
  extends m (snd (chunk_loop run D indices acc m)) /\
  numbered (snd (chunk_loop run D indices acc m)) /\
  NoDup (map fst (snd (chunk_loop run D indices acc m))).
Proof.
  induction indices as [|i later IH]; intros acc m Hn Hk.
  - simpl. auto using extends_refl.
  - cbn [chunk_loop].
    destruct (audio_len_ms run <=? Z.of_nat i * D * 1000);
      [simpl; auto using extends_refl|].
    destruct (chunk_turns run i) as [t|]; [|apply IH; assumption].
    pose proof (adjust_all_spec (Z.of_nat i * D * 1000 / 1000 * 100)
                  (_process_diarization_results (chunk_jitter run i) t) m)
      as [A1 [A2 _]].
    pose proof (adjust_all_keys (Z.of_nat i * D * 1000 / 1000 * 100)
                  (_process_diarization_results (chunk_jitter run i) t) m Hk)
      as A3.
    destruct (adjust_all (Z.of_nat i * D * 1000 / 1000 * 100) m
                (_process_diarization_results (chunk_jitter run i) t))
      as [adjusted m']. cbn [snd] in *.
    destruct (IH (acc ++ adjusted) m' (A2 Hn) A3) as [I1 [I2 I3]].
    split; [eapply extends_trans; eassumption | auto].
Qed.


Lemma chunk_loop_silenced run D : forall indices acc m,
  chunk_loop (silenced run) D indices acc m = chunk_loop run D indices acc m.
Proof.
  induction indices as [|i later IH]; intros acc m; [reflexivity|].
  cbn [chunk_loop silenced audio_len_ms chunk_turns chunk_jitter].
  destruct (audio_len_ms run <=? Z.of_nat i * D * 1000); [reflexivity|].
  destruct (chunk_turns run i) as [t|].
  - destruct (adjust_all (Z.of_nat i * D * 1000 / 1000 * 100) m
                (_process_diarization_results (chunk_jitter run i) t)).
    apply IH.
  - cbn [_process_diarization_results map merge_pass sort_by_start
         merge_segments score_from adjust_all].
    rewrite app_nil_r. apply IH.
Qed.

(** X5. A chunk on which the collaborator raises (lines 464-465) costs the
    job nothing but that chunk: the segments returned and the speaker
    mapping are those of the run in which the chunk has no track at all,
    and the chunks after it are still processed. *)
Theorem failed_chunk_counts_as_silent (run : ChunkRun) (D : Z) :
  _process_in_chunks run D = _process_in_chunks (silenced run) D /\
  speaker_mapping run D = speaker_mapping (silenced run) D /\
  visited_chunks run D = visited_chunks (silenced run) D.
Proof.
  unfold _process_in_chunks, speaker_mapping, visited_chunks, chunk_count.
  cbn [silenced audio_len_ms]. rewrite chunk_loop_silenced.
  repeat split.
Qed.


(** X7. The base confidence of line 296 does what its comment says, longer
    segments never score lower: it is monotone in the duration, 0.6 for
    every segment of at most 6 seconds and 0.9 for every segment of at
    least 9 seconds. *)
Theorem base_confidence_grows_with_duration (d d' : Z) :
  d <= d' ->
  (base_confidence d <= base_confidence d')%Q /\
  (d <= 600 -> (base_confidence d == 6 # 10)%Q) /\
  (900 <= d -> (base_confidence d == 9 # 10)%Q).
Proof.
  intros Hd. unfold base_confidence.
  assert (Hq : forall a b : Z, a <= b ->
            (inject_Z a / 100 / 10 <= inject_Z b / 100 / 10)%Q).
  { intros a b Hab. unfold Qdiv. repeat apply Qmult_le_compat_r;
      try discriminate. rewrite <- Zle_Qle. exact Hab. }
  split; [|split].
  - apply Q.min_le_compat_l. apply Q.max_le_compat_l. apply Hq. exact Hd.
  - intros H6. rewrite Q.max_l.
    + apply Q.min_r. discriminate.
    + apply Qle_trans with (inject_Z 600 / 100 / 10)%Q;
        [apply Hq; exact H6 | discriminate].
  - intros H9. apply Q.min_l.
    apply Qle_trans with (inject_Z 900 / 100 / 10)%Q.
    + discriminate.
    + apply Qle_trans with (Qmax (6 # 10) (inject_Z 900 / 100 / 10));
        [apply Q.le_max_r|].
      apply Q.max_le_compat_l. apply Hq. exact H9.
Qed.

Lemma base_confidence_grows_with_duration_witness :
  (base_confidence 250 <= base_confidence 1200)%Q /\
  (base_confidence 250 == 6 # 10)%Q /\
  (base_confidence 1200 == 9 # 10)%Q.
Proof.
  destruct (base_confidence_grows_with_duration 250 1200 ltac:(lia))
    as [H1 [H2 _]].
  destruct (base_confidence_grows_with_duration 1200 1200 ltac:(lia))
    as [_ [_ H3]].
  split; [exact H1|]. split; [apply H2; lia | apply H3; lia].
Defined.

End DiarizationFacts.

(** * Properties of the orchestrator ([Backend/app.py]) *)
Module AppFacts.
Import Py App AppNotions RunNotions.
Local Open Scope string_scope.

(** ** The definitions at work *)

Example strings_at_work :
  strip "  a b  " = "a b" /\ split "  a  b c " = ["a"; "b"; "c"] /\
  join ", " ["a"; "b"; "c"] = "a, b, c" /\
  startswith "Error: x" "Error:" = true /\ startswith "Err" "Error:" = false /\
  basename "uploads/talk.wav" = "talk.wav".
Proof. repeat split. Qed.

(** A good run: the diarizer's list is noted as an invalid format, every
    later stage runs, one write. *)
Example studio_run_at_work :
  fst studio_run = Ok tt /\ opens (snd studio_run) = 1%nat /\
  match file (snd studio_run) with
  | Complete c =>
      map fst c = ["job_id"; "status"; "error"; "metadata"; "transcript";
                   "segments"; "diarization"; "topics"; "extractive_summary";
                   "abstractive_summary"] /\
      get c "status" = Some (PStr "completed") /\
      get c "diarization"
      = Some (error_dict "Invalid diarization result format") /\
      get c "abstractive_summary"
      = Some (PStr "A dry summer hurt the garden.")
  | _ => False
  end.
Proof. vm_compute. repeat split. Qed.

(** ** Dictionaries *)

Lemma get_set_eq d k v : get (set d k v) k = Some v.
Proof.
  induction d as [|[k' v'] d IH]; simpl.
  - rewrite String.eqb_refl. reflexivity.
  - destruct (String.eqb k' k) eqn:E; simpl; rewrite E; auto.
Qed.

Lemma get_set_neq d k k' v : k <> k' -> get (set d k v) k' = get d k'.
Proof.
  intros Hne. induction d as [|[a b] d IH]; simpl.
  - apply String.eqb_neq in Hne. rewrite Hne. reflexivity.
  - destruct (String.eqb a k) eqn:E; simpl.
    + apply String.eqb_eq in E. subst a.
      apply String.eqb_neq in Hne. rewrite Hne. reflexivity.
    + destruct (String.eqb a k'); auto.
Qed.

Ltac dict_simpl :=
  repeat (rewrite get_set_eq
          || rewrite get_set_neq by (intro; discriminate)).

Lemma truthy_get_set_neq d k k' v :
  k <> k' -> truthy_get (set d k v) k' = truthy_get d k'.
Proof. intros H. unfold truthy_get. rewrite get_set_neq; auto. Qed.

(** ** The diarization stage *)

Lemma total_audio_duration_max segments : forall total t,
  total_audio_duration total segments = Ok t ->
  (total <= t)%Q /\ Forall (fun q => (q <= t)%Q) (ends segments) /\
  (t = total \/ In t (ends segments)).
Proof.
  induction segments as [|v r IH]; intros total t H.
  - simpl in H. injection H as <-. simpl. split; [apply Qle_refl | auto].
  - destruct v; try exact (IH total t H).
    cbn [total_audio_duration ends] in *.
    destruct (get d "end") as [e|]; [|exact (IH total t H)].
    destruct (as_number e) as [q|]; [|discriminate].
    destruct (IH _ t H) as [H1 [H2 H3]].
    unfold Qltb in *. destruct (Qle_bool q total) eqn:E; cbn [negb] in *.
    + apply Qle_bool_iff in E. repeat split; auto.
      * constructor; [eapply Qle_trans; eassumption | assumption].
      * destruct H3; [left | right; right]; assumption.
    + assert (total <= q)%Q.
      { destruct (Qlt_le_dec total q) as [Hlt|Hle];
          [apply Qlt_le_weak; exact Hlt|].
        apply Qle_bool_iff in Hle. congruence. }
      repeat split; auto.
      * eapply Qle_trans; eassumption.
      * destruct H3 as [->|]; [right; left; reflexivity | right; right];
          auto.
Qed.

(** C8. The diarizer is constructed or called only when the three gates
    pass (a credential is configured, at least 5 transcript segments, and a
    largest end time of at least 10 seconds); whenever a gate fails no call
    is made and the record's diarization field is a dictionary
    [{error: reason}].  The duration compared with 10 is the largest numeric
    end among the segments (0 when there is none). *)
Theorem diarization_gated (w : World) (file_path : string) (results : dict) :
  let out := diarization_stage w file_path results in
  (existsb diarizer_call (snd out) = true -> gates_pass w results = true) /\
  (gates_pass w results = false ->
     snd out = [] /\
     exists reason,
       get (fst out) "diarization" = Some (PDict [("error", PStr reason)])) /\
  (forall segments total,
     get results "segments" = Some (PList segments) ->
     total_audio_duration 0 segments = Ok total ->
     Forall (fun q => (q <= total)%Q) (ends segments) /\
     (total = 0%Q \/ In total (ends segments))).
Proof.
  cbv zeta. split; [|split].
  - unfold diarization_stage, gates_pass.
    destruct (token_set w); [|simpl; intros H; discriminate H].
    destruct (get results "segments") as [[| | | |[|s l]| | |]|];
      try (simpl; intros H; discriminate H).
    destruct (total_audio_duration 0 (s :: l)) as [total|e];
      [|simpl; intros H; discriminate H].
    unfold Qltb.
    destruct (Qle_bool 10 total); [|simpl; intros H; discriminate H].
    cbn [negb orb andb].
    destruct (List.length (s :: l) <? 5)%nat eqn:E; [simpl; intros H; discriminate H|].
    intros _. apply Nat.ltb_ge in E. apply Nat.leb_le in E. rewrite E.
    reflexivity.
  - unfold diarization_stage, gates_pass.
    destruct (token_set w); [|intros _; split; [reflexivity|]; eexists;
                              cbn [fst]; apply get_set_eq].
    destruct (get results "segments") as [[| | | |[|s l]| | |]|];
      try (intros _; split; [reflexivity|]; eexists; cbn [fst];
           apply get_set_eq).
    destruct (total_audio_duration 0 (s :: l)) as [total|e].
    + unfold Qltb. cbn [andb].
      destruct (Qle_bool 10 total); cbn [negb orb andb].
      * rewrite Nat.leb_antisym.
        destruct (List.length (s :: l) <? 5)%nat; [|discriminate].
        intros _. split; [reflexivity|]. eexists. cbn [fst].
        apply get_set_eq.
      * intros _. split; [reflexivity|]. eexists. cbn [fst].
        apply get_set_eq.
    + intros _. split; [reflexivity|].
      exists (match e with TimeoutError _ => "Speaker diarization timed out"
                         | _ => str_of_exn e end).
      cbn [fst]. rewrite get_set_eq. destruct e; reflexivity.
  - intros segments total _ H.
    destruct (total_audio_duration_max segments 0 total H) as [_ [H2 H3]].
    split; assumption.
Qed.

Lemma accept_diarization_segments results v :
  get (accept_diarization results v) "segments" = get results "segments" \/
  exists d l,
    v = PDict d /\ get d "segments" = Some (PList l) /\ l <> [] /\
    get (accept_diarization results v) "segments" = Some (PList l).
Proof.
  unfold accept_diarization.
  destruct v; try (left; apply get_set_neq; discriminate).
  unfold truthy_get, get_default.
  destruct (get d "segments") as [[| | | |l| | |]|] eqn:E; cbn [is_list];
    rewrite ?andb_false_r; try (left; apply get_set_neq; discriminate).
  destruct l as [|x l]; cbn [truthy andb].
  - left. apply get_set_neq. discriminate.
  - right. exists d, (x :: l). repeat split; try assumption.
    + discriminate.
    + apply get_set_eq.
Qed.

Lemma accept_diarization_other results v k :
  k <> "diarization" -> k <> "segments" ->
  get (accept_diarization results v) k = get results k.
Proof.
  intros H1 H2. unfold accept_diarization.
  destruct v; try (apply get_set_neq; congruence).
  destruct (truthy_get d "segments" && _);
    repeat (rewrite get_set_neq by congruence); reflexivity.
Qed.

Lemma accept_diarization_list results l :
  accept_diarization results (PList l)
  = set results "diarization"
      (error_dict "Invalid diarization result format").
Proof. reflexivity. Qed.

Lemma diarization_stage_other w file_path results k :
  k <> "diarization" -> k <> "segments" ->
  get (fst (diarization_stage w file_path results)) k = get results k.
Proof.
  intros H1 H2. unfold diarization_stage.
  destruct (token_set w);
    [|cbn [fst]; apply get_set_neq; congruence].
  destruct (get results "segments") as [[| | | |[|s l]| | |]|];
    try (cbn [fst]; apply get_set_neq; congruence).
  destruct (total_audio_duration 0 (s :: l));
    [|cbn [fst]; apply get_set_neq; congruence].
  destruct (Qltb a 10 || _);
    [cbn [fst]; apply get_set_neq; congruence|].
  destruct (new_SpeakerDiarization w);
    [|cbn [fst]; apply get_set_neq; congruence].
  destruct (diarize w file_path _);
    [|cbn [fst]; apply get_set_neq; congruence].
  cbn [fst]. destruct (diarization_timer_fired w);
    rewrite ?get_set_neq by congruence;
    apply accept_diarization_other; assumption.
Qed.

Lemma gates_pass_inv w results :
  gates_pass w results = true ->
  token_set w = true /\
  exists s l total,
    get results "segments" = Some (PList (s :: l)) /\
    total_audio_duration 0 (s :: l) = Ok total /\
    Qltb total 10 || (List.length (s :: l) <? 5)%nat = false.
Proof.
  unfold gates_pass. intros H. apply andb_true_iff in H. destruct H as [Ht H].
  split; [exact Ht|].
  destruct (get results "segments") as [[| | | |[|s l]| | |]|];
    try discriminate.
  apply andb_true_iff in H. destruct H as [Hl H].
  destruct (total_audio_duration 0 (s :: l)) as [total|] eqn:Et;
    [|discriminate].
  exists s, l, total. split; [reflexivity|]. split; [exact Et|].
  apply Qle_bool_iff in H. apply Nat.leb_le in Hl.
  apply orb_false_iff. split.
  - unfold Qltb. apply negb_false_iff. apply Qle_bool_iff. exact H.
  - apply Nat.ltb_ge. exact Hl.
Qed.

(** The stage leaves the segments alone unless the diarizer returned a
    dictionary whose ["segments"] is a non-empty list; an answer of the
    repository's diarizer, which is a list, is noted as an error field. *)
Lemma diarization_stage_segments
    (w : World) (file_path : string) (results : dict) :
  let out := fst (diarization_stage w file_path results) in
  (get out "segments" = get results "segments" \/
   exists d l,
     diarize w file_path (transcript_data results) = Ok (PDict d) /\
     get d "segments" = Some (PList l) /\ l <> [] /\
     get out "segments" = Some (PList l)) /\
  (forall k, k <> "diarization" -> k <> "segments" ->
             get out k = get results k) /\
  (forall r,
     gates_pass w results = true ->
     new_SpeakerDiarization w = Ok tt ->
     diarize w file_path (transcript_data results)
     = Ok (diarize_output r) ->
     get out "segments" = get results "segments" /\
     get out "status" = get results "status" /\
     get out "error" = get results "error" /\
     exists reason, get out "diarization" = Some (error_dict reason)).
Proof.
  cbv zeta. split; [|split].
  - unfold diarization_stage, transcript_data, get_default.
    destruct (token_set w);
      [|left; cbn [fst]; rewrite get_set_neq by discriminate; auto].
    destruct (get results "segments") as [[| | | |[|s l]| | |]|] eqn:Es;
      try (left; cbn [fst]; rewrite get_set_neq by discriminate; auto).
    destruct (total_audio_duration 0 (s :: l));
      [|left; cbn [fst]; rewrite get_set_neq by discriminate; auto].
    destruct (Qltb a 10 || _);
      [left; cbn [fst]; rewrite get_set_neq by discriminate; auto|].
    destruct (new_SpeakerDiarization w);
      [|left; cbn [fst]; rewrite get_set_neq by discriminate; auto].
    destruct (diarize w file_path _) as [v|e] eqn:Ed;
      [|left; cbn [fst]; rewrite get_set_neq by discriminate; auto].
    cbn [fst].
    destruct (accept_diarization_segments results v) as [H|[d [l' H]]].
    + left. rewrite <- Es, <- H.
      destruct (diarization_timer_fired w);
        rewrite ?get_set_neq by discriminate; reflexivity.
    + right. exists d, l'. destruct H as [-> [H1 [H2 H3]]].
      repeat split; try assumption.
      destruct (diarization_timer_fired w);
        rewrite ?get_set_neq by discriminate; assumption.
  - intros k. apply diarization_stage_other.
  - intros r Hg Hn Hd.
    destruct (gates_pass_inv w results Hg) as [Ht [s [l [total [Es [Et Eb]]]]]].
    repeat split; try (apply diarization_stage_other; discriminate).
    + unfold diarization_stage. unfold transcript_data, get_default in Hd.
      rewrite Ht, Es in *. rewrite Et, Eb, Hn, Hd. cbn [fst].
      destruct r; cbn [diarize_output]; unfold unknown_speaker;
        rewrite accept_diarization_list;
        destruct (diarization_timer_fired w);
        rewrite ?get_set_neq by discriminate; exact Es.
    + unfold diarization_stage. unfold transcript_data, get_default in Hd.
      rewrite Ht, Es in *. rewrite Et, Eb, Hn, Hd. cbn [fst].
      destruct r; cbn [diarize_output]; unfold unknown_speaker;
        rewrite accept_diarization_list;
        destruct (diarization_timer_fired w);
        rewrite ?get_set_eq; eexists; reflexivity.
Qed.

(** ** Writing the result file *)

Lemma logged_untouched calls st : untouched st -> untouched (logged calls st).
Proof. unfold untouched, logged. simpl. auto. Qed.

Lemma save_first w content st :
  untouched st -> body_left w (save w content st).
Proof.
  intros [Ho Hf]. unfold save, body_left. rewrite Ho.
  destruct (open_error w 0) eqn:E; cbn [fst snd opens file].
  - right. rewrite Hf. split; [reflexivity|]. left. split; congruence.
  - destruct (serializable (PDict content)); cbn [fst snd opens file].
    + repeat split. eauto.
    + right. split; [reflexivity|]. right. auto.
Qed.

Lemma raise_first w e st : untouched st -> body_left w (Raise e, st).
Proof. intros H. left. exact H. Qed.

Lemma body_outcome w file_path job_id metadata :
  body_left w (body w file_path job_id metadata initial).
Proof.
  assert (H0 : untouched initial) by (split; reflexivity).
  unfold body.
  destruct (new_WhisperTranscriber w) as [mock|e].
  - destruct (after_transcription w file_path job_id metadata mock)
      as [results calls].
    destruct (no_valid_transcript results) as [[|]|e].
    + apply save_first, logged_untouched, H0.
    + destruct (diarization_stage w file_path results) as [results1 calls1].
      destruct (topic_stage w results1) as [[results2 calls2]|e].
      * destruct (summarization_stage w results2) as [[results3 calls3]|e].
        -- apply save_first. repeat apply logged_untouched. exact H0.
        -- apply raise_first. repeat apply logged_untouched. exact H0.
      * apply raise_first. repeat apply logged_untouched. exact H0.
    + apply raise_first, logged_untouched, H0.
  - destruct (metadata_stage w file_path metadata (initial_results job_id))
      as [results calls].
    apply save_first, logged_untouched, H0.
Qed.

(** C2, as the code has it.  On every path the orchestrator returns
    normally (no exception leaves it) after one or two attempts to write the
    result file.  If opening the file never fails, the job ends with exactly
    one whole record in it.  When the body returned, that record was written
    by its single write; when an exception reached the outer handler, the
    record is the minimal [{job_id, status: error, error: message}] provided
    the handler can open the file, and otherwise no whole record is left and
    the failure is only logged. *)
Theorem orchestrator_always_returns
    (w : World) (file_path job_id : string) (metadata : option dict) :
  let out := process_audio_file w file_path job_id metadata initial in
  fst out = Ok tt /\
  (1 <= opens (snd out) <= 2)%nat /\
  ((forall n, open_error w n = None) -> exists c, file (snd out) = Complete c) /\
  (forall st1,
      body w file_path job_id metadata initial = (Ok tt, st1) ->
      snd out = st1 /\ opens st1 = 1%nat /\ exists c, file st1 = Complete c) /\
  (forall e st1,
      body w file_path job_id metadata initial = (Raise e, st1) ->
      (open_error w (opens st1) = None ->
       file (snd out) = Complete (error_record job_id e)) /\
      (open_error w (opens st1) <> None ->
       forall c, file (snd out) <> Complete c)).
Proof.
  cbv zeta. unfold process_audio_file.
  pose proof (body_outcome w file_path job_id metadata) as Hb.
  destruct (body w file_path job_id metadata initial) as [[[]|e] st1];
    unfold body_left in Hb; cbn [fst snd] in Hb.
  - destruct Hb as [Ho [_ [c Hc]]]. cbn [fst snd].
    split; [reflexivity|]. split; [lia|]. split; [eauto|]. split.
    + intros st Hst. injection Hst as <-. eauto.
    + intros e st Hst. discriminate.
  - assert (Hs : serializable (PDict (error_record job_id e)) = true)
      by reflexivity.
    assert (Hn : (opens st1 <= 1)%nat)
      by (destruct Hb as [[-> _]|[-> _]]; lia).
    unfold save. rewrite Hs.
    destruct (open_error w (opens st1)) eqn:Eo; cbn [fst snd opens file].
    + split; [reflexivity|]. split; [lia|].
      split; [intros Hall; rewrite Hall in Eo; discriminate|].
      split; [intros st Hst; discriminate|].
      intros e' st' H. injection H as <- <-. split; [congruence|].
      intros _ c.
      destruct Hb as [[_ ->]|[_ [[-> _]|[-> _]]]]; discriminate.
    + split; [reflexivity|]. split; [lia|]. split; [eauto|].
      split; [intros st Hst; discriminate|].
      intros e' st' H. injection H as <- <-. split; [reflexivity|].
      congruence.
Qed.

(** ** The transcript gate *)

Lemma after_transcription_calls w file_path job_id metadata mock :
  forallb early_call (snd (after_transcription w file_path job_id metadata mock))
  = true.
Proof.
  unfold after_transcription, metadata_stage, transcription_stage.
  destruct (new_AudioProcessor w); reflexivity.
Qed.

Lemma early_no_later calls :
  forallb early_call calls = true -> existsb later_stage calls = false.
Proof.
  induction calls as [|c r IH]; simpl; [reflexivity|].
  intros H. apply andb_true_iff in H. destruct H as [Hc Hr].
  rewrite (IH Hr). unfold early_call in Hc. apply andb_true_iff in Hc.
  destruct Hc as [Hc _]. apply negb_true_iff in Hc. rewrite Hc. reflexivity.
Qed.

Lemma early_first_write calls c rest :
  forallb early_call calls = true ->
  find is_write (calls ++ Write c :: rest) = Some (Write c).
Proof.
  induction calls as [|x r IH]; simpl; [reflexivity|].
  intros H. apply andb_true_iff in H. destruct H as [Hx Hr].
  unfold early_call in Hx. apply andb_true_iff in Hx. destruct Hx as [_ Hx].
  apply negb_true_iff in Hx. rewrite Hx. apply IH. exact Hr.
Qed.

Lemma gate_closed results :
  truthy_get results "transcript" = false \/
  (exists v, get results "transcript" = Some v /\ error_marker v) ->
  no_valid_transcript results = Ok true.
Proof.
  unfold no_valid_transcript. intros [H|[v [Hv [s [-> Hs]]]]].
  - rewrite H. reflexivity.
  - unfold truthy_get. rewrite Hv. cbn [truthy].
    destruct (String.eqb s ""); cbn [negb]; [reflexivity|].
    rewrite Hs. reflexivity.
Qed.

(** C1, as the code has it.  When the transcript left by the transcription
    stage is empty (or any false value) or begins with ["Error:"], the
    orchestrator returns without a single call to diarization, topic
    detection or summarization, and the first thing it writes is the record
    as that stage left it.  If that write succeeds it is the only one, and
    the persisted record carries the stage's transcript unchanged: the
    error-marker string when there is one, the empty transcript otherwise. *)
Theorem transcript_gate_ends_the_run
    (w : World) (file_path job_id : string) (metadata : option dict)
    (mock : bool) :
  new_WhisperTranscriber w = Ok mock ->
  let results :=
    fst (after_transcription w file_path job_id metadata mock) in
  (truthy_get results "transcript" = false \/
   exists v, get results "transcript" = Some v /\ error_marker v) ->
  let out := process_audio_file w file_path job_id metadata initial in
  fst out = Ok tt /\
  existsb later_stage (log (snd out)) = false /\
  find is_write (log (snd out)) = Some (Write results) /\
  (open_error w 0 = None -> serializable (PDict results) = true ->
   file (snd out) = Complete results /\ opens (snd out) = 1%nat).
Proof.
  intros Hn results Hgate out.
  pose proof (gate_closed results Hgate) as Hg.
  pose proof (after_transcription_calls w file_path job_id metadata mock)
    as Hc.
  subst out results. unfold process_audio_file, body. rewrite Hn.
  destruct (after_transcription w file_path job_id metadata mock)
    as [results calls]. cbn [fst snd] in *. rewrite Hg.
  unfold save, logged, initial. cbn [opens file log app].
  assert (Hs : serializable (PDict (error_record job_id
                 (Exception "Object is not JSON serializable"))) = true)
    by reflexivity.
  destruct (open_error w 0) as [msg|] eqn:E0.
  - cbn [opens file log fst snd].
    assert (Hs' : serializable (PDict (error_record job_id
                    (Exception msg))) = true) by reflexivity.
    rewrite Hs'.
    destruct (open_error w 1); cbn [opens file log fst snd];
      rewrite <- ?app_assoc; cbn [app];
      (split; [reflexivity|]); (split;
        [rewrite existsb_app, (early_no_later _ Hc); reflexivity|]);
      (split; [apply early_first_write; exact Hc | discriminate]).
  - destruct (serializable (PDict results)); cbn [opens file log fst snd].
    + split; [reflexivity|].
      split; [rewrite existsb_app, (early_no_later _ Hc); reflexivity|].
      split; [apply early_first_write; exact Hc | auto].
    + rewrite Hs.
      destruct (open_error w 1); cbn [opens file log fst snd];
        rewrite <- ?app_assoc; cbn [app];
        (split; [reflexivity|]); (split;
          [rewrite existsb_app, (early_no_later _ Hc); reflexivity|]);
        (split; [apply early_first_write; exact Hc | discriminate]).
Qed.

(** ** The stages after the gate *)

Lemma no_valid_transcript_ext r r' :
  get r' "transcript" = get r "transcript" ->
  no_valid_transcript r' = no_valid_transcript r.
Proof.
  intros H. unfold no_valid_transcript, truthy_get. rewrite H. reflexivity.
Qed.

Lemma diarization_stage_quiet w file_path results :
  quiet (snd (diarization_stage w file_path results)).
Proof.
  unfold diarization_stage, quiet.
  destruct (token_set w); [|reflexivity].
  destruct (get results "segments") as [[| | | |[|s l]| | |]|];
    try reflexivity.
  destruct (total_audio_duration 0 (s :: l)); [|reflexivity].
  destruct (Qltb a 10 || _); [reflexivity|].
  destruct (new_SpeakerDiarization w); [|reflexivity].
  destruct (diarize w file_path _); reflexivity.
Qed.

Lemma topic_stage_spec w r :
  no_valid_transcript r = Ok false ->
  exists v calls,
    topic_stage w r = Ok (set r "topics" v, calls) /\ quiet calls.
Proof.
  intros H. unfold topic_stage, valid_transcript. rewrite H.
  cbn [bind negb].
  destruct (word_count r <? 30)%nat; [eexists; eexists; split; reflexivity|].
  destruct (new_TopicDetector w);
    [|eexists; eexists; split; reflexivity].
  destruct (detect_topics w (transcript_of r)) as [[| | | |l| | |]|];
    try (eexists; eexists; split; reflexivity).
  destruct (topic_timer_fired w); eexists; eexists; split; reflexivity.
Qed.

Lemma extractive_part_spec w r :
  exists v,
    fst (extractive_part w r) = set r "extractive_summary" v /\
    quiet (snd (extractive_part w r)).
Proof.
  unfold extractive_part.
  destruct (new_ExtractiveSummarizer w); [|eexists; split; reflexivity].
  destruct (extractive_summarize w (transcript_of r)) as [[| | | | |d| |]|];
    try (eexists; split; reflexivity).
  destruct (get d "summary"); eexists; split; reflexivity.
Qed.

Lemma abstractive_part_spec w r :
  exists v,
    fst (abstractive_part w r) = set r "abstractive_summary" v /\
    quiet (snd (abstractive_part w r)).
Proof.
  unfold abstractive_part.
  destruct (new_AbstractiveSummarizer w); [|eexists; split; reflexivity].
  destruct (abstractive_summarize w (transcript_of r)) as [[| | | | |d| |]|];
    try (eexists; split; reflexivity).
  destruct (get d "summary"); eexists; split; reflexivity.
Qed.

Lemma quiet_app c1 c2 : quiet c1 -> quiet c2 -> quiet (c1 ++ c2).
Proof. unfold quiet. intros H1 H2. rewrite forallb_app, H1, H2. reflexivity. Qed.

Lemma summarization_stage_spec w r :
  no_valid_transcript r = Ok false ->
  exists r' calls,
    summarization_stage w r = Ok (r', calls) /\ quiet calls /\
    get r' "abstractive_summary" <> None /\
    get r' "extractive_summary" <> None /\
    (forall k, k <> "abstractive_summary" -> k <> "extractive_summary" ->
               get r' k = get r k).
Proof.
  intros H. unfold summarization_stage, valid_transcript. rewrite H.
  cbn [bind negb].
  destruct (word_count r <? 30)%nat.
  - eexists. eexists. split; [reflexivity|]. split; [reflexivity|].
    unfold timed_out_summaries.
    destruct (summarization_timer_fired w);
      (split; [dict_simpl; discriminate|]);
      (split; [dict_simpl; discriminate|]);
      intros k H1 H2; repeat (rewrite get_set_neq by congruence); reflexivity.
  - destruct (extractive_part_spec w r) as [v1 [E1 Q1]].
    destruct (extractive_part w r) as [r1 c1]. cbn [fst snd] in *. subst r1.
    destruct (abstractive_part_spec w (set r "extractive_summary" v1))
      as [v2 [E2 Q2]].
    destruct (abstractive_part w (set r "extractive_summary" v1)) as [r2 c2].
    cbn [fst snd] in *. subst r2.
    eexists. eexists. split; [reflexivity|].
    split; [apply quiet_app; assumption|].
    unfold timed_out_summaries.
    destruct (summarization_timer_fired w);
      (split; [dict_simpl; discriminate|]);
      (split; [dict_simpl; discriminate|]);
      intros k H1 H2; repeat (rewrite get_set_neq by congruence); reflexivity.
Qed.

Lemma quiet_first_write calls c rest :
  quiet calls -> find is_write (calls ++ Write c :: rest) = Some (Write c).
Proof.
  unfold quiet. induction calls as [|x r IH]; simpl; [reflexivity|].
  intros H. apply andb_true_iff in H. destruct H as [Hx Hr].
  apply negb_true_iff in Hx. rewrite Hx. apply IH. exact Hr.
Qed.

Lemma early_quiet calls : forallb early_call calls = true -> quiet calls.
Proof.
  unfold quiet. induction calls as [|x r IH]; simpl; [reflexivity|].
  intros H. apply andb_true_iff in H. destruct H as [Hx Hr].
  unfold early_call in Hx. apply andb_true_iff in Hx. destruct Hx as [_ Hx].
  rewrite Hx, (IH Hr). reflexivity.
Qed.

Lemma after_transcription_status w file_path job_id metadata mock :
  get (fst (after_transcription w file_path job_id metadata mock)) "status"
  = Some (PStr "completed").
Proof.
  unfold after_transcription, metadata_stage, transcription_stage.
  cbn [fst snd].
  destruct (transcribe w file_path) as [[| | | | | | |]|];
    destruct mock; cbn [fst];
    destruct (new_AudioProcessor w);
    try destruct (extract_metadata w file_path) as [[| | | | | | |]|];
    cbn [fst bind]; dict_simpl; reflexivity.
Qed.

(** ** A run that reaches the diarizer *)

Lemma process_audio_file_returns w file_path job_id metadata st :
  fst (process_audio_file w file_path job_id metadata st) = Ok tt.
Proof.
  unfold process_audio_file.
  destruct (body w file_path job_id metadata st) as [[u|e] st1];
    [reflexivity|].
  destruct (save w (error_record job_id e) st1) as [[u|e'] st2]; reflexivity.
Qed.

Lemma finish_save_log w job_id c st :
  exists rest,
    log (snd (finish w job_id (save w c st))) = (log st ++ Write c :: rest)%list.
Proof.
  unfold finish, save.
  destruct (open_error w (opens st)); cbn [fst snd log opens].
  - destruct (open_error w (S (opens st)));
      [|destruct (serializable _)]; cbn [fst snd log];
      rewrite <- app_assoc; eexists; reflexivity.
  - destruct (serializable (PDict c)); cbn [fst snd log opens].
    + exists []. reflexivity.
    + destruct (open_error w (S (opens st)));
        [|destruct (serializable _)]; cbn [fst snd log];
        rewrite <- app_assoc; eexists; reflexivity.
Qed.

Lemma answered_run_completes
    (w : World) (file_path job_id : string) (metadata : option dict)
    (mock : bool) (r : Diarization.DiarizeResult) :
  new_WhisperTranscriber w = Ok mock ->
  let results :=
    fst (after_transcription w file_path job_id metadata mock) in
  no_valid_transcript results = Ok false ->
  gates_pass w results = true ->
  new_SpeakerDiarization w = Ok tt ->
  diarize w file_path (transcript_data results) = Ok (diarize_output r) ->
  let out := process_audio_file w file_path job_id metadata initial in
  fst out = Ok tt /\
  exists c,
    find is_write (log (snd out)) = Some (Write c) /\
    get c "status" = Some (PStr "completed") /\
    get c "segments" = get results "segments" /\
    get c "topics" <> None /\
    get c "abstractive_summary" <> None /\
    get c "extractive_summary" <> None.
Proof.
  intros Hn results Hv Hg Hd Hr out.
  split; [apply process_audio_file_returns|].
  pose proof (after_transcription_status w file_path job_id metadata mock)
    as Hst.
  pose proof (after_transcription_calls w file_path job_id metadata mock)
    as Hc. apply early_quiet in Hc.
  destruct (diarization_stage_segments w file_path results)
    as [_ [Hother Hans]].
  destruct (Hans r Hg Hd Hr) as [Hseg [Hstatus _]].
  pose proof (diarization_stage_quiet w file_path results) as Hq1.
  subst out. fold results in Hst.
  change (process_audio_file w file_path job_id metadata initial)
    with (finish w job_id (body w file_path job_id metadata initial)).
  unfold body. rewrite Hn. subst results.
  destruct (after_transcription w file_path job_id metadata mock)
    as [results calls]. cbn [fst snd] in *. rewrite Hv.
  destruct (diarization_stage w file_path results) as [results1 calls1].
  cbn [fst snd] in *.
  assert (Hv1 : no_valid_transcript results1 = Ok false).
  { rewrite <- Hv. apply no_valid_transcript_ext. apply Hother; discriminate. }
  destruct (topic_stage_spec w results1 Hv1) as [v [calls2 [Et Hq2]]].
  rewrite Et.
  assert (Hv2 : no_valid_transcript (set results1 "topics" v) = Ok false).
  { rewrite <- Hv1. apply no_valid_transcript_ext. apply get_set_neq.
    discriminate. }
  destruct (summarization_stage_spec w _ Hv2)
    as [r3 [calls3 [Es [Hq3 [Ha [He Hk]]]]]].
  rewrite Es.
  destruct (finish_save_log w job_id r3
              (logged calls3 (logged calls2 (logged calls1
                 (logged calls initial))))) as [rest Hlog].
  exists r3. rewrite Hlog. split; [|split; [|split; [|split; [|split]]]].
  - apply quiet_first_write. cbn [logged log initial app].
    repeat apply quiet_app; assumption.
  - rewrite Hk, get_set_neq, Hstatus by discriminate. exact Hst.
  - rewrite Hk, get_set_neq by discriminate. exact Hseg.
  - rewrite Hk, get_set_eq by discriminate. discriminate.
  - exact Ha.
  - exact He.
Qed.

(** C5. In a job that reaches the diarization stage with the gates passed,
    the record's segments stay as transcription gave them unless the
    diarizer returned a dictionary whose ["segments"] is a non-empty list,
    which then replaces them.  An answer of the repository's diarizer
    (processed segments, or its single [SPEAKER_UNKNOWN] segment) is not a
    hard failure: the segments are kept, the answer is noted as an
    [{error: reason}] diarization field, and the job goes on through topic
    detection and summarization to write a record whose status is
    ["completed"]. *)
Theorem diarization_keeps_or_replaces_segments
    (w : World) (file_path job_id : string) (metadata : option dict)
    (mock : bool) :
  new_WhisperTranscriber w = Ok mock ->
  let results :=
    fst (after_transcription w file_path job_id metadata mock) in
  no_valid_transcript results = Ok false ->
  gates_pass w results = true ->
  let staged := fst (diarization_stage w file_path results) in
  let out := process_audio_file w file_path job_id metadata initial in
  (get staged "segments" = get results "segments" \/
   exists d l,
     diarize w file_path (transcript_data results) = Ok (PDict d) /\
     get d "segments" = Some (PList l) /\ l <> [] /\
     get staged "segments" = Some (PList l)) /\
  (forall r,
     new_SpeakerDiarization w = Ok tt ->
     diarize w file_path (transcript_data results)
     = Ok (diarize_output r) ->
     get staged "segments" = get results "segments" /\
     (exists reason, get staged "diarization" = Some (error_dict reason)) /\
     fst out = Ok tt /\
     exists c,
       find is_write (log (snd out)) = Some (Write c) /\
       get c "status" = Some (PStr "completed") /\
       get c "segments" = get results "segments" /\
       get c "topics" <> None /\
       get c "abstractive_summary" <> None /\
       get c "extractive_summary" <> None).
Proof.
  intros Hn results Hv Hg staged out.
  destruct (diarization_stage_segments w file_path results)
    as [Hseg [_ Hans]].
  split; [exact Hseg|].
  intros r Hd Hr. destruct (Hans r Hg Hd Hr) as [H1 [_ [_ H4]]].
  split; [exact H1|]. split; [exact H4|].
  exact (answered_run_completes w file_path job_id metadata mock r
           Hn Hv Hg Hd Hr).
Qed.

(** ** Sample runs *)

Lemma transcript_gate_ends_the_run_witness :
  let results :=
    fst (after_transcription silent_studio "uploads/talk.wav" "job" None
           false) in
  truthy_get results "transcript" = false /\
  fst silent_run = Ok tt /\
  existsb later_stage (log (snd silent_run)) = false /\
  find is_write (log (snd silent_run)) = Some (Write results) /\
  file (snd silent_run) = Complete results /\
  opens (snd silent_run) = 1%nat.
Proof.
  intros results.
  destruct (transcript_gate_ends_the_run silent_studio "uploads/talk.wav"
              "job" None false eq_refl (or_introl eq_refl))
    as [H1 [H2 [H3 H4]]].
  destruct (H4 eq_refl eq_refl) as [H5 H6].
  repeat split; assumption.
Defined.

(** The claim as the specification words it fails on a silent recording:
    the transcriber returns an empty text, the gate closes, and the record
    persisted carries the empty transcript, which is no error marker. *)
Lemma empty_transcript_is_persisted_as_it_is :
  truthy_get
    (fst (after_transcription silent_studio "uploads/talk.wav" "job" None
            false)) "transcript" = false /\
  exists c,
    file (snd silent_run) = Complete c /\
    get c "transcript" = Some (PStr "") /\
    ~ error_marker (PStr "").
Proof.
  split; [reflexivity|]. eexists. split; [reflexivity|].
  split; [reflexivity|].
  intros [s [E H]]. injection E as <-. discriminate H.
Qed.

Lemma orchestrator_always_returns_witness :
  (forall n, open_error studio n = None) /\
  fst studio_run = Ok tt /\
  (1 <= opens (snd studio_run) <= 2)%nat /\
  exists c, file (snd studio_run) = Complete c.
Proof.
  destruct (orchestrator_always_returns studio "uploads/talk.wav" "job" None)
    as [H1 [H2 [H3 _]]].
  split; [intros n; reflexivity|].
  split; [exact H1|]. split; [exact H2|].
  apply H3. intros n. reflexivity.
Defined.

(** The claim as the specification words it fails when the result file
    cannot be opened: the final write raises, the outer handler's write
    raises as well and is only logged, and the job ends with no artifact. *)
Lemma no_artifact_without_uploads :
  fst lost_run = Ok tt /\
  opens (snd lost_run) = 2%nat /\
  file (snd lost_run) = Absent /\
  ~ exists c, file (snd lost_run) = Complete c.
Proof.
  assert (E : file (snd lost_run) = Absent) by (vm_compute; reflexivity).
  split; [vm_compute; reflexivity|]. split; [vm_compute; reflexivity|].
  split; [exact E|]. intros [c H]. rewrite E in H. discriminate H.
Qed.

Lemma diarization_keeps_or_replaces_segments_witness :
  let results :=
    fst (after_transcription studio "uploads/talk.wav" "job" None false) in
  let staged := fst (diarization_stage studio "uploads/talk.wav" results) in
  no_valid_transcript results = Ok false /\
  gates_pass studio results = true /\
  get staged "segments" = get results "segments" /\
  (exists reason, get staged "diarization" = Some (error_dict reason)) /\
  fst studio_run = Ok tt /\
  exists c,
    find is_write (log (snd studio_run)) = Some (Write c) /\
    get c "status" = Some (PStr "completed") /\
    get c "segments" = get results "segments" /\
    get c "topics" <> None /\
    get c "abstractive_summary" <> None /\
    get c "extractive_summary" <> None.
Proof.
  intros results staged.
  destruct (diarization_keeps_or_replaces_segments studio "uploads/talk.wav"
              "job" None false eq_refl eq_refl eq_refl) as [_ H].
  destruct (H (Diarization.SpeakerUnknown
                 "Diarization disabled or failed to initialize. Check HF_ACCESS_TOKEN.")
              eq_refl eq_refl) as [H1 [H2 [H3 H4]]].
  split; [reflexivity|]. split; [reflexivity|].
  split; [exact H1|]. split; [exact H2|]. split; [exact H3 | exact H4].
Defined.

Lemma diarization_gated_witness :
  let results :=
    fst (after_transcription studio "uploads/talk.wav" "job" None false) in
  let silent :=
    fst (after_transcription silent_studio "uploads/talk.wav" "job" None
           false) in
  gates_pass studio results = true /\
  gates_pass studio silent = false /\
  snd (diarization_stage studio "uploads/talk.wav" silent) = [] /\
  exists reason,
    get (fst (diarization_stage studio "uploads/talk.wav" silent))
      "diarization" = Some (PDict [("error", PStr reason)]).
Proof.
  intros results silent.
  destruct (diarization_gated studio "uploads/talk.wav" results)
    as [H1 _].
  destruct (diarization_gated studio "uploads/talk.wav" silent)
    as [_ [H2 _]].
  split; [exact (H1 eq_refl)|]. split; [reflexivity|].
  exact (H2 eq_refl).
Defined.

(** ** The keys no stage writes, and the paths that end early *)

Lemma metadata_stage_other w file_path metadata results k :
  k <> "warning" -> k <> "metadata" ->
  get (fst (metadata_stage w file_path metadata results)) k = get results k.
Proof.
  intros H1 H2. unfold metadata_stage. cbn [fst].
  destruct (new_AudioProcessor w); cbn [fst].
  - destruct (extract_metadata w file_path) as [[| | | | |d| |]|];
      cbn [bind fst]; repeat (rewrite get_set_neq by congruence); reflexivity.
  - repeat (rewrite get_set_neq by congruence). reflexivity.
Qed.

Lemma transcription_stage_other w file_path results k :
  k <> "transcript" -> k <> "segments" ->
  get (fst (transcription_stage w file_path results)) k = get results k.
Proof.
  intros H1 H2. unfold transcription_stage. cbn [fst].
  destruct (transcribe w file_path) as [[| | | | |d| |]|];
    repeat (rewrite get_set_neq by congruence); reflexivity.
Qed.

Lemma after_transcription_other w file_path job_id metadata mock k :
  k <> "warning" -> k <> "metadata" -> k <> "transcript" -> k <> "segments" ->
  get (fst (after_transcription w file_path job_id metadata mock)) k
  = get (initial_results job_id) k.
Proof.
  intros H1 H2 H3 H4. unfold after_transcription.
  pose proof (metadata_stage_other w file_path metadata
                (initial_results job_id) k H1 H2) as Hm.
  destruct (metadata_stage w file_path metadata (initial_results job_id))
    as [results calls]. cbn [fst] in Hm.
  match goal with
  | |- context [transcription_stage w file_path ?r] =>
      pose proof (transcription_stage_other w file_path r k H3 H4) as Ht;
      destruct (transcription_stage w file_path r) as [results2 calls2]
  end.
  cbn [fst] in *. rewrite Ht.
  destruct mock; [rewrite get_set_neq by congruence|]; exact Hm.
Qed.

Lemma topic_stage_other w r r' calls k :
  topic_stage w r = Ok (r', calls) -> k <> "topics" -> get r' k = get r k.
Proof.
  unfold topic_stage. intros H Hk.
  destruct (valid_transcript r) as [[|]|e]; cbn [bind] in H;
    [| |discriminate H].
  - destruct (word_count r <? 30)%nat.
    + injection H as <- _. apply get_set_neq. congruence.
    + destruct (new_TopicDetector w).
      * injection H as <- _.
        destruct (detect_topics w (transcript_of r)) as [[| | | |l| | |]|];
          try (apply get_set_neq; congruence).
        destruct (topic_timer_fired w); apply get_set_neq; congruence.
      * injection H as <- _. apply get_set_neq. congruence.
  - injection H as <- _. apply get_set_neq. congruence.
Qed.

Lemma summarization_stage_other w r r' calls k :
  summarization_stage w r = Ok (r', calls) ->
  k <> "abstractive_summary" -> k <> "extractive_summary" ->
  get r' k = get r k.
Proof.
  unfold summarization_stage. intros H H1 H2.
  destruct (valid_transcript r) as [[|]|e]; cbn [bind] in H;
    [| |discriminate H].
  - destruct (word_count r <? 30)%nat.
    + injection H as <- _. unfold timed_out_summaries.
      destruct (summarization_timer_fired w);
        repeat (rewrite get_set_neq by congruence); reflexivity.
    + destruct (extractive_part_spec w r) as [v1 [E1 _]].
      destruct (extractive_part w r) as [r1 c1]. cbn [fst] in E1. subst r1.
      destruct (abstractive_part_spec w (set r "extractive_summary" v1))
        as [v2 [E2 _]].
      destruct (abstractive_part w (set r "extractive_summary" v1))
        as [r2 c2]. cbn [fst] in E2. subst r2.
      injection H as <- _. unfold timed_out_summaries.
      destruct (summarization_timer_fired w);
        repeat (rewrite get_set_neq by congruence); reflexivity.
  - injection H as <- _.
    repeat (rewrite get_set_neq by congruence). reflexivity.
Qed.

Lemma kept_key_neq k : kept_key k ->
  k <> "warning" /\ k <> "metadata" /\ k <> "transcript" /\ k <> "segments"
  /\ k <> "diarization" /\ k <> "topics" /\ k <> "abstractive_summary"
  /\ k <> "extractive_summary".
Proof. intros [H|[H|H]]; subst k; repeat split; discriminate. Qed.

Lemma save_file w content st c :
  file (snd (save w content st)) = Complete c ->
  c = content \/ file st = Complete c.
Proof.
  unfold save. destruct (open_error w (opens st)); cbn [snd file];
    [auto|].
  destruct (serializable (PDict content)); cbn [snd file]; [|discriminate].
  intros H. injection H as <-. auto.
Qed.

Lemma body_file w file_path job_id metadata c k :
  file (snd (body w file_path job_id metadata initial)) = Complete c ->
  kept_key k -> get c k = get (initial_results job_id) k.
Proof.
  intros H Hk. destruct (kept_key_neq k Hk)
    as [N1 [N2 [N3 [N4 [N5 [N6 [N7 N8]]]]]]].
  unfold body in H. destruct (new_WhisperTranscriber w) as [mock|e].
  - pose proof (after_transcription_other w file_path job_id metadata mock k
                  N1 N2 N3 N4) as Ha.
    destruct (after_transcription w file_path job_id metadata mock)
      as [results calls]. cbn [fst] in Ha.
    destruct (no_valid_transcript results) as [[|]|e].
    + apply save_file in H. destruct H as [->|H]; [exact Ha|discriminate H].
    + pose proof (diarization_stage_other w file_path results k N5 N4) as Hd.
      destruct (diarization_stage w file_path results) as [results1 calls1].
      cbn [fst] in Hd.
      destruct (topic_stage w results1) as [[results2 calls2]|e] eqn:Et;
        [|discriminate H].
      pose proof (topic_stage_other w _ _ _ k Et N6) as Ht.
      destruct (summarization_stage w results2) as [[results3 calls3]|e]
        eqn:Es; [|discriminate H].
      pose proof (summarization_stage_other w _ _ _ k Es N7 N8) as Hs.
      apply save_file in H. destruct H as [->|H]; [|discriminate H].
      congruence.
    + discriminate H.
  - pose proof (metadata_stage_other w file_path metadata
                  (initial_results job_id) k N1 N2) as Hm.
    destruct (metadata_stage w file_path metadata (initial_results job_id))
      as [results calls]. cbn [fst] in Hm.
    apply save_file in H. destruct H as [->|H]; [|discriminate H].
    unfold transcriber_failure.
    repeat (rewrite get_set_neq by congruence). exact Hm.
Qed.

Lemma finish_save_writes w job_id c st :
  exists rest,
    log (snd (finish w job_id (save w c st)))
    = (log st ++ Write c :: rest)%list /\
    forallb is_write rest = true.
Proof.
  unfold finish, save.
  destruct (open_error w (opens st)); cbn [fst snd log opens].
  - destruct (open_error w (S (opens st)));
      [|destruct (serializable _)]; cbn [fst snd log];
      rewrite <- app_assoc; eexists; split; reflexivity.
  - destruct (serializable (PDict c)); cbn [fst snd log opens].
    + exists []. split; reflexivity.
    + destruct (open_error w (S (opens st)));
        [|destruct (serializable _)]; cbn [fst snd log];
        rewrite <- app_assoc; eexists; split; reflexivity.
Qed.

Lemma existsb_writes (p : Call -> bool) rest :
  (forall c, p (Write c) = false) ->
  forallb is_write rest = true -> existsb p rest = false.
Proof.
  intros Hp. induction rest as [|x r IH]; simpl; [reflexivity|].
  intros H. apply andb_true_iff in H. destruct H as [Hx Hr].
  destruct x; try discriminate Hx. rewrite Hp. apply IH. exact Hr.
Qed.

Lemma metadata_stage_calls w file_path metadata results :
  forallb (fun c => match c with
                    | AudioProcessor_new | AudioProcessor_extract_metadata => true
                    | _ => false
                    end)
          (snd (metadata_stage w file_path metadata results)) = true.
Proof.
  unfold metadata_stage. cbn [snd].
  destruct (new_AudioProcessor w); reflexivity.
Qed.

(** X18. A transcriber that cannot be built ends the job at once: nothing is
    transcribed and no later stage is called, and the first record written
    keeps the status [completed]; it says what happened only in its
    ["warning"] and in the fixed error text it carries as transcript, with
    no segments and without the keys of the later stages. *)
Theorem transcriber_failure_ends_the_run
    (w : World) (file_path job_id : string) (metadata : option dict)
    (e : Exn) :
  new_WhisperTranscriber w = Raise e ->
  let out := process_audio_file w file_path job_id metadata initial in
  fst out = Ok tt /\
  existsb later_stage (log (snd out)) = false /\
  ~ In WhisperTranscriber_transcribe (log (snd out)) /\
  exists c,
    find is_write (log (snd out)) = Some (Write c) /\
    get c "job_id" = Some (PStr job_id) /\
    get c "status" = Some (PStr "completed") /\
    get c "warning"
    = Some (PStr ("Error initializing transcriber: " ++ str_of_exn e)) /\
    get c "transcript"
    = Some (PStr "Error: Transcription failed due to initialization error.") /\
    get c "segments" = Some (PList []) /\
    get c "diarization" = None /\ get c "topics" = None /\
    get c "abstractive_summary" = None /\ get c "extractive_summary" = None.
Proof.
  intros Hn out. split; [apply process_audio_file_returns|].
  subst out.
  change (process_audio_file w file_path job_id metadata initial)
    with (finish w job_id (body w file_path job_id metadata initial)).
  unfold body. rewrite Hn.
  pose proof (metadata_stage_calls w file_path metadata
                (initial_results job_id)) as Hc.
  pose proof (fun k => metadata_stage_other w file_path metadata
                         (initial_results job_id) k) as Ho.
  destruct (metadata_stage w file_path metadata (initial_results job_id))
    as [results calls]. cbn [fst snd] in *.
  destruct (finish_save_writes w job_id (transcriber_failure e results)
              (logged (calls ++ [WhisperTranscriber_new]) initial))
    as [rest [Hlog Hrest]].
  rewrite Hlog. cbn [logged log initial app].
  assert (Hq : forall p : Call -> bool,
            p AudioProcessor_new = false ->
            p AudioProcessor_extract_metadata = false ->
            p WhisperTranscriber_new = false ->
            existsb p (calls ++ [WhisperTranscriber_new]) = false).
  { intros p P1 P2 P3. rewrite existsb_app. cbn [existsb]. rewrite P3.
    cbn [orb]. rewrite orb_false_r. clear Hlog.
    induction calls as [|x r IH]; [reflexivity|].
    cbn [forallb] in Hc. apply andb_true_iff in Hc. destruct Hc as [Hx Hr].
    cbn [existsb]. rewrite (IH Hr), orb_false_r.
    destruct x; try discriminate Hx; assumption. }
  split; [|split].
  - rewrite existsb_app. rewrite (Hq later_stage) by reflexivity.
    cbn [existsb later_stage orb].
    apply existsb_writes; [reflexivity | exact Hrest].
  - intros Hin.
    assert (Hex : existsb (fun c => match c with
                                    | WhisperTranscriber_transcribe => true
                                    | _ => false
                                    end)
                    ((calls ++ [WhisperTranscriber_new])
                     ++ Write (transcriber_failure e results) :: rest) = true).
    { apply existsb_exists. eexists. split; [exact Hin | reflexivity]. }
    rewrite existsb_app, Hq in Hex by reflexivity.
    cbn [existsb orb] in Hex.
    rewrite existsb_writes in Hex; [discriminate Hex | reflexivity | exact Hrest].
  - exists (transcriber_failure e results). split.
    + apply quiet_first_write. unfold quiet.
      specialize (Hq is_write eq_refl eq_refl eq_refl).
      clear - Hq. induction (calls ++ [WhisperTranscriber_new])%list
        as [|x r IH]; [reflexivity|].
      cbn [existsb] in Hq. apply orb_false_iff in Hq. destruct Hq as [Hx Hr].
      cbn [forallb]. rewrite Hx, (IH Hr). reflexivity.
    + unfold transcriber_failure.
      repeat split; dict_simpl; try reflexivity;
        rewrite ?Ho by discriminate; reflexivity.
Qed.

Lemma transcriber_failure_ends_the_run_witness :
  fst (process_audio_file studio_without_whisper "uploads/talk.wav" "job"
         None initial) = Ok tt /\
  existsb later_stage
    (log (snd (process_audio_file studio_without_whisper "uploads/talk.wav"
                 "job" None initial))) = false.
Proof.
  destruct (transcriber_failure_ends_the_run studio_without_whisper
              "uploads/talk.wav" "job" None
              (Exception "No module named 'whisper'") eq_refl)
    as [H1 [H2 _]].
  split; assumption.
Defined.

Lemma word_count_ext r r' :
  get r' "transcript" = get r "transcript" -> word_count r' = word_count r.
Proof. intros H. unfold word_count. rewrite H. reflexivity. Qed.

Lemma diarization_stage_calls w file_path results :
  existsb text_model_call (snd (diarization_stage w file_path results))
  = false.
Proof.
  unfold diarization_stage.
  destruct (token_set w); [|reflexivity].
  destruct (get results "segments") as [[| | | |[|s l]| | |]|];
    try reflexivity.
  destruct (total_audio_duration 0 (s :: l)); [|reflexivity].
  destruct (Qltb a 10 || _); [reflexivity|].
  destruct (new_SpeakerDiarization w); [|reflexivity].
  destruct (diarize w file_path _); reflexivity.
Qed.

Lemma early_no_text_model calls :
  forallb early_call calls = true -> existsb text_model_call calls = false.
Proof.
  induction calls as [|x r IH]; simpl; [reflexivity|].
  intros H. apply andb_true_iff in H. destruct H as [Hx Hr].
  rewrite (IH Hr), orb_false_r. destruct x; try reflexivity; discriminate Hx.
Qed.



End AppFacts.

(** * Properties of the summarizers ([Backend/summarization.py]) *)
Module SummarizationFacts.
Import Py Summarization SummarizationNotions.
Local Open Scope py_scope.
Local Open Scope string_scope.

Section Shapes.
Variable P : Dict -> Prop.

Lemma shaped_ok d : P d -> shaped P (Ok d).
Proof. intros H d' [= <-]. exact H. Qed.

Lemma shaped_raise e : shaped P (Raise e).
Proof. intros d H. discriminate H. Qed.

Lemma shaped_bind {A} (c : Res A) (k : A -> Res Dict) :
  (forall a, shaped P (k a)) -> shaped P (bind c k).
Proof. intros H. destruct c; simpl; [apply H | apply shaped_raise]. Qed.

Lemma shaped_if (b : bool) (x y : Res Dict) :
  shaped P x -> shaped P y -> shaped P (if b then x else y).
Proof. destruct b; auto. Qed.

Lemma returns_shaped r : returns P r -> shaped P r.
Proof. intros [d [-> H]] d' [= <-]. exact H. Qed.

(** A [try] whose handler always returns a good dictionary returns one. *)
Lemma guarded (body : Res Dict) (handler : Exn -> Res Dict) :
  shaped P body -> (forall e, returns P (handler e)) ->
  returns P (try_except body handler).
Proof.
  intros Hb Hh. destruct body as [d|e]; simpl; [|apply Hh].
  exists d. split; [reflexivity | apply Hb; reflexivity].
Qed.

Lemma shaped_try (body : Res Dict) (handler : Exn -> Res Dict) :
  shaped P body -> (forall e, shaped P (handler e)) ->
  shaped P (try_except body handler).
Proof. intros Hb Hh. destruct body as [d|e]; simpl; [exact Hb | apply Hh]. Qed.

End Shapes.

Lemma default_points_nonempty (l : list string) (x : string) :
  match l with [] => [x] | _ => l end <> [].
Proof. destruct l; discriminate. Qed.

Section WithLibraries.
Variable L : Libraries.

(** *** ExtractiveSummarizer *)

Lemma ext_fallback_returns text :
  returns points_dict (ext_fallback_summarize L text).
Proof.
  unfold ext_fallback_summarize. apply guarded.
  - apply shaped_bind. intros cleaned. apply shaped_bind. intros sentences.
    apply shaped_ok. eexists. split; [reflexivity|].
    apply default_points_nonempty.
  - intros e. eexists. split; [reflexivity|]. eexists.
    split; [reflexivity | discriminate].
Qed.

Lemma ext_summarize_returns text : returns points_dict (ext_summarize L text).
Proof.
  unfold ext_summarize.
  destruct (SUMY_AVAILABLE L); cbn [negb]; [|apply ext_fallback_returns].
  apply guarded; [|intros e; apply ext_fallback_returns].
  apply shaped_bind. intros cleaned_text.
  assert (Hin : shaped points_dict
            (parser <- PlaintextParser_from_string L cleaned_text language ;;
             summary <- TextRankSummarizer L parser sentence_count ;;
             (if String.eqb (strip (join " " summary)) ""
              then ext_fallback_summarize L text
              else Ok [("summary",
                        StrList match stripped_points summary with
                                | [] => ["No key points could be extracted."]
                                | _ => stripped_points summary
                                end)]))).
  { apply shaped_bind. intros parser. apply shaped_bind. intros summary.
    apply shaped_if.
    - apply returns_shaped, ext_fallback_returns.
    - apply shaped_ok. eexists. split; [reflexivity|].
      apply default_points_nonempty. }
  destruct (parser <- PlaintextParser_from_string L cleaned_text language ;; _)
    as [d|[m|m|m]].
  - exact Hin.
  - apply returns_shaped, ext_fallback_returns.
  - apply shaped_raise.
  - apply shaped_raise.
Qed.

(** *** AbstractiveSummarizer *)

Lemma abs_fallback_returns text :
  returns text_dict (abs_fallback_summarize L text).
Proof.
  unfold abs_fallback_summarize. apply guarded.
  - apply shaped_bind. intros cleaned. apply shaped_if.
    + apply shaped_ok. eexists. reflexivity.
    + apply shaped_bind. intros sentences. apply shaped_if;
        apply shaped_ok; eexists; reflexivity.
  - intros e. eexists. split; [reflexivity|]. eexists. reflexivity.
Qed.

Lemma summarize_chunk_shaped chunk : shaped text_dict (_summarize_chunk L chunk).
Proof.
  unfold _summarize_chunk. apply shaped_try.
  - apply shaped_if; [apply shaped_ok; eexists; reflexivity|].
    apply shaped_bind. intros summary.
    apply shaped_if; apply shaped_ok; eexists; reflexivity.
  - intros e. apply shaped_bind. intros sentences.
    apply shaped_if; apply shaped_ok; eexists; reflexivity.
Qed.

Lemma summarize_long_text_returns text :
  returns text_dict (_summarize_long_text L text).
Proof.
  unfold _summarize_long_text. apply guarded.
  - apply shaped_bind. intros cleaned. apply shaped_bind. intros sentences.
    apply shaped_if; [apply summarize_chunk_shaped|].
    apply shaped_bind. intros summaries.
    apply shaped_if; [apply summarize_chunk_shaped|].
    apply shaped_ok. eexists. reflexivity.
  - intros e. apply abs_fallback_returns.
Qed.

Lemma abs_summarize_returns available max_length text max_input_length :
  returns text_dict
    (abs_summarize L available max_length text max_input_length).
Proof.
  unfold abs_summarize.
  destruct available; cbn [negb]; [|apply abs_fallback_returns].
  apply guarded; [|intros e; apply abs_fallback_returns].
  apply shaped_bind. intros cleaned.
  apply shaped_if; [apply shaped_ok; eexists; reflexivity|].
  apply shaped_if; [apply returns_shaped, summarize_long_text_returns|].
  apply shaped_if; [apply returns_shaped, summarize_long_text_returns|].
  apply shaped_bind. intros summary.
  apply shaped_if; [apply returns_shaped, abs_fallback_returns|].
  apply shaped_ok. eexists. reflexivity.
Qed.

End WithLibraries.

(** C10. Whatever the libraries do (return anything, or raise anywhere),
    [ExtractiveSummarizer.summarize] returns a dictionary whose ["summary"]
    is a non-empty list and [AbstractiveSummarizer.summarize] returns a
    dictionary with a ["summary"] key; neither raises.  The fallback of each
    returns a dictionary of the same shape, and never raises either. *)
Theorem summarizers_always_answer (L : Libraries) (text : string)
    (available : bool) (max_length max_input_length : nat) :
  (exists d l,
      ext_summarize L text = Ok d /\
      get d "summary" = Some (StrList l) /\ l <> []) /\
  (exists d v,
      abs_summarize L available max_length text max_input_length = Ok d /\
      get d "summary" = Some v) /\
  (exists d l,
      ext_fallback_summarize L text = Ok d /\
      get d "summary" = Some (StrList l) /\ l <> []) /\
  (exists d v,
      abs_fallback_summarize L text = Ok d /\ get d "summary" = Some v).
Proof.
  split; [|split; [|split]].
  - destruct (ext_summarize_returns L text) as [d [E [l [-> Hl]]]].
    exists [("summary", StrList l)], l. auto.
  - destruct (abs_summarize_returns L available max_length text
                max_input_length) as [d [E [s ->]]].
    exists [("summary", Str s)], (Str s). auto.
  - destruct (ext_fallback_returns L text) as [d [E [l [-> Hl]]]].
    exists [("summary", StrList l)], l. auto.
  - destruct (abs_fallback_returns L text) as [d [E [s ->]]].
    exists [("summary", Str s)], (Str s). auto.
Qed.

(** ** Further properties of the summarizers *)

Lemma stripped_points_spec sentences :
  (List.length (stripped_points sentences) <= List.length sentences)%nat /\
  Forall (fun p => p <> "" /\ exists s, In s sentences /\ p = strip s)
         (stripped_points sentences).
Proof.
  unfold stripped_points. induction sentences as [|s r [IH1 IH2]]; simpl.
  - split; [lia | constructor].
  - destruct (String.eqb (strip s) "") eqn:E; simpl.
    + split; [lia|]. eapply Forall_impl; [|exact IH2].
      intros p [Hp [x [Hx ->]]]. split; [exact Hp|]. exists x. auto.
    + apply String.eqb_neq in E. split; [lia|]. constructor.
      * split; [exact E|]. exists s. auto.
      * eapply Forall_impl; [|exact IH2].
        intros p [Hp [x [Hx ->]]]. split; [exact Hp|]. exists x. auto.
Qed.

Lemma make_chunks_count : forall fuel chunk_size sentences,
  (0 < chunk_size)%nat ->
  (List.length (make_chunks fuel chunk_size sentences) * chunk_size
   <= List.length sentences + chunk_size - 1)%nat.
Proof.
  induction fuel as [|fuel IH]; intros size l Hs; [simpl; lia|].
  destruct l as [|x r]; [simpl; lia|].
  cbn [make_chunks].
  set (chunk := join " " (firstn size (x :: r))).
  specialize (IH size (skipn size (x :: r)) Hs).
  rewrite length_skipn in IH.
  destruct (Nat.le_gt_cases (List.length (x :: r)) size) as [Hle|Hgt].
  - assert (E : skipn size (x :: r) = [])
      by (apply skipn_all2; exact Hle).
    rewrite E.
    assert (E0 : make_chunks fuel size [] = [])
      by (destruct fuel; reflexivity).
    rewrite E0. destruct (negb (String.eqb (strip chunk) ""));
      cbn [List.length]; lia.
  - destruct (negb (String.eqb (strip chunk) "")); cbn [List.length] in *; nia.
Qed.

Section OnAnyLibraries.
Variable L : Libraries.

(** X23. The extractive fallback gives between one and ten key points and
    none of them is empty: each is a stripped, non-blank sentence among the
    first ten of the cleaned text, or the single fixed message that stands
    for their absence or for a failure. *)
Theorem extractive_fallback_gives_one_to_ten_points (text : string) :
  exists points,
    ext_fallback_summarize L text = Ok [("summary", StrList points)] /\
    (1 <= List.length points <= 10)%nat /\
    Forall (fun p => p <> "") points.
Proof.
  unfold ext_fallback_summarize.
  destruct (clean_transcript L text) as [cleaned|e]; cbn [bind try_except];
    [|eexists; split; [reflexivity|]; split; [simpl; lia|];
      repeat constructor; discriminate].
  destruct (re_split L sentence_boundary cleaned) as [sentences|e];
    cbn [bind try_except];
    [|eexists; split; [reflexivity|]; split; [simpl; lia|];
      repeat constructor; discriminate].
  set (n := Nat.min (Nat.max 3 (Nat.min 10 (List.length sentences / 5)))
                    (List.length sentences)).
  destruct (stripped_points_spec (firstn n sentences)) as [H1 H2].
  rewrite length_firstn in H1.
  destruct (stripped_points (firstn n sentences)) as [|p r] eqn:E.
  - eexists. split; [reflexivity|]. split; [simpl; lia|].
    repeat constructor. discriminate.
  - eexists. split; [reflexivity|]. split.
    + cbn [List.length] in *. subst n. lia.
    + eapply Forall_impl; [|exact H2]. intros x [Hx _]. exact Hx.
Qed.


(** X25. A long text is cut into at most six chunks.  For more than ten
    sentences, the chunk size computed at lines 373-378 is at least 10 and
    the chunks built from it at lines 381-384 number six at most, which
    bounds the chunk summaries [_summarize_long_text] asks for. *)
Theorem long_text_is_cut_into_at_most_six_chunks (sentences : list string) :
  (10 < List.length sentences)%nat ->
  let chunks_target :=
    Nat.min 5 (Nat.max 3 (List.length sentences / 200)) in
  let chunk_size := Nat.max 10 (List.length sentences / chunks_target) in
  (3 <= chunks_target <= 5)%nat /\ (10 <= chunk_size)%nat /\
  (List.length (make_chunks (List.length sentences) chunk_size sentences)
   <= 6)%nat.
Proof.
  intros Hn target size.
  assert (Ht : (3 <= target <= 5)%nat) by (subst target; lia).
  assert (Hs : (10 <= size)%nat) by (subst size; lia).
  split; [exact Ht|]. split; [exact Hs|].
  pose proof (make_chunks_count (List.length sentences) size sentences
                ltac:(lia)) as Hc.
  assert (Hd : (List.length sentences < size * target + target)%nat).
  { assert (Hq : (List.length sentences / target <= size)%nat)
      by (subst size; lia).
    pose proof (Nat.div_mod_eq (List.length sentences) target) as Hm.
    pose proof (Nat.mod_upper_bound (List.length sentences) target
                  ltac:(lia)) as Hr.
    nia. }
  nia.
Qed.

End OnAnyLibraries.


Lemma long_text_is_cut_into_at_most_six_chunks_witness :
  (List.length
     (make_chunks 12 (Nat.max 10 (12 / Nat.min 5 (Nat.max 3 (12 / 200))))
        SummaryNotions.twelve_sentences) <= 6)%nat.
Proof.
  apply (long_text_is_cut_into_at_most_six_chunks
           SummaryNotions.twelve_sentences).
  vm_compute. lia.
Defined.

End SummarizationFacts.
(** ** Properties of the cutting code *)
Module AudioProcessingFacts.
Import App AudioProcessing CuttingNotions.
Local Open Scope string_scope.

Lemma py_max_spec a b :
  (a <= py_max a b /\ b <= py_max a b /\ (py_max a b = a \/ py_max a b = b))%Q.
Proof.
  unfold py_max. destruct (Qle_bool b a) eqn:E.
  - apply Qle_bool_iff in E. split; [apply Qle_refl|]. split; auto.
  - assert (H : ~ (b <= a)%Q) by (rewrite <- Qle_bool_iff; congruence).
    apply Qnot_le_lt in H. split; [apply Qlt_le_weak; exact H|].
    split; [apply Qle_refl | auto].
Qed.

Lemma py_max_mono a b c : (b <= c)%Q -> (py_max a b <= py_max a c)%Q.
Proof.
  intros H. unfold py_max.
  destruct (Qle_bool b a) eqn:E1; destruct (Qle_bool c a) eqn:E2.
  - apply Qle_refl.
  - assert (H2 : ~ (c <= a)%Q) by (rewrite <- Qle_bool_iff; congruence).
    apply Qlt_le_weak, Qnot_le_lt, H2.
  - apply Qle_bool_iff in E2.
    assert (H1 : ~ (b <= a)%Q) by (rewrite <- Qle_bool_iff; congruence).
    exfalso. apply H1. eapply Qle_trans; eassumption.
  - exact H.
Qed.

Lemma insert_clip_perm s l : Permutation (s :: l) (insert_clip s l).
Proof.
  induction l as [|x r IH]; simpl; [reflexivity|].
  destruct (Qle_bool (start s) (start x)); [reflexivity|].
  rewrite perm_swap. constructor. exact IH.
Qed.

Lemma sorted_segments_perm l : Permutation l (sorted_segments l).
Proof.
  induction l as [|s r IH]; simpl; [reflexivity|].
  rewrite <- insert_clip_perm. constructor. exact IH.
Qed.

Lemma insert_clip_sorted s l :
  Sorted clip_by_start l -> Sorted clip_by_start (insert_clip s l).
Proof.
  induction l as [|x r IH]; simpl; intros H; [repeat constructor|].
  destruct (Qle_bool (start s) (start x)) eqn:E.
  - apply Qle_bool_iff in E. constructor; [exact H | constructor; exact E].
  - assert (Hx : (start x <= start s)%Q).
    { apply Qlt_le_weak, Qnot_le_lt. rewrite <- Qle_bool_iff. congruence. }
    inversion H as [|? ? Hr Hhd]; subst.
    constructor; [apply IH; exact Hr|].
    destruct r as [|y r']; simpl; [constructor; exact Hx|].
    destruct (Qle_bool (start s) (start y)); constructor;
      [exact Hx | inversion Hhd; assumption].
Qed.

Lemma sorted_segments_sorted l : Sorted clip_by_start (sorted_segments l).
Proof.
  induction l as [|s r IH]; simpl; [constructor|].
  apply insert_clip_sorted, IH.
Qed.

Lemma by_start_trans a b c : clip_by_start a b -> clip_by_start b c -> clip_by_start a c.
Proof. unfold clip_by_start. apply Qle_trans. Qed.

Lemma padded_sorted p l :
  Sorted clip_by_start l -> Sorted clip_by_start (map (padded p) l).
Proof.
  induction 1 as [|a l Hl IH Hhd]; simpl; constructor; [exact IH|].
  destruct Hhd as [|b l' Hab]; simpl; constructor.
  unfold clip_by_start, padded. cbn [start]. apply py_max_mono.
  unfold clip_by_start in Hab. unfold Qminus. apply Qplus_le_compat;
    [exact Hab | apply Qle_refl].
Qed.

(** The sweep, started on a list sorted by start. *)
Lemma merge_loop_spec : forall rest current out,
  StronglySorted clip_by_start (current :: rest) ->
  merge_loop current rest = Returns out ->
  exists first others,
    out = first :: others /\
    start first = start current /\
    (end_ current <= end_ first)%Q /\
    Sorted clear_of out /\
    Forall (fun c => exists o, In o out /\ covers o c) (current :: rest) /\
    Forall (fun o => exists c, In c (current :: rest) /\ start o = start c) out /\
    (List.length out <= S (List.length rest))%nat.
Proof.
  induction rest as [|next rest IH]; intros current out Hs Hm.
  - simpl in Hm. injection Hm as <-. exists current, [].
    split; [reflexivity|]. split; [reflexivity|].
    split; [apply Qle_refl|]. split; [repeat constructor|].
    split; [|split; [|simpl; lia]].
    + constructor; [|constructor]. exists current.
      split; [left; reflexivity|]. split; apply Qle_refl.
    + constructor; [|constructor]. exists current.
      split; [left; reflexivity | reflexivity].
  - cbn [merge_loop] in Hm.
    inversion Hs as [|? ? Hs' Hall]; subst.
    inversion Hs' as [|? ? Hs'' Hall']; subst.
    inversion Hall as [|? ? Hcn Hcr]; subst.
    destruct (Qle_bool (start next) (end_ current)) eqn:E.
    + destruct (add_text (text_of current) (text_of next)) as [joined|e];
        [|discriminate Hm]. cbn [and_then] in Hm.
      set (current' := {| start := start current;
                          end_ := py_max (end_ current) (end_ next);
                          text := Some joined |}) in Hm.
      assert (Hs1 : StronglySorted clip_by_start (current' :: rest)).
      { constructor; [exact Hs''|]. exact Hcr. }
      destruct (IH current' out Hs1 Hm)
        as [first [others [-> [Hst [Hen [Hcl [Hcov [Horig Hlen]]]]]]]].
      destruct (py_max_spec (end_ current) (end_ next)) as [M1 [M2 _]].
      exists first, others. split; [reflexivity|].
      split; [exact Hst|].
      split; [eapply Qle_trans; [exact M1 | exact Hen]|].
      split; [exact Hcl|].
      inversion Hcov as [|? ? [o [Ho [Ho1 Ho2]]] Hrest]; subst.
      split; [|split; [|simpl in *; lia]].
      * constructor; [|constructor; [|exact Hrest]].
        -- exists o. split; [exact Ho|]. split; [exact Ho1|].
           eapply Qle_trans; [exact M1 | exact Ho2].
        -- exists o. split; [exact Ho|]. split.
           ++ eapply Qle_trans; [exact Ho1 | exact Hcn].
           ++ eapply Qle_trans; [exact M2 | exact Ho2].
      * eapply Forall_impl; [|exact Horig].
        intros o' [c [[<-|Hc] Hoc]].
        -- exists current. split; [left; reflexivity | exact Hoc].
        -- exists c. split; [right; right; exact Hc | exact Hoc].
    + destruct (merge_loop next rest) as [merged|e] eqn:Em;
        [|discriminate Hm]. cbn [and_then] in Hm. injection Hm as <-.
      destruct (IH next merged Hs' Em)
        as [first [others [-> [Hst [Hen [Hcl [Hcov [Horig Hlen]]]]]]]].
      exists current, (first :: others). split; [reflexivity|].
      split; [reflexivity|]. split; [apply Qle_refl|].
      split; [|split; [|split; [|simpl in *; lia]]].
      * constructor; [exact Hcl|]. constructor. unfold clear_of.
        rewrite Hst. apply Qnot_le_lt. rewrite <- Qle_bool_iff. congruence.
      * constructor.
        -- exists current. split; [left; reflexivity|].
           split; apply Qle_refl.
        -- eapply Forall_impl; [|exact Hcov].
           intros c [o [Ho Hoc]]. exists o. split; [right; exact Ho|exact Hoc].
      * constructor.
        -- exists current. split; [left; reflexivity | reflexivity].
        -- eapply Forall_impl; [|exact Horig].
           intros o [c [Hc Hoc]]. exists c. split; [right; exact Hc|exact Hoc].
Qed.

Lemma text_of_padded p s : text_of (padded p s) = text_of s.
Proof. reflexivity. Qed.

Lemma sorted_padded segments p :
  StronglySorted clip_by_start (map (padded p) (sorted_segments segments)).
Proof.
  apply Sorted_StronglySorted; [exact by_start_trans|].
  apply padded_sorted, sorted_segments_sorted.
Qed.

(** X8. What [merge_segments] returns: pieces in the order of their start,
    each ending strictly before the next one starts and none starting
    before 0; every requested segment, padded (and cut at 0), lies inside
    one piece; there are no more pieces than segments, and none only when
    none was requested. *)
Theorem merged_pieces_are_disjoint_and_cover
    (segments : list Clip) (padding_seconds : Q) (out : list Clip) :
  merge_segments segments padding_seconds = Returns out ->
  Sorted (fun a b => (end_ a < start b)%Q) out /\
  (forall o, In o out -> (0 <= start o)%Q) /\
  (forall s, In s segments ->
     exists o, In o out /\
       (start o <= py_max 0 (start s - padding_seconds))%Q /\
       (end_ s + padding_seconds <= end_ o)%Q) /\
  (List.length out <= List.length segments)%nat /\
  (out = [] <-> segments = []).
Proof.
  unfold merge_segments. intros H.
  pose proof (sorted_padded segments padding_seconds) as Hs.
  pose proof (sorted_segments_perm segments) as Hp.
  assert (Hlen : List.length (map (padded padding_seconds)
                                (sorted_segments segments))
                 = List.length segments).
  { rewrite length_map. symmetry. apply Permutation_length, Hp. }
  destruct (map (padded padding_seconds) (sorted_segments segments))
    as [|current rest] eqn:E.
  - injection H as <-. destruct segments; [|discriminate Hlen].
    split; [constructor|]. split; [intros o []|]. split; [intros s []|].
    split; [simpl; lia | tauto].
  - destruct (merge_loop_spec rest current out Hs H)
      as [first [others [-> [_ [_ [Hcl [Hcov [Horig Hl]]]]]]]].
    split; [exact Hcl|]. split; [|split; [|split]].
    + intros o Ho. rewrite Forall_forall in Horig.
      destruct (Horig o Ho) as [c [Hc ->]]. rewrite <- E in Hc.
      apply in_map_iff in Hc. destruct Hc as [s [<- _]].
      cbn [padded start]. apply py_max_spec.
    + intros s Hs'. rewrite Forall_forall in Hcov.
      assert (Hin : In (padded padding_seconds s) (current :: rest)).
      { rewrite <- E. apply in_map. eapply Permutation_in; eassumption. }
      destruct (Hcov _ Hin) as [o [Ho [H1 H2]]]. exists o. auto.
    + simpl in *. lia.
    + split; [discriminate|]. intros ->. discriminate Hlen.
Qed.

Lemma merged_pieces_are_disjoint_and_cover_witness :
  exists out,
    merge_segments three_highlights 3 = Returns out /\
    List.length out = 2%nat /\
    Sorted (fun a b => (end_ a < start b)%Q) out.
Proof.
  eexists. split; [vm_compute; reflexivity|]. split; [reflexivity|].
  eapply (merged_pieces_are_disjoint_and_cover three_highlights 3).
  vm_compute. reflexivity.
Defined.

Lemma merge_loop_returns : forall rest current,
  spoken current -> Forall spoken rest ->
  exists out, merge_loop current rest = Returns out.
Proof.
  induction rest as [|next rest IH]; intros current Hc Hr;
    [eexists; reflexivity|].
  inversion Hr as [|? ? Hn Hr']; subst. cbn [merge_loop].
  destruct (Qle_bool (start next) (end_ current)).
  - destruct Hc as [a ->]. destruct Hn as [b ->]. cbn [add_text and_then].
    apply IH; [eexists; reflexivity | exact Hr'].
  - destruct (IH next Hn Hr') as [out ->]. eexists. reflexivity.
Qed.

Lemma merge_loop_raises : forall rest current e,
  merge_loop current rest = Raises e -> e = TypeError.
Proof.
  induction rest as [|next rest IH]; intros current e H; [discriminate H|].
  cbn [merge_loop] in H.
  destruct (Qle_bool (start next) (end_ current)).
  - destruct (add_text (text_of current) (text_of next)) as [j|e'] eqn:Ea.
    + apply (IH _ _ H).
    + cbn [and_then] in H. injection H as <-.
      unfold add_text in Ea.
      destruct (text_of current); try (injection Ea as <-; reflexivity).
      destruct (text_of next); try (injection Ea as <-; reflexivity).
      discriminate Ea.
  - destruct (merge_loop next rest) as [m|e'] eqn:Em; [discriminate H|].
    cbn [and_then] in H. injection H as <-. apply (IH _ _ Em).
Qed.

(** X9. [merge_segments] returns whenever the text of every segment is a
    string (or absent); the only exception it can raise is the [TypeError]
    of line 378, on joining a text that is not a string. *)
Theorem merge_segments_raises_only_on_text
    (segments : list Clip) (padding_seconds : Q) :
  (Forall spoken segments ->
   exists out, merge_segments segments padding_seconds = Returns out) /\
  (forall e, merge_segments segments padding_seconds = Raises e ->
             e = TypeError).
Proof.
  unfold merge_segments. split.
  - intros H.
    assert (Hs : Forall spoken
                   (map (padded padding_seconds) (sorted_segments segments))).
    { rewrite Forall_forall in *. intros c Hc. apply in_map_iff in Hc.
      destruct Hc as [s [<- Hs]]. unfold spoken. rewrite text_of_padded.
      apply H. eapply Permutation_in; [|exact Hs].
      symmetry. apply sorted_segments_perm. }
    destruct (map (padded padding_seconds) (sorted_segments segments))
      as [|current rest]; [eexists; reflexivity|].
    inversion Hs; subst. apply merge_loop_returns; assumption.
  - intros e H.
    destruct (map (padded padding_seconds) (sorted_segments segments))
      as [|current rest]; [discriminate H|].
    apply (merge_loop_raises _ _ _ H).
Qed.

Lemma merge_segments_raises_only_on_text_witness :
  exists out, merge_segments three_highlights 3 = Returns out.
Proof.
  apply (merge_segments_raises_only_on_text three_highlights 3).
  repeat constructor; eexists; reflexivity.
Defined.

Lemma Qltb_true a b : Qltb a b = true <-> (a < b)%Q.
Proof.
  unfold Qltb. rewrite negb_true_iff. split.
  - intros H. apply Qnot_le_lt. rewrite <- Qle_bool_iff. congruence.
  - intros H. destruct (Qle_bool b a) eqn:E; [|reflexivity].
    apply Qle_bool_iff in E. exfalso. apply (Qlt_not_le _ _ H E).
Qed.

Lemma Qltb_false a b : Qltb a b = false <-> (b <= a)%Q.
Proof.
  unfold Qltb. rewrite negb_false_iff. apply Qle_bool_iff.
Qed.

Lemma trim_audio_range
    (m : Machine) (file_path : string) (start_time end_time : Q) :
  exists_ m file_path = true ->
  exists s e,
    fst (trim_audio m file_path start_time end_time) = trim m file_path s e /\
    (0 <= s)%Q /\ (start_time <= s)%Q /\ (e <= end_time)%Q /\
    (forall d, probe_duration m file_path = Returns d ->
       (e <= d)%Q /\
       ((e <= s)%Q <->
        snd (trim_audio m file_path start_time end_time)
        = Some (ValueError "Start time must be less than end time"))) /\
    (forall err, fst (trim_audio m file_path start_time end_time) = Raises err ->
       ffmpeg_run m file_path s e = Raises err).
Proof.
  intros Hex. unfold trim_audio, checked_end. rewrite Hex. cbn [negb].
  set (s := if Qltb start_time 0 then 0%Q else start_time).
  assert (Hs : (0 <= s)%Q /\ (start_time <= s)%Q).
  { subst s. destruct (Qltb start_time 0) eqn:E.
    - apply Qltb_true in E. split; [apply Qle_refl | apply Qlt_le_weak, E].
    - apply Qltb_false in E. split; [exact E | apply Qle_refl]. }
  destruct (probe_duration m file_path) as [d|pe] eqn:Ep.
  - set (e := if Qltb d end_time then d else end_time).
    assert (He : (e <= end_time)%Q /\ (e <= d)%Q).
    { subst e. destruct (Qltb d end_time) eqn:E.
      - apply Qltb_true in E. split; [apply Qlt_le_weak, E | apply Qle_refl].
      - apply Qltb_false in E. split; [apply Qle_refl | exact E]. }
    exists s, e. cbn [fst snd]. split; [reflexivity|].
    split; [apply Hs|]. split; [apply Hs|]. split; [apply He|]. split.
    + intros d' Hd. injection Hd as <-. split; [apply He|].
      destruct (Qle_bool e s) eqn:E.
      * apply Qle_bool_iff in E. tauto.
      * split; [|discriminate]. intros H. apply Qle_bool_iff in H. congruence.
    + unfold trim. intros err H.
      destruct (ffmpeg_run m file_path s e);
        [discriminate H | cbn [and_then] in H; injection H as <-; reflexivity].
  - exists s, end_time. cbn [fst snd]. split; [reflexivity|].
    split; [apply Hs|]. split; [apply Hs|]. split; [apply Qle_refl|]. split.
    + intros d' Hd. discriminate Hd.
    + unfold trim. intros err H.
      destruct (ffmpeg_run m file_path s end_time);
        [discriminate H | cbn [and_then] in H; injection H as <-; reflexivity].
Qed.

(** X10. [trim_audio] never rejects a range.  For a file that exists, the
    range is handed to [trim] with its start raised to 0 and its end lowered
    to the duration when the probe gives one; an empty or inverted range is
    only logged.  So the [ValueError] of line 332 never leaves the method:
    whatever it raises for an existing file, the [ffmpeg] run has raised. *)
Theorem trim_audio_never_rejects_a_range
    (m : Machine) (file_path : string) (start_time end_time : Q) :
  exists_ m file_path = true ->
  exists s e,
    fst (trim_audio m file_path start_time end_time) = trim m file_path s e /\
    (0 <= s)%Q /\ (start_time <= s)%Q /\ (e <= end_time)%Q /\
    (forall d, probe_duration m file_path = Returns d ->
       (e <= d)%Q /\
       ((e <= s)%Q <->
        snd (trim_audio m file_path start_time end_time)
        = Some (ValueError "Start time must be less than end time"))) /\
    (forall err, fst (trim_audio m file_path start_time end_time) = Raises err ->
       ffmpeg_run m file_path s e = Raises err).
Proof. exact (trim_audio_range m file_path start_time end_time). Qed.

Lemma trim_audio_never_rejects_a_range_witness :
  exists s e,
    fst (trim_audio desk "/uploads/talk.mp3" 30 10)
    = trim desk "/uploads/talk.mp3" s e /\
    (30 <= s)%Q /\ (e <= 10)%Q.
Proof.
  destruct (trim_audio_never_rejects_a_range desk "/uploads/talk.mp3" 30 10
              eq_refl) as [s [e [H1 [_ [H2 [H3 _]]]]]].
  exists s, e. auto.
Defined.

Lemma pieces_spec length segments :
  Forall (fun p => 0 <= fst p < snd p /\ snd p <= length)
         (pieces length segments) /\
  (List.length (pieces length segments) <= List.length segments)%nat.
Proof.
  induction segments as [|s r [IH1 IH2]]; simpl; [split; [constructor|lia]|].
  unfold piece.
  destruct (Z.min length (py_int (end_ s * 1000))
            <=? Z.max 0 (py_int (start s * 1000)))%Z eqn:E.
  - split; [exact IH1 | lia].
  - apply Z.leb_gt in E. split; [|simpl; lia].
    constructor; [|exact IH1]. cbn [fst snd]. lia.
Qed.

(** X11. [trim_to_highlights] refuses an empty list before it looks at the
    file.  With two segments or more, what it exports is cut from the
    audio at pieces that are not empty and lie inside it, one at most per
    segment; segments that leave nothing after clamping are skipped, and if
    all are, an empty audio is exported and its path returned all the
    same. *)
Theorem highlights_are_cut_inside_the_audio
    (m : Machine) (file_path : string) (segments : list Clip) (length : Z) :
  trim_to_highlights m file_path []
  = Raises (ValueError "No segments provided for trimming") /\
  ((2 <= List.length segments)%nat ->
   exists_ m file_path = true ->
   audio_length m file_path = Returns length ->
   exists cut,
     Forall (fun p => 0 <= fst p < snd p /\ snd p <= length) cut /\
     (List.length cut <= List.length segments)%nat /\
     trim_to_highlights m file_path segments
     = match export m file_path cut with
       | Returns _ => Returns (highlights_path m file_path)
       | Raises e => Raises e
       end).
Proof.
  split; [reflexivity|]. intros Hn Hex Hlen.
  exists (pieces length segments).
  destruct (pieces_spec length segments) as [H1 H2].
  split; [exact H1|]. split; [exact H2|].
  destruct segments as [|a [|b r]]; [simpl in Hn; lia | simpl in Hn; lia|].
  unfold trim_to_highlights. rewrite Hex, Hlen. reflexivity.
Qed.

Lemma highlights_are_cut_inside_the_audio_witness :
  trim_to_highlights desk "/uploads/talk.mp3" three_highlights
  = Returns "/uploads/talk_highlights_20240101_120000.mp3".
Proof.
  destruct (highlights_are_cut_inside_the_audio desk "/uploads/talk.mp3"
              three_highlights 60000) as [_ H].
  destruct (H ltac:(simpl; lia) eq_refl eq_refl) as [cut [_ [_ ->]]].
  reflexivity.
Defined.

End AudioProcessingFacts.


(** ** Properties of the endpoints *)
Module EndpointsFacts.
Import Py App AppNotions AppFacts AudioProcessing YouTube Endpoints.
Import CuttingNotions RunNotions TubeNotions AudioProcessingFacts.
Local Open Scope string_scope.

Lemma sorted_segments_fixed l : Sorted clip_by_start l -> sorted_segments l = l.
Proof.
  induction 1 as [|x r Hr IH Hhd]; [reflexivity|].
  simpl. rewrite IH. destruct Hhd as [|y r' Hxy]; [reflexivity|].
  simpl. unfold clip_by_start in Hxy. apply Qle_bool_iff in Hxy. rewrite Hxy.
  reflexivity.
Qed.

Lemma inject_S i : (inject_Z (Z.of_nat (S i)) == inject_Z (Z.of_nat i) + 1)%Q.
Proof. rewrite Nat2Z.inj_succ. unfold Z.succ. rewrite inject_Z_plus. reflexivity. Qed.

Lemma inject_nat_nonneg i : (0 <= inject_Z (Z.of_nat i))%Q.
Proof. change 0%Q with (inject_Z 0). rewrite <- Zle_Qle. lia. Qed.

Lemma spaced_sorted sd : (0 <= sd)%Q ->
  forall points i, Sorted clip_by_start (spaced sd i points).
Proof.
  intros Hsd. induction points as [|pt r IH]; intros i; simpl; constructor.
  - apply IH.
  - destruct r as [|pt' r']; simpl; constructor.
    unfold clip_by_start. cbn [start]. pose proof (inject_S i) as HS.
    assert (H : (inject_Z (Z.of_nat (S i)) * sd
                 == inject_Z (Z.of_nat i) * sd + sd)%Q)
      by (rewrite HS; ring).
    rewrite H. lra.
Qed.

Lemma py_min_20 sd : (sd <= 20)%Q -> (py_min 20 sd == sd)%Q.
Proof.
  intros H. unfold py_min. destruct (Qle_bool 20 sd) eqn:E; [|reflexivity].
  apply Qle_bool_iff in E. lra.
Qed.

Lemma py_max_right a b : (a <= b)%Q -> (py_max a b == b)%Q.
Proof.
  intros H. unfold py_max. destruct (Qle_bool b a) eqn:E; [|reflexivity].
  apply Qle_bool_iff in E. lra.
Qed.

(** Segments no further apart than 20 seconds all end up in one piece. *)
Lemma merge_loop_chain sd p : (0 <= sd)%Q -> (sd <= 20)%Q -> (0 <= p)%Q ->
  forall points i current,
    Forall is_str points -> spoken current ->
    (end_ current == inject_Z (Z.of_nat i) * sd + p)%Q ->
    exists one,
      merge_loop current (map (padded p) (spaced sd i points))
      = Returns [one] /\
      start one = start current /\
      (end_ one
       == inject_Z (Z.of_nat (i + List.length points)) * sd + p)%Q.
Proof.
  intros Hsd H20 Hp. induction points as [|pt r IH];
    intros i current Hstr Hc He.
  - exists current. split; [reflexivity|]. split; [reflexivity|].
    rewrite Nat.add_0_r. exact He.
  - inversion Hstr as [|? ? [t ->] Hr]; subst.
    cbn [spaced map merge_loop padded start end_ text].
    pose proof (inject_nat_nonneg i) as Hi.
    assert (Hq : Qle_bool (py_max 0 (inject_Z (Z.of_nat i) * sd - p))
                          (end_ current) = true).
    { apply Qle_bool_iff.
      destruct (py_max_spec 0 (inject_Z (Z.of_nat i) * sd - p))
        as [_ [_ [-> | ->]]]; rewrite He; nra. }
    rewrite Hq. destruct Hc as [a Ha]. rewrite Ha.
    cbn [text_of padded text add_text and_then].
    match goal with
    | |- exists one, merge_loop ?c _ = _ /\ _ =>
        destruct (IH (S i) c Hr) as [one [H1 [H2 H3]]]
    end.
    + eexists. reflexivity.
    + cbn [end_]. rewrite py_max_right.
      * rewrite inject_S, py_min_20 by exact H20. ring.
      * rewrite He. pose proof (py_min_20 sd H20) as Hm.
        rewrite Hm. lra.
    + exists one. split; [exact H1|]. split; [exact H2|].
      cbn [List.length]. rewrite <- plus_n_Sm. exact H3.
Qed.

Section WithInterpreter.

Variable str : Error -> string.
Variable in_uploads : string -> string.
Variable json_loads : string -> option pyval.

(** X12. [/api/trim] answers 200 or raises the [HTTPException] of its own
    handler, status 500: the 404 raised for a missing file is caught by that
    handler and reaches the client as a 500 whose detail quotes it.  A 200
    means the [ffmpeg] run returned; the times sent back are the ones
    requested, not the clamped ones the cut was made with. *)
Theorem trim_endpoint_answers_200_or_500
    (m : Machine) (file_path : string) (start_time end_time : Q) :
  let r := Endpoints.trim_audio str in_uploads m file_path start_time end_time in
  (forall err, r = Raises err -> exists detail, err = HTTPException 500 detail) /\
  (exists_ m (resolve in_uploads file_path) = false ->
   r = Raises (HTTPException 500
                 ("Error trimming audio: "
                  ++ str (HTTPException 404 "File not found")))) /\
  (forall code c, r = Returns (code, c) ->
     code = 200%nat /\
     get c "start_time" = Some (PNum start_time) /\
     get c "end_time" = Some (PNum end_time) /\
     exists s e,
       ffmpeg_run m (resolve in_uploads file_path) s e = Returns tt /\
       (0 <= s)%Q /\ (e <= end_time)%Q).
Proof.
  cbv zeta. unfold Endpoints.trim_audio.
  destruct (exists_ m (resolve in_uploads file_path)) eqn:Hex; cbn [negb].
  - destruct (trim_audio_range m
                (resolve in_uploads file_path) start_time end_time Hex)
      as [s [e [H1 [H2 [_ [H3 _]]]]]].
    rewrite H1. unfold trim.
    destruct (ffmpeg_run m (resolve in_uploads file_path) s e) as [[]|err]
      eqn:Er; cbn [and_then].
    + split; [intros err H; discriminate H|].
      split; [intros H; discriminate H|].
      intros code c H. injection H as <- <-.
      split; [reflexivity|]. split; [reflexivity|]. split; [reflexivity|].
      exists s, e. auto.
    + split; [intros err' H; injection H as <-; eexists; reflexivity|].
      split; [intros H; discriminate H|]. intros code c H. discriminate H.
  - split; [intros err H; injection H as <-; eexists; reflexivity|].
    split; [reflexivity|]. intros code c H. discriminate H.
Qed.

Lemma split_on_nonempty sep : forall s acc, split_on sep acc s <> [].
Proof.
  induction s as [|c r IH]; intros acc; simpl; [discriminate|].
  destruct (Ascii.eqb c sep); [discriminate | apply IH].
Qed.



End WithInterpreter.

Lemma trim_endpoint_answers_200_or_500_witness :
  Endpoints.trim_audio say uploads desk "/uploads/lost.mp3" 0 10
  = Raises (HTTPException 500
              ("Error trimming audio: "
               ++ say (HTTPException 404 "File not found"))).
Proof.
  apply (trim_endpoint_answers_200_or_500 say uploads desk
           "/uploads/lost.mp3" 0 10).
  reflexivity.
Defined.



(** ** The results of a job, and the download endpoint *)

Lemma get_loaded d k : get (loaded_dict d) k = option_map loaded (get d k).
Proof.
  induction d as [|[k' v] r IH]; simpl; [reflexivity|].
  destruct (String.eqb k' k); [reflexivity | exact IH].
Qed.

Lemma run_file w file_path job_id metadata :
  let st := snd (process_audio_file w file_path job_id metadata initial) in
  ((forall n, open_error w n = None) -> exists c, file st = Complete c) /\
  (file st = Absent -> open_error w 0 <> None) /\
  (forall c, file st = Complete c ->
     get c "job_id" = Some (PStr job_id) /\
     (get c "status" = Some (PStr "completed") /\ get c "error" = Some PNone
      \/ exists e, c = error_record job_id e)).
Proof.
  cbv zeta. unfold process_audio_file.
  pose proof (body_outcome w file_path job_id metadata) as Hb.
  pose proof (fun c k => body_file w file_path job_id metadata c k) as Hf.
  destruct (body w file_path job_id metadata initial) as [[[]|e] st1];
    unfold body_left in Hb; cbn [fst snd] in *.
  - destruct Hb as [_ [_ [c Hc]]]. split; [eauto|].
    split; [congruence|]. intros c' Hc'.
    split; [apply (Hf c' "job_id" Hc'); left; reflexivity|]. left. split.
    + apply (Hf c' "status" Hc'). right. left. reflexivity.
    + apply (Hf c' "error" Hc'). right. right. reflexivity.
  - assert (Hs : serializable (PDict (error_record job_id e)) = true)
      by reflexivity.
    assert (Hsave : forall c,
              file (snd (save w (error_record job_id e) st1)) = Complete c ->
              c = error_record job_id e).
    { intros c H. apply save_file in H. destruct H as [H|H]; [exact H|].
      destruct Hb as [[_ Hb]|[_ [[Hb _]|[Hb _]]]]; congruence. }
    destruct (save w (error_record job_id e) st1) as [[u|e'] st2] eqn:Es;
      cbn [snd] in *;
      (split; [|split]);
      try (intros c Hc; rewrite (Hsave c Hc);
           split; [reflexivity | right; eexists; reflexivity]).
    all: unfold save in Es; rewrite Hs in Es.
    all: try (intros Hall; rewrite Hall in Es; injection Es as _ <-;
              eexists; reflexivity).
    all: intros Ha; destruct (open_error w (opens st1)) eqn:Eo;
      injection Es as _ <-; cbn [file] in Ha; try discriminate Ha.
    all: destruct Hb as [[Ho _]|[_ [[_ Hb]|[Hb _]]]];
      try congruence; try (rewrite Ho in Eo; congruence).
Qed.

Section WithStr.

Variable str : Error -> string.

(** X17. Asking for the results of a job once [process_audio_file] has
    returned.  If the result file could always be opened the answer is a
    200 with a record.  A 200 carries the job identifier that was asked for
    and either the status [completed] with no error, or the minimal error
    record; no other status exists.  The answer is the 202 of a job still
    being processed only if the first attempt to open the result file
    failed, and The only exception is the
    endpoint's own 500, for a file that was opened and not written whole. *)
Theorem results_of_a_finished_job
    (w : World) (file_path job_id : string) (metadata : option dict)
    (decode_error : Error) :
  let st := snd (process_audio_file w file_path job_id metadata initial) in
  let answer := get_results str st job_id decode_error in
  ((forall n, open_error w n = None) ->
   exists c, answer = Returns (200%nat, c)) /\
  (forall code c, answer = Returns (code, c) ->
     code = 202%nat /\ open_error w 0 <> None \/
     code = 200%nat /\ get c "job_id" = Some (PStr job_id) /\
     (get c "status" = Some (PStr "completed") /\ get c "error" = Some PNone
      \/ get c "status" = Some (PStr "error") /\
         exists msg, get c "error" = Some (PStr msg))) /\
  (forall err, answer = Raises err ->
     err = HTTPException 500
             ("Error retrieving results: " ++ str decode_error)).
Proof.
  cbv zeta.
  destruct (run_file w file_path job_id metadata) as [H1 [H2 H3]].
  unfold get_results.
  destruct (file (snd (process_audio_file w file_path job_id metadata initial)))
    as [| |content].
  - split; [intros Hall; destruct (H1 Hall) as [c Hc]; discriminate Hc|].
    split; [|intros err H; discriminate H].
    intros code c H. injection H as <- _. left. split; [reflexivity|].
    apply H2. reflexivity.
  - split; [intros Hall; destruct (H1 Hall) as [c Hc]; discriminate Hc|].
    split; [intros code c H; discriminate H|].
    intros err H. injection H as <-. reflexivity.
  - split; [eexists; reflexivity|].
    split; [|intros err H; discriminate H].
    intros code c H. injection H as <- <-. right. split; [reflexivity|].
    destruct (H3 content eq_refl) as [Hj Hs]. rewrite !get_loaded.
    split; [rewrite Hj; reflexivity|].
    destruct Hs as [[Hs He]|[e ->]].
    + left. rewrite Hs, He. split; reflexivity.
    + right. split; [reflexivity|]. eexists. reflexivity.
Qed.

End WithStr.

Lemma results_of_a_finished_job_witness :
  exists c,
    get_results say (snd studio_run) "job"
      (Failure "Expecting value")
    = Returns (200%nat, c).
Proof.
  destruct (results_of_a_finished_job say studio
              "uploads/talk.wav" "job" None (Failure "Expecting value"))
    as [H _].
  apply H. reflexivity.
Defined.


(** X16. [/api/youtube] answers a URL that is not empty with 200 or with
    the status 500 of its own handler.  The 400 it raises when the
    downloader reports an error is caught by that handler, so a URL that
    cannot be downloaded is answered with 500 and no task is scheduled; a
    200 means the file was downloaded and exists, and the task scheduled
    carries that file, the job identifier sent back and the URL. *)
Theorem youtube_endpoint_answers_200_or_500
    (str : Error -> string) (y : Tube) (exists_ : string -> bool)
    (makedirs : Outcome unit) (job_id url : string) :
  url <> "" ->
  let out := process_youtube str y exists_ makedirs job_id url true in
  (forall err, fst out = Raises err ->
     snd out = None /\ exists detail, err = HTTPException 500 detail) /\
  (forall e, download y url = Raises e ->
     exists detail, fst out = Raises (HTTPException 500 detail)) /\
  (forall code c, fst out = Returns (code, c) ->
     code = 200%nat /\
     get c "job_id" = Some (PStr job_id) /\
     get c "status" = Some (PStr "processing") /\
     exists file_path,
       download y url = Returns file_path /\ exists_ file_path = true /\
       get c "file_name" = Some (PStr (basename file_path)) /\
       exists metadata,
         snd out = Some {| task_file_path := file_path;
                           task_job_id := job_id;
                           task_metadata := Some metadata |} /\
         get metadata "source" = Some (PStr "youtube") /\
         get metadata "url" = Some (PStr url)).
Proof.
  intros Hurl. apply String.eqb_neq in Hurl.
  cbv zeta. unfold process_youtube. rewrite Hurl.
  destruct makedirs as [[]|me].
  - unfold download_audio. cbn [negb].
    destruct (download y url) as [file_path|de] eqn:Ed.
    + cbn [truthy_get get String.eqb Ascii.eqb Bool.eqb truthy].
      destruct (String.eqb file_path "" || negb (exists_ file_path)) eqn:Ef;
        cbn [fst snd].
      * split; [intros err H; injection H as <-; split; [reflexivity|];
                eexists; reflexivity|].
        split; [intros e H; discriminate H|]. intros code c H. discriminate H.
      * apply orb_false_iff in Ef. destruct Ef as [_ Ef].
        apply negb_false_iff in Ef.
        split; [intros err H; discriminate H|].
        split; [intros e H; discriminate H|].
        intros code c H. injection H as <- <-.
        split; [reflexivity|]. split; [reflexivity|]. split; [reflexivity|].
        exists file_path. split; [reflexivity|]. split; [exact Ef|].
        split; [reflexivity|]. eexists. split; [reflexivity|].
        split; reflexivity.
    + cbn [truthy_get get String.eqb Ascii.eqb Bool.eqb truthy].
      destruct (negb (String.eqb (str de) "")); cbn [fst snd];
        (split; [intros err H; injection H as <-; split; [reflexivity|];
                 eexists; reflexivity|]);
        (split; [intros e H; eexists; reflexivity|]);
        intros code c H; discriminate H.
  - cbn [fst snd].
    split; [intros err H; injection H as <-; split; [reflexivity|];
            eexists; reflexivity|].
    split; [intros e H; eexists; reflexivity|].
    intros code c H. discriminate H.
Qed.

Lemma youtube_endpoint_answers_200_or_500_witness :
  exists detail,
    fst (process_youtube say tube (exists_ desk) (Returns tt) "job-1"
           "https://example.org/talk" true)
    = Raises (HTTPException 500 detail).
Proof.
  destruct (youtube_endpoint_answers_200_or_500 say tube (exists_ desk)
              (Returns tt) "job-1" "https://example.org/talk")
    as [_ [H _]]; [discriminate|].
  exact (H _ eq_refl).
Defined.

End EndpointsFacts.

(** * Properties of the reports ([Backend/diarization.py]) *)
Module ReportFacts.
Import Diarization DiarizationReports ReportNotions.

Lemma record_span_spec sp k span : forall tl,
  spans_of sp (record_span k span tl)
  = if String.eqb k sp
    then Some (match spans_of sp tl with
               | Some a => a ++ [span]
               | None => [span]
               end)
    else spans_of sp tl.
Proof.
  induction tl as [|[k' v] r IH]; simpl.
  - destruct (String.eqb k sp); reflexivity.
  - destruct (String.eqb k' k) eqn:E1; simpl.
    + apply String.eqb_eq in E1. subst k'.
      destruct (String.eqb k sp); reflexivity.
    + destruct (String.eqb k' sp) eqn:E2.
      * apply String.eqb_eq in E2. subst k'.
        rewrite String.eqb_sym, E1. reflexivity.
      * exact IH.
Qed.

Lemma record_span_keys k span : forall tl,
  NoDup (map fst tl) ->
  NoDup (map fst (record_span k span tl)) /\
  (forall x, In x (map fst (record_span k span tl))
             <-> x = k \/ In x (map fst tl)).
Proof.
  induction tl as [|[k' v] r IH]; simpl; intros H.
  - split; [repeat constructor; auto | intros x; intuition].
  - inversion H as [|? ? Hn Hr]; subst.
    destruct (String.eqb k' k) eqn:E; simpl.
    + apply String.eqb_eq in E. subst k'. split; [exact H|].
      intros x. intuition.
    + destruct (IH Hr) as [I1 I2]. split.
      * constructor; [|exact I1]. rewrite I2. intros [->|Hin]; [|tauto].
        rewrite String.eqb_refl in E. discriminate E.
      * intros x. rewrite I2. intuition.
Qed.

Lemma timeline_from sp : forall segments tl,
  spans_of sp
    (fold_left
       (fun speaker_timeline segment =>
          record_span (speaker segment) (start segment, end_ segment)
            speaker_timeline)
       segments tl)
  = match spans_of sp tl, spans sp segments with
    | Some a, l => Some (a ++ l)
    | None, [] => None
    | None, l => Some l
    end.
Proof.
  induction segments as [|s r IH]; intros tl; simpl.
  - unfold spans. simpl. destruct (spans_of sp tl);
      [rewrite app_nil_r|]; reflexivity.
  - rewrite IH, record_span_spec. unfold spans. simpl.
    destruct (String.eqb (speaker s) sp); simpl.
    + destruct (spans_of sp tl); [rewrite <- app_assoc|]; reflexivity.
    + reflexivity.
Qed.

Lemma timeline_keys : forall segments tl,
  NoDup (map fst tl) ->
  NoDup (map fst
    (fold_left
       (fun speaker_timeline segment =>
          record_span (speaker segment) (start segment, end_ segment)
            speaker_timeline)
       segments tl)).
Proof.
  induction segments as [|s r IH]; intros tl H; simpl; [exact H|].
  apply IH. apply record_span_keys. exact H.
Qed.

(** X20. [get_speaker_timeline] sorts the segments by speaker and loses
    nothing: each speaker has one entry, which lists the [[start, end]]
    pairs of exactly that speaker's segments in the order of the input; a
    speaker without a segment has no entry.  The duration it is given plays
    no part. *)
Theorem timeline_partitions_the_segments
    (segments : list Segment) (duration : Q) (sp : string) :
  let speaker_timeline := get_speaker_timeline segments duration in
  NoDup (map fst speaker_timeline) /\
  spans_of sp speaker_timeline
  = match spans sp segments with
    | [] => None
    | l => Some l
    end.
Proof.
  cbv zeta. unfold get_speaker_timeline. split.
  - apply timeline_keys. constructor.
  - rewrite (timeline_from sp segments []). reflexivity.
Qed.

(** *** The statistics *)

Lemma insert_name_perm sp l : Permutation (sp :: l) (insert_name sp l).
Proof.
  induction l as [|x r IH]; simpl; [reflexivity|].
  destruct (String.leb sp x); [reflexivity|].
  rewrite perm_swap. constructor. exact IH.
Qed.

Lemma sorted_names_perm l : Permutation l (sorted_names l).
Proof.
  induction l as [|x r IH]; simpl; [reflexivity|].
  rewrite <- insert_name_perm. constructor. exact IH.
Qed.

Lemma insert_by_time_perm time sp l :
  Permutation (sp :: l) (insert_by_time time sp l).
Proof.
  induction l as [|x r IH]; simpl; [reflexivity|].
  destruct (time x <=? time sp); [reflexivity|].
  rewrite perm_swap. constructor. exact IH.
Qed.

Lemma sort_by_time_perm time l : Permutation l (sort_by_time time l).
Proof.
  induction l as [|x r IH]; simpl; [reflexivity|].
  rewrite <- insert_by_time_perm. constructor. exact IH.
Qed.

Lemma insert_by_time_sorted time sp l :
  Sorted (fun a b => time b <= time a) l ->
  Sorted (fun a b => time b <= time a) (insert_by_time time sp l).
Proof.
  induction l as [|x r IH]; simpl; intros H; [repeat constructor|].
  destruct (time x <=? time sp) eqn:E.
  - apply Z.leb_le in E. constructor; [exact H | constructor; exact E].
  - apply Z.leb_gt in E. inversion H as [|? ? Hr Hhd]; subst.
    constructor; [apply IH; exact Hr|].
    destruct r as [|y r']; simpl; [constructor; lia|].
    destruct (time y <=? time sp); constructor;
      [lia | inversion Hhd; assumption].
Qed.

Lemma sort_by_time_sorted time l :
  Sorted (fun a b => time b <= time a) (sort_by_time time l).
Proof.
  induction l as [|x r IH]; simpl; [constructor|].
  apply insert_by_time_sorted, IH.
Qed.

Lemma sum_Z_perm l l' : Permutation l l' -> sum_Z l = sum_Z l'.
Proof. induction 1; simpl; lia. Qed.

Lemma sum_nat_perm l l' : Permutation l l' -> sum_nat l = sum_nat l'.
Proof. induction 1; simpl; lia. Qed.

(** Each segment counts for one name of a list without duplicates that
    holds its speaker. *)
Lemma one_name (w : Z) sp names :
  NoDup names -> In sp names ->
  sum_Z (map (fun k => if String.eqb sp k then w else 0) names) = w.
Proof.
  induction names as [|x r IH]; simpl; intros Hn Hin; [contradiction|].
  inversion Hn as [|? ? Hx Hr]; subst.
  destruct (String.eqb sp x) eqn:E.
  - apply String.eqb_eq in E. subst x.
    assert (H0 : sum_Z (map (fun k => if String.eqb sp k then w else 0) r) = 0).
    { clear IH Hr Hin Hn. induction r as [|y r IH]; simpl; [reflexivity|].
      destruct (String.eqb sp y) eqn:E.
      - apply String.eqb_eq in E. subst y. exfalso. apply Hx. left. reflexivity.
      - rewrite IH; [reflexivity|]. intros H. apply Hx. right. exact H. }
    rewrite H0. lia.
  - apply String.eqb_neq in E. destruct Hin as [->|Hin]; [contradiction|].
    rewrite (IH Hr Hin). lia.
Qed.

Lemma speaker_times_add_up names : NoDup names ->
  forall segments,
    (forall s, In s segments -> In (speaker s) names) ->
    sum_Z (map (fun sp => speaker_time sp segments) names)
    = sum_Z (map duration segments).
Proof.
  intros Hn. induction segments as [|s r IH]; intros Hin.
  - simpl. clear. induction names as [|k names IH]; [reflexivity|].
    unfold sum_Z in *. simpl in *. exact IH.
  - cbn [map sum_Z fold_right]. fold (sum_Z (map duration r)).
    rewrite <- IH by (intros x Hx; apply Hin; right; exact Hx).
    pose proof (one_name (duration s) (speaker s) names Hn
                  (Hin s (or_introl eq_refl))) as H1.
    assert (G : forall l,
              sum_Z (map (fun sp => speaker_time sp (s :: r)) l)
              = sum_Z (map (fun k => if String.eqb (speaker s) k
                                     then duration s else 0) l)
                + sum_Z (map (fun sp => speaker_time sp r) l)).
    { clear. induction l as [|k l IH]; [reflexivity|].
      unfold sum_Z in *. simpl in *. rewrite IH. lia. }
    rewrite G, H1. reflexivity.
Qed.

Lemma counts_add_up names : NoDup names ->
  forall segments,
    (forall s, In s segments -> In (speaker s) names) ->
    sum_nat (map (fun sp => segment_count_of sp segments) names)
    = List.length segments.
Proof.
  intros Hn segments Hin.
  apply Nat2Z.inj.
  assert (H : forall l, Z.of_nat (sum_nat l) = sum_Z (map Z.of_nat l)).
  { induction l; simpl; [reflexivity|]. unfold sum_nat, sum_Z in *. simpl.
    lia. }
  rewrite H, map_map. clear H.
  induction segments as [|s r IH].
  - simpl. clear. induction names as [|k names IH]; [reflexivity|].
    unfold sum_Z in *. simpl in *. exact IH.
  - cbn [List.length]. rewrite Nat2Z.inj_succ. unfold Z.succ.
    rewrite <- IH by (intros x Hx; apply Hin; right; exact Hx).
    pose proof (one_name 1 (speaker s) names Hn (Hin s (or_introl eq_refl)))
      as H1.
    assert (G : forall l,
              sum_Z (map (fun x => Z.of_nat (segment_count_of x (s :: r))) l)
              = sum_Z (map (fun x => Z.of_nat (segment_count_of x r)) l)
                + sum_Z (map (fun k => if String.eqb (speaker s) k
                                       then 1 else 0) l)).
    { clear. induction l as [|k l IH]; [reflexivity|].
      unfold sum_Z, segment_count_of in *. simpl in *.
      destruct (String.eqb (speaker s) k); simpl List.length; lia. }
    rewrite G, H1. reflexivity.
Qed.

Lemma transitions_from_le previous segments :
  (transitions_from previous segments <= List.length segments)%nat.
Proof.
  revert previous. induction segments as [|s r IH]; intros p; simpl; [lia|].
  specialize (IH (speaker s)). destruct (String.eqb (speaker s) p); lia.
Qed.

Lemma round2_seconds t : round2 (inject_Z t / 100) = t.
Proof.
  unfold round2, round_half_even.
  cbn [Qnum Qden inject_Z Qdiv Qmult Qinv].
  replace (t * 1 * 100) with (t * 100) by lia.
  change (Z.pos (1 * 100 * 1)) with 100.
  rewrite Z.div_mul, Z.mod_mul by lia. reflexivity.
Qed.

Lemma Sorted_map {A B} (R : A -> A -> Prop) (R' : B -> B -> Prop)
    (f : A -> B) (l : list A) :
  (forall a b, R a b -> R' (f a) (f b)) ->
  Sorted R l -> Sorted R' (map f l).
Proof.
  intros H. induction 1 as [|a l Hl IH Hhd]; simpl; constructor;
    [exact IH|].
  destruct Hhd; simpl; constructor. apply H. assumption.
Qed.

Lemma speakers_known segments :
  NoDup (unique_speakers segments) /\
  (forall s, In s segments -> In (speaker s) (unique_speakers segments)).
Proof.
  unfold unique_speakers. split; [apply NoDup_nodup|].
  intros s Hs. apply nodup_In. apply in_map. exact Hs.
Qed.

(** X21. The statistics add up.  When [generate_speaker_statistics]
    returns them, there is one entry per distinct speaker, in the order of
    decreasing speaking time; the segment counts of the entries sum to the
    number of segments, and their speaking times to the total speech time,
    which is the sum of the durations of the segments; there are fewer
    speaker changes than segments; the first entry is the primary speaker
    and the only one marked so. *)
Theorem statistics_add_up
    (to_hex : string -> string) (segments : list Segment) (duration_ : Q)
    (r : Report) :
  generate_speaker_statistics to_hex segments duration_ = Statistics r ->
  segment_count r = List.length segments /\
  speaker_count r = List.length (speakers r) /\
  speaker_count r = List.length (unique_speakers segments) /\
  sum_nat (map segments_spoken (speakers r)) = List.length segments /\
  sum_Z (map speaking_time (speakers r)) = total_speech_time r /\
  total_speech_time r = sum_Z (map duration segments) /\
  (speaker_transitions r < List.length segments)%nat /\
  Sorted (fun a b => speaking_time b <= speaking_time a) (speakers r) /\
  exists p rest,
    speakers r = p :: rest /\ primary_speaker r = Some (id p) /\
    is_primary p = true /\ Forall (fun e => is_primary e = false) rest.
Proof.
  unfold generate_speaker_statistics. intros H.
  destruct segments as [|s0 r0] eqn:Es; [discriminate H|]. rewrite <- Es in *.
  destruct (Qeq_bool duration_ 0); [discriminate H|].
  injection H as <-.
  cbn [segment_count speaker_count speakers total_speech_time
       speaker_transitions primary_speaker].
  set (names := sorted_names (unique_speakers segments)).
  set (time := fun sp => speaker_time sp segments).
  destruct (speakers_known segments) as [Hnd Hin].
  assert (P1 : Permutation (unique_speakers segments) names)
    by apply sorted_names_perm.
  assert (P2 : Permutation names (sort_by_time time names))
    by apply sort_by_time_perm.
  assert (Hnd' : NoDup names) by (eapply Permutation_NoDup; eassumption).
  assert (Hin' : forall s, In s segments -> In (speaker s) names)
    by (intros s Hs; eapply Permutation_in; [exact P1 | apply Hin, Hs]).
  split; [reflexivity|].
  split; [rewrite length_map; apply Permutation_length; exact P2|].
  split; [symmetry; apply Permutation_length; exact P1|].
  split; [|split; [|split; [|split; [|split]]]].
  - rewrite map_map. cbn [segments_spoken].
    rewrite <- (sum_nat_perm _ _ (Permutation_map _ P2)).
    apply counts_add_up; assumption.
  - rewrite map_map. cbn [speaking_time]. rewrite round2_seconds.
    rewrite <- (sum_Z_perm _ _ (Permutation_map _ P2)).
    unfold sum_Z. f_equal. apply map_ext. intros sp. apply round2_seconds.
  - rewrite round2_seconds. apply speaker_times_add_up; assumption.
  - rewrite Es. cbn [count_transitions List.length].
    pose proof (transitions_from_le (speaker s0) r0). lia.
  - apply Sorted_map with (R := fun a b => time b <= time a);
      [|apply sort_by_time_sorted].
    intros a b Hab. cbn [speaking_time]. rewrite !round2_seconds. exact Hab.
  - assert (Hnd2 : NoDup (sort_by_time time names))
      by (eapply Permutation_NoDup; eassumption).
    destruct (sort_by_time time names) as [|p rest] eqn:E.
    + exfalso. apply Permutation_sym, Permutation_nil in P2.
      rewrite P2 in P1. apply Permutation_sym, Permutation_nil in P1.
      specialize (Hin s0). rewrite P1, Es in Hin. apply Hin. left. reflexivity.
    + cbn [map hd_error]. eexists. eexists. split; [reflexivity|].
      cbn [id is_primary]. split; [reflexivity|].
      split; [apply String.eqb_refl|].
      inversion Hnd2 as [|? ? Hp Hr]; subst.
      rewrite Forall_map. cbn [is_primary]. rewrite Forall_forall.
      intros x Hx. apply String.eqb_neq. intros ->. contradiction.
Qed.

Lemma statistics_add_up_witness :
  exists r,
    generate_speaker_statistics (fun c => c) three_turns 16 = Statistics r /\
    segment_count r = List.length three_turns.
Proof.
  eexists. split; [vm_compute; reflexivity|].
  apply (statistics_add_up (fun c => c) three_turns 16).
  vm_compute. reflexivity.
Defined.



End ReportFacts.
